(** * keyswarm: the gpg integration layer ([keyswarm/gpg_handler.py])

    A shallow embedding of the functions of [gpg_handler.py] that drive the
    external gpg binary, together with the properties of the specification
    that concern them.

    Conventions of the embedding.
    - Python [bytes] are [string]s (a Rocq [string] is a sequence of 8-bit
      characters).  A Python [str] is represented by its UTF-8 encoding, so
      [bytes.decode('utf-8')] is a validity check and [str.encode()] is the
      identity.
    - A path is absolute and normalised: the list of the names on the way
      from the root directory [/] down, the empty list being [/] itself.
      [path.join(root, name)] appends a name and [path.dirname] drops the
      last one; the parent of [/new.gpg] is [/], which exists.  Relative
      paths (a bare file name, whose [path.dirname] is the empty string)
      are not represented.
    - The file system is a tree; the gpg binary is an abstract [Backend].
    - Effects are threaded through a state-and-exception monad over [world]. *)

From Stdlib Require Import String Ascii List Bool Arith Lia.
Import ListNotations.
Local Open Scope string_scope.
Local Open Scope list_scope.

Set Warnings "-register-all".

(* ================================================================== *)
(** * Byte strings *)

Definition nl : ascii := "010"%char.

Definition is_nl (c : ascii) : bool := Ascii.eqb c nl.

(** [s] holds no line feed. *)
Fixpoint nl_free (s : string) : bool :=
  match s with
  | EmptyString => true
  | String c s' => negb (is_nl c) && nl_free s'
  end.

(** [strip_prefix l s] removes the literal [l] from the front of [s]. *)
Fixpoint strip_prefix (l s : string) : option string :=
  match l with
  | EmptyString => Some s
  | String a l' =>
      match s with
      | EmptyString => None
      | String b s' => if Ascii.eqb a b then strip_prefix l' s' else None
      end
  end.

(** [take_class f n s]: the first [n] characters of [s] when all of them
    satisfy [f], with the rest of [s]. *)
Fixpoint take_class (f : ascii -> bool) (n : nat) (s : string)
  : option (string * string) :=
  match n with
  | O => Some (EmptyString, s)
  | S n' =>
      match s with
      | EmptyString => None
      | String c s' =>
          if f c then
            match take_class f n' s' with
            | Some (t, r) => Some (String c t, r)
            | None => None
            end
          else None
      end
  end.

Fixpoint sconcat (l : list string) : string :=
  match l with
  | [] => EmptyString
  | s :: l' => (s ++ sconcat l')%string
  end.

(** Python's [s[-n:]]: the last [n] characters, the whole of [s] when it is
    shorter. *)
Definition slice_last (n : nat) (s : string) : string :=
  substring (String.length s - n) n s.

(** [bytes.split(b'\n')]: the pieces between line feeds, never empty as a
    list. *)
Fixpoint split_nl (s : string) : list string :=
  match s with
  | EmptyString => [EmptyString]
  | String c s' =>
      if is_nl c then EmptyString :: split_nl s'
      else match split_nl s' with
           | [] => [String c EmptyString]
           | t :: ts => String c t :: ts
           end
  end.

(** [str.replace(old_char, '')] for a one-character [old]. *)
Fixpoint remove_char (c : ascii) (s : string) : string :=
  match s with
  | EmptyString => EmptyString
  | String a s' => if Ascii.eqb a c then remove_char c s' else String a (remove_char c s')
  end.

Definition is_empty (s : string) : bool :=
  match s with EmptyString => true | _ => false end.

(* ================================================================== *)
(** * Regular expressions

    The patterns of [gpg_handler.py] are built from literals, the greedy
    [.*], one bounded character class and one capturing group.  [rmatch]
    is a backtracking matcher for that fragment with the priorities of
    Python's [re]: [.*] takes as much as it can and gives back one
    character at a time, and [.] never matches a line feed.  The result is
    the text consumed by each item, in order. *)

Inductive item :=
| Lit (l : string)                       (* literal text *)
| DotStar                                (* [.*] *)
| Class (f : ascii -> bool) (n : nat)    (* [[...]{n}] *)
| GOpen                                  (* [(] *)
| GClose.                                (* [)] *)

Definition regex := list item.

Fixpoint rmatch (p : regex) (s : string) : option (list string) :=
  match p with
  | [] => Some []
  | Lit l :: p' =>
      match strip_prefix l s with
      | Some s' => option_map (cons l) (rmatch p' s')
      | None => None
      end
  | Class f n :: p' =>
      match take_class f n s with
      | Some (t, s') => option_map (cons t) (rmatch p' s')
      | None => None
      end
  | GOpen :: p' => option_map (cons EmptyString) (rmatch p' s)
  | GClose :: p' => option_map (cons EmptyString) (rmatch p' s)
  | DotStar :: p' =>
      (fix star (s : string) : option (list string) :=
         let stop := option_map (cons EmptyString) (rmatch p' s) in
         match s with
         | EmptyString => stop
         | String c s' =>
             if is_nl c then stop
             else match star s' with
                  | Some (t :: ts) => Some (String c t :: ts)
                  | _ => stop
                  end
         end) s
  end.

(** [re.match(p, s)] as a truth value. *)
Definition re_match (p : regex) (s : string) : bool :=
  match rmatch p s with Some _ => true | None => false end.

(** The text of the first capturing group of a match. *)
Fixpoint group1 (p : regex) (parts : list string) (acc : option string)
  : option string :=
  match p, parts with
  | GOpen :: p', _ :: ts => group1 p' ts (Some EmptyString)
  | GClose :: _, _ => acc
  | _ :: p', t :: ts => group1 p' ts (option_map (fun a => (a ++ t)%string) acc)
  | _, _ => None
  end.

(** [regex.search(s).groups()[0]] for a pattern that starts with [.*] or is
    used where [regex.match(s)] has succeeded: the search then succeeds at
    position 0 with the same match. *)
Definition re_group (p : regex) (s : string) : option string :=
  match rmatch p s with
  | Some parts => group1 p parts None
  | None => None
  end.

Definition is_hex (c : ascii) : bool :=
  let n := nat_of_ascii c in
  (((48 <=? n) && (n <=? 57)) || ((65 <=? n) && (n <=? 70))
   || ((97 <=? n) && (n <=? 102)))%nat.

Definition is_1_or_2 (c : ascii) : bool :=
  Ascii.eqb c "1"%char || Ascii.eqb c "2"%char.

(** The patterns of the module, in the order of the source. *)
(* r'gpg \(GnuPG\) ([1-2])\..*' *)
Definition re_version : regex :=
  [Lit "gpg (GnuPG) "; GOpen; Class is_1_or_2 1; GClose; Lit "."; DotStar].
(* b".*can't open.*" *)
Definition re_cant_open : regex := [DotStar; Lit "can't open"; DotStar].
(* b".*read error: Is a directory.*" *)
Definition re_is_a_directory : regex :=
  [DotStar; Lit "read error: Is a directory"; DotStar].
(* b".*no valid OpenPGP data found.*" *)
Definition re_no_valid_data : regex :=
  [DotStar; Lit "no valid OpenPGP data found"; DotStar].
(* b'.*(keyid [0-9A-Fa-f]{16}).*' *)
Definition re_keyid : regex :=
  [DotStar; GOpen; Lit "keyid "; Class is_hex 16; GClose; DotStar].
(* b".*decryption failed: No secret key.*" *)
Definition re_no_secret_key : regex :=
  [DotStar; Lit "decryption failed: No secret key"; DotStar].
(* b".*can't open.*No such file or directory.*" *)
Definition re_cant_open_no_such_file : regex :=
  [DotStar; Lit "can't open"; DotStar; Lit "No such file or directory"; DotStar].
(* b'.*No such file or directory.*' *)
Definition re_no_such_file : regex :=
  [DotStar; Lit "No such file or directory"; DotStar].
(* b'.*No public key.*' *)
Definition re_no_public_key : regex := [DotStar; Lit "No public key"; DotStar].

(* ================================================================== *)
(** * Text: UTF-8 and line handling *)

(** The strict UTF-8 decoder of [bytes.decode('utf-8')] as an automaton
    over the bytes: it accepts exactly the well-formed sequences (no
    overlong forms, no surrogates, nothing above U+10FFFF). *)
Inductive utf8_state :=
| U_start       (* at a character boundary *)
| U_cont1       (* one continuation byte to come *)
| U_cont2       (* two continuation bytes to come *)
| U_cont3       (* three continuation bytes to come *)
| U_e0          (* after E0: A0..BF, then one more *)
| U_ed          (* after ED: 80..9F, then one more *)
| U_f0          (* after F0: 90..BF, then two more *)
| U_f4          (* after F4: 80..8F, then two more *)
| U_bad.

Definition in_range (lo hi n : nat) : bool := ((lo <=? n) && (n <=? hi))%nat.

Definition utf8_step (st : utf8_state) (c : ascii) : utf8_state :=
  let n := nat_of_ascii c in
  match st with
  | U_start =>
      if in_range 0 127 n then U_start
      else if in_range 194 223 n then U_cont1
      else if in_range 224 224 n then U_e0
      else if in_range 237 237 n then U_ed
      else if in_range 225 239 n then U_cont2
      else if in_range 240 240 n then U_f0
      else if in_range 241 243 n then U_cont3
      else if in_range 244 244 n then U_f4
      else U_bad
  | U_cont1 => if in_range 128 191 n then U_start else U_bad
  | U_cont2 => if in_range 128 191 n then U_cont1 else U_bad
  | U_cont3 => if in_range 128 191 n then U_cont2 else U_bad
  | U_e0 => if in_range 160 191 n then U_cont1 else U_bad
  | U_ed => if in_range 128 159 n then U_cont1 else U_bad
  | U_f0 => if in_range 144 191 n then U_cont2 else U_bad
  | U_f4 => if in_range 128 143 n then U_cont2 else U_bad
  | U_bad => U_bad
  end.

Fixpoint utf8_run (st : utf8_state) (s : string) : utf8_state :=
  match s with
  | EmptyString => st
  | String c s' => utf8_run (utf8_step st c) s'
  end.

Definition utf8_valid (s : string) : bool :=
  match utf8_run U_start s with U_start => true | _ => false end.

(** The line boundaries of [str.splitlines()], on the UTF-8 encoding:
    LF, VT, FF, CR, FS, GS, RS, NEL (C2 85), LS (E2 80 A8), PS (E2 80 A9). *)
Definition starts_with_boundary (s : string) : bool :=
  match s with
  | EmptyString => false
  | String c s' =>
      let n := nat_of_ascii c in
      in_range 10 13 n || in_range 28 30 n
      || match strip_prefix (String (ascii_of_nat 194) (String (ascii_of_nat 133) EmptyString)) s with
         | Some _ => true | None => false end
      || match strip_prefix (String (ascii_of_nat 226) (String (ascii_of_nat 128) (String (ascii_of_nat 168) EmptyString))) s with
         | Some _ => true | None => false end
      || match strip_prefix (String (ascii_of_nat 226) (String (ascii_of_nat 128) (String (ascii_of_nat 169) EmptyString))) s with
         | Some _ => true | None => false end
  end.

Fixpoint before_boundary (s : string) : string :=
  match s with
  | EmptyString => EmptyString
  | String c s' =>
      if starts_with_boundary s then EmptyString
      else String c (before_boundary s')
  end.

(** [s.splitlines()[0]]: [None] stands for the [IndexError] on the empty
    string. *)
Definition splitlines_head (s : string) : option string :=
  if is_empty s then None else Some (before_boundary s).

Definition cr : ascii := "013"%char.

(** Reading in text mode ([open(p, 'r')], universal newlines): CR LF and a
    lone CR both arrive as LF. *)
Fixpoint universal_newlines (s : string) : string :=
  match s with
  | EmptyString => EmptyString
  | String c s' =>
      if Ascii.eqb c cr then
        String nl
          match s' with
          | EmptyString => EmptyString
          | String c2 s'' =>
              if is_nl c2 then universal_newlines s'' else universal_newlines s'
          end
      else String c (universal_newlines s')
  end.

(** [file.readlines()]: the lines with their terminating line feed; the
    last one may lack it. *)
Fixpoint readlines (s : string) : list string :=
  match s with
  | EmptyString => []
  | String c s' =>
      if is_nl c then String c EmptyString :: readlines s'
      else match readlines s' with
           | [] => [String c EmptyString]
           | l :: ls => String c l :: ls
           end
  end.

(* ================================================================== *)
(** * The file system *)

(** An absolute path: the names from the root directory down. *)
Definition path := list string.

Definition path_eqb (p q : path) : bool :=
  if list_eq_dec string_dec p q then true else false.

(** [path.join(root, name)] *)
Definition path_join (root : path) (name : string) : path := root ++ [name].

(** [path.dirname(p)] for an absolute path; the parent of a path of one
    name is the root directory. *)
Definition dirname (p : path) : path := removelast p.

Inductive node :=
| File (data : string)
| Dir (entries : list (string * node)).

Definition is_dir (n : node) : bool :=
  match n with Dir _ => true | File _ => false end.

Fixpoint find_entry (name : string) (es : list (string * node)) : option node :=
  match es with
  | [] => None
  | (k, c) :: es' => if String.eqb k name then Some c else find_entry name es'
  end.

Fixpoint update_entry (name : string) (c' : node) (es : list (string * node))
  : list (string * node) :=
  match es with
  | [] => []
  | (k, c) :: es' =>
      if String.eqb k name then (k, c') :: es' else (k, c) :: update_entry name c' es'
  end.

Fixpoint lookup (n : node) (p : path) : option node :=
  match p with
  | [] => Some n
  | name :: p' =>
      match n with
      | File _ => None
      | Dir es =>
          match find_entry name es with
          | Some c => lookup c p'
          | None => None
          end
      end
  end.

(** [path.exists(p)] *)
Definition path_exists (fs : node) (p : path) : bool :=
  match lookup fs p with Some _ => true | None => false end.

Inductive os_error := EISDIR | ENOTDIR | ENOENT.

(** [open(p, 'w')] followed by one [write(data)] and the close: the file is
    created when only its name is missing, and replaced in full when it
    exists. *)
Fixpoint write_file (n : node) (p : path) (data : string) : node + os_error :=
  match p with
  | [] =>
      match n with
      | File _ => inl (File data)
      | Dir _ => inr EISDIR
      end
  | name :: p' =>
      match n with
      | File _ => inr ENOTDIR
      | Dir es =>
          match find_entry name es with
          | Some c =>
              match write_file c p' data with
              | inl c' => inl (Dir (update_entry name c' es))
              | inr e => inr e
              end
          | None =>
              match p' with
              | [] => inl (Dir (es ++ [(name, File data)]))
              | _ :: _ => inr ENOENT
              end
          end
      end
  end.

(** The error of [open] for a path that leads nowhere: [ENOTDIR] when the
    path runs through a regular file, [ENOENT] when a name is missing. *)
Fixpoint missing_error (n : node) (p : path) : os_error :=
  match p with
  | [] => ENOENT
  | name :: p' =>
      match n with
      | File _ => ENOTDIR
      | Dir es =>
          match find_entry name es with
          | Some c => missing_error c p'
          | None => ENOENT
          end
      end
  end.

(** [open(p, 'r')] followed by reading everything. *)
Definition read_file (fs : node) (p : path) : string + os_error :=
  match lookup fs p with
  | Some (File data) => inl data
  | Some (Dir _) => inr EISDIR
  | None => inr (missing_error fs p)
  end.

Definition dir_names (es : list (string * node)) : list string :=
  map fst (filter (fun e => is_dir (snd e)) es).

Definition file_names (es : list (string * node)) : list string :=
  map fst (filter (fun e => negb (is_dir (snd e))) es).

(** [os.walk(top)], top-down: a directory, then each of its sub-directories
    in turn with everything below it.  A [top] that is not a directory
    yields nothing. *)
Fixpoint walk_node (root : path) (n : node)
  : list (path * list string * list string) :=
  match n with
  | File _ => []
  | Dir es =>
      (root, dir_names es, file_names es)
      :: (fix below (l : list (string * node)) :=
            match l with
            | [] => []
            | (name, c) :: l' => walk_node (path_join root name) c ++ below l'
            end) es
  end.

Definition walk (fs : node) (top : path)
  : list (path * list string * list string) :=
  match lookup fs top with
  | Some n => walk_node top n
  | None => []
  end.

(* ================================================================== *)
(** * The external binary *)

(** What a child process writes, in order, on its two streams. *)
Inductive stream := Out | Err.

Definition output := list (stream * string).

Definition is_out (c : stream * string) : bool :=
  match fst c with Out => true | Err => false end.

(** [stdout=PIPE] *)
Definition stdout_of (o : output) : string :=
  sconcat (map snd (filter is_out o)).

(** [stderr=PIPE] *)
Definition stderr_of (o : output) : string :=
  sconcat (map snd (filter (fun c => negb (is_out c)) o)).

(** [stdout=PIPE, stderr=STDOUT]: both streams arrive on one pipe. *)
Definition merged_of (o : output) : string := sconcat (map snd o).

(** An element of an argument vector. *)
Inductive arg :=
| Str (s : string)
| Pth (p : path).

(** The processes the module starts: a command line and an optional
    standard input, run against the file system and the binary's own state
    (key rings, randomness).  [None] is a program that cannot be started.
    The binary reads the file system and writes to its streams only. *)
Class Backend := {
  bstate : Type;
  spawn : list arg -> option string -> node -> bstate -> option output * bstate
}.

(* ================================================================== *)
(** * Exceptions, effects and the monad *)

Inductive exn :=
| ValueError (msg : string)
| FileNotFoundError (msg : option string)
| IsADirectoryError
| NotADirectoryError
| UnicodeDecodeError
| IndexError
| UnknownGpgError (stderr : string). (* Exception('unkown gpg error: %r' % (stderr,)) *)

Definition exn_of_os_error (e : os_error) : exn :=
  match e with
  | EISDIR => IsADirectoryError
  | ENOTDIR => NotADirectoryError
  | ENOENT => FileNotFoundError None
  end.

(** What the module does to the outside, in order. *)
Inductive event :=
(* the four debug lines at the entry of [recursive_reencrypt] *)
| EvCall (path_to_folder : path) (list_of_keys : list string)
         (gpg_home : option string) (additional_parameter : option (list string))
(* [Popen(argv, ...).communicate(input)] and what came back *)
| EvSpawn (argv : list arg) (input : option string) (res : option output)
(* a file opened for writing and written *)
| EvWrite (p : path) (data : string).

Inductive result (A : Type) :=
| Ret (a : A)
| Raise (e : exn)
| Exit (code : nat)        (* [sys.exit(code)] *)
| OutOfFuel.               (* the recursion budget of the model is spent *)

Arguments Ret {A} a.
Arguments Raise {A} e.
Arguments Exit {A} code.
Arguments OutOfFuel {A}.

Section Program.

Context {BK : Backend}.

Record world := {
  fs : node;                       (* the file system *)
  gpg_state : bstate;              (* the state of the binary *)
  binary_cache : option string;    (* the [lru_cache] of [get_binary] *)
  trace : list event
}.

Definition M (A : Type) : Type := world -> result A * world.

Definition ret {A} (a : A) : M A := fun w => (Ret a, w).

Definition bind {A B} (c : M A) (k : A -> M B) : M B :=
  fun w =>
    match c w with
    | (Ret a, w') => k a w'
    | (Raise e, w') => (Raise e, w')
    | (Exit n, w') => (Exit n, w')
    | (OutOfFuel, w') => (OutOfFuel, w')
    end.

Definition raise {A} (e : exn) : M A := fun w => (Raise e, w).

Definition sys_exit {A} (code : nat) : M A := fun w => (Exit code, w).

Definition out_of_fuel {A} : M A := fun w => (OutOfFuel, w).

Definition get_fs : M node := fun w => (Ret (fs w), w).

Definition emit (e : event) (w : world) : world :=
  {| fs := fs w; gpg_state := gpg_state w; binary_cache := binary_cache w;
     trace := trace w ++ [e] |}.

Definition log (e : event) : M unit := fun w => (Ret tt, emit e w).

Notation "x <- c ;; k" := (bind c (fun x => k))
  (at level 61, c at next level, right associativity).
Notation "c ;; k" := (bind c (fun _ => k))
  (at level 61, right associativity).

Fixpoint for_each {A} (l : list A) (body : A -> M unit) : M unit :=
  match l with
  | [] => ret tt
  | x :: l' => body x ;; for_each l' body
  end.

(** [Popen(argv, stdin=..., stdout=PIPE, ...).communicate(input)]: the
    caller picks the streams it captured out of the result. *)
Definition popen (argv : list arg) (input : option string) : M output :=
  fun w =>
    let '(res, st) := spawn argv input (fs w) (gpg_state w) in
    let w' := {| fs := fs w; gpg_state := st; binary_cache := binary_cache w;
                 trace := trace w ++ [EvSpawn argv input res] |} in
    match res with
    | Some o => (Ret o, w')
    | None => (Raise (FileNotFoundError None), w')
    end.

(** [with open(p, 'bw') as file: file.write(data)] *)
Definition open_write (p : path) (data : string) : M unit :=
  fun w =>
    match write_file (fs w) p data with
    | inl fs' =>
        (Ret tt,
         {| fs := fs'; gpg_state := gpg_state w; binary_cache := binary_cache w;
            trace := trace w ++ [EvWrite p data] |})
    | inr e => (Raise (exn_of_os_error e), w)
    end.

(** [bytes.decode('utf-8')] *)
Definition decode_utf8 (b : string) : M string :=
  if utf8_valid b then ret b else raise UnicodeDecodeError.

(** ** [get_binary] *)

(** [stdout.decode('utf-8').splitlines()[0]] *)
Definition first_line (stdout : string) : M string :=
  text <- decode_utf8 stdout ;;
  match splitlines_head text with
  | Some version => ret version
  | None => raise IndexError
  end.

(** The body under the [lru_cache] decorator. *)
Definition get_binary_body : M string :=
  o <- popen [Str "gpg"; Str "--version"] None ;;
  version <- first_line (stdout_of o) ;;
  (* the value returned before the final [sys_exit(1)], if any *)
  found <-
  (if re_match re_version version then
     match re_group re_version version with
     | Some group =>
         if String.eqb group "2" then ret (Some "gpg")
         else if String.eqb group "1" then
           o_2 <- popen [Str "gpg2"; Str "--version"] None ;;
           version_2 <- first_line (stdout_of o_2) ;;
           if re_match re_version version_2 then
             match re_group re_version version_2 with
             | Some g_2 => if String.eqb g_2 "2" then ret (Some "gpg2") else ret None
             | None => ret None
             end
           else ret None
         else ret None
     | None => ret None
     end
   else ret None) ;;
  match found with
  | Some binary => ret binary
  | None => sys_exit 1
  end.

(** [@lru_cache(maxsize=1)] on a function without arguments: a value that
    was returned is kept and handed out again; an exception or an exit
    leaves the cache as it was. *)
Definition get_binary : M string :=
  fun w =>
    match binary_cache w with
    | Some binary => (Ret binary, w)
    | None =>
        match get_binary_body w with
        | (Ret binary, w') =>
            (Ret binary,
             {| fs := fs w'; gpg_state := gpg_state w';
                binary_cache := Some binary; trace := trace w' |})
        | other => other
        end
    end.

(** [if gpg_home:] holds for a string that is not empty. *)
Definition truthy (s : option string) : option string :=
  match s with
  | Some h => if is_empty h then None else Some h
  | None => None
  end.

(** ** [list_packets] *)

Definition keyids_of_line (line : string) : list string :=
  if re_match re_keyid line then
    match re_group re_keyid line with
    | Some g => [g]          (* six characters [keyid ] and sixteen digits: ASCII *)
    | None => []
    end
  else [].

Definition list_packets (path_to_file : path) : M (list string) :=
  binary <- get_binary ;;
  o <- popen [Str binary; Str "--pinentry-mode"; Str "cancel"; Str "--list-packets";
              Pth path_to_file] None ;;
  let stdout := stdout_of o in
  let stderr := stderr_of o in
  if re_match re_cant_open stderr then
    raise (FileNotFoundError (Some "can't open file"))
  else if re_match re_is_a_directory stderr then
    raise (ValueError "file is a directory")
  else if re_match re_no_valid_data stderr then
    raise (ValueError "no valid openpgp data found")
  else
    ret (flat_map keyids_of_line (split_nl stdout)).

(** ** [decrypt] *)

Definition decrypt (path_to_file : path) (gpg_home : option string)
    (additional_parameter : option (list string)) (utf8 : bool) : M string :=
  let additional_parameter :=
    match additional_parameter with None => [] | Some l => l end in
  binary <- get_binary ;;
  let gpg_command :=
    [Str binary; Str "--quiet"] ++ map Str additional_parameter
    ++ [Str "--decrypt"; Pth path_to_file] in
  gpg_command <-
    match truthy gpg_home with
    | Some home =>
        binary <- get_binary ;;
        ret ([Str binary; Str "--quiet"; Str "--homedir"; Str home]
             ++ map Str additional_parameter ++ [Str "--decrypt"; Pth path_to_file])
    | None => ret gpg_command
    end ;;
  o <- popen gpg_command None ;;
  let stdout := stdout_of o in
  let stderr := stderr_of o in
  if negb (is_empty stdout) then
    if utf8 then decode_utf8 stdout else ret stdout
  else if re_match re_no_secret_key stderr then
    raise (ValueError "no secret key")
  else if re_match re_cant_open_no_such_file stderr then
    raise (FileNotFoundError None)
  else if re_match re_is_a_directory stderr then
    raise (ValueError "file is a directory")
  else if re_match re_no_valid_data stderr then
    raise (ValueError "no valid openpgp data found")
  else
    raise (UnknownGpgError stderr).

(** ** [encrypt] *)

Definition cli_recipients (list_of_recipients : list string) : list arg :=
  flat_map (fun recipient => [Str "-r"; Str recipient]) list_of_recipients.

(** [path_to_file] is [None] for Python's [None] and for the empty string,
    both of which are false in [if path_to_file]. *)
Definition encrypt (clear_text : string) (list_of_recipients : list string)
    (path_to_file : option path) (gpg_home : option string) : M (option string) :=
  match list_of_recipients with
  | [] => raise (ValueError "no recipients")
  | _ :: _ =>
      cur <- get_fs ;;
      match path_to_file with
      | Some p =>
          if negb (path_exists cur (dirname p)) then
            raise (FileNotFoundError (Some "specified file path does not exist"))
          else ret tt
      | None => ret tt
      end ;;
      binary <- get_binary ;;
      let gpg_command :=
        [Str binary; Str "--encrypt"; Str "--auto-key-locate"; Str "local";
         Str "--trust-model"; Str "always"] ++ cli_recipients list_of_recipients in
      gpg_command <-
        match truthy gpg_home with
        | Some home =>
            binary <- get_binary ;;
            ret ([Str binary; Str "--quiet"; Str "--homedir"; Str home; Str "--encrypt";
                  Str "--auto-key-locate"; Str "local"; Str "--trust-model"; Str "always"]
                 ++ cli_recipients list_of_recipients)
        | None => ret gpg_command
        end ;;
      o <- popen gpg_command (Some clear_text) ;;
      let stdout := merged_of o in        (* stderr=STDOUT *)
      if re_match re_no_such_file stdout then
        raise (FileNotFoundError None)
      else if re_match re_no_public_key stdout then
        raise (ValueError "no public key")
      else
        match path_to_file with
        | Some p => open_write p stdout ;; ret None
        | None => ret (Some stdout)
        end
  end.

(** ** The [.gpg-id] file *)

(** [open(p, 'r')] and [file.readlines()].  The file is taken to hold
    UTF-8 text, as [write_gpg_id_file] writes it: the decoding of the text
    layer, which raises [UnicodeDecodeError] for other bytes, has no step of
    its own here, and the statements about files of unknown origin carry
    [utf8_valid] as a hypothesis. *)
Definition get_recipients_from_gpg_id (path_to_gpg_id_file : path)
  : M (list string) :=
  cur <- get_fs ;;
  match read_file cur path_to_gpg_id_file with
  | inl data =>
      ret (map (remove_char nl) (readlines (universal_newlines data)))
  | inr e => raise (exn_of_os_error e)
  end.

(** [open(p, 'w')] and one [file.write('{key}\n')] per identifier. *)
Definition write_gpg_id_file (path_to_file : path) (list_of_gpg_ids : list string)
  : M unit :=
  open_write path_to_file
    (sconcat (map (fun key_id => (key_id ++ String nl EmptyString)%string)
                  list_of_gpg_ids)).

(** ** [recursive_reencrypt] *)

(** The directories and files of [os.walk] are read when the call starts:
    the loop only replaces the content of files that exist, so that the
    listings do not change while it runs (this is
    [recursive_reencrypt_keeps_walk] below).  [fuel] bounds the depth of the
    recursion; [recursive_reencrypt_terminates] shows that the depth of the
    folder is enough. *)
Fixpoint recursive_reencrypt (fuel : nat) (path_to_folder : path)
    (list_of_keys : list string) (gpg_home : option string)
    (additional_parameter : option (list string)) : M unit :=
  match fuel with
  | O => out_of_fuel
  | S fuel' =>
      log (EvCall path_to_folder list_of_keys gpg_home additional_parameter) ;;
      cur <- get_fs ;;
      for_each (walk cur path_to_folder) (fun '(root, _, files) =>
        if path_eqb root path_to_folder then
          for_each files (fun file =>
            if String.eqb (slice_last 4 file) ".gpg" then
              let file_path := path_join root file in
              cleartext <- decrypt file_path gpg_home additional_parameter true ;;
              encrypt cleartext (* .encode() *) list_of_keys (Some file_path) gpg_home ;;
              ret tt
            else ret tt)
        else
          cur' <- get_fs ;;
          if negb (path_exists cur' (path_join root ".gpg-id")) then
            recursive_reencrypt fuel' root list_of_keys None None
          else ret tt)
  end.

End Program.

Arguments world {BK}.
Arguments M {BK} A.

(* ================================================================== *)
(** * A test double for the binary

    A deterministic stand-in for gpg, used to run the functions on concrete
    stores.  A ciphertext is the list of its recipients, separated by
    commas, a vertical bar and the cleartext: [K1,K3|secret].  [gpg] reports
    version 1 and [gpg2] version 2.  The key [nobody] is not in the key
    ring. *)

Fixpoint split_first (c : ascii) (s : string) : option (string * string) :=
  match s with
  | EmptyString => None
  | String a s' =>
      if Ascii.eqb a c then Some (EmptyString, s')
      else match split_first c s' with
           | Some (l, r) => Some (String a l, r)
           | None => None
           end
  end.

Fixpoint split_all (c : ascii) (s : string) : list string :=
  match s with
  | EmptyString => [EmptyString]
  | String a s' =>
      if Ascii.eqb a c then EmptyString :: split_all c s'
      else match split_all c s' with
           | [] => [String a EmptyString]
           | t :: ts => String a t :: ts
           end
  end.

Fixpoint join_with (sep : string) (l : list string) : string :=
  match l with
  | [] => EmptyString
  | [x] => x
  | x :: l' => (x ++ sep ++ join_with sep l')%string
  end.

Definition has_flag (flag : string) (argv : list arg) : bool :=
  existsb (fun a => match a with Str s => String.eqb s flag | Pth _ => false end) argv.

Fixpoint recipients_of (argv : list arg) : list string :=
  match argv with
  | [] => []
  | Str s :: rest =>
      match rest with
      | Str k :: rest' =>
          if String.eqb s "-r" then k :: recipients_of rest' else recipients_of rest
      | _ => recipients_of rest
      end
  | Pth _ :: rest => recipients_of rest
  end.

Fixpoint path_of (argv : list arg) : option path :=
  match argv with
  | [] => None
  | Pth p :: _ => Some p
  | Str _ :: rest => path_of rest
  end.

Definition line (s : string) : string := (s ++ String nl EmptyString)%string.

Definition test_read (fs : node) (argv : list arg) (k : string -> string -> output)
  : output :=
  match path_of argv with
  | None => [(Err, line "gpg: no input")]
  | Some p =>
      match lookup fs p with
      | None =>
          [(Err, line "gpg: can't open 'file': No such file or directory")]
      | Some (Dir _) => [(Err, line "gpg: read error: Is a directory")]
      | Some (File data) =>
          match split_first "|"%char data with
          | None => [(Err, line "gpg: no valid OpenPGP data found.")]
          | Some (keys, clear) => k keys clear
          end
      end
  end.

Definition test_spawn (argv : list arg) (input : option string) (fs : node) (st : unit)
  : option output * unit :=
  (match argv with
   | Str binary :: rest =>
       if has_flag "--version" rest then
         if String.eqb binary "gpg" then Some [(Out, line "gpg (GnuPG) 1.4.23")]
         else if String.eqb binary "gpg2" then
           Some [(Out, line "gpg (GnuPG) 2.2.27"); (Out, line "libgcrypt 1.8.8")]
         else None
       else if negb (String.eqb binary "gpg2") then None
       else if has_flag "--decrypt" rest then
         Some (test_read fs rest (fun keys clear =>
           if existsb (String.eqb "me") (split_all ","%char keys)
           then [(Out, clear)]
           else [(Err, line "gpg: decryption failed: No secret key")]))
       else if has_flag "--list-packets" rest then
         Some (test_read fs rest (fun keys _ =>
           map (fun k => (Out, line (":pubkey enc packet: version 3, algo 1, keyid " ++ k)))
               (split_all ","%char keys)))
       else if has_flag "--encrypt" rest then
         if existsb (String.eqb "nobody") (recipients_of rest) then
           Some [(Err, line "gpg: nobody: skipped: No public key");
                 (Err, line "gpg: [stdin]: encryption failed: No public key")]
         else
           Some [(Out, (join_with "," (recipients_of rest) ++ "|"
                        ++ match input with Some t => t | None => EmptyString end)%string)]
       else Some []
   | _ => None
   end, st).

Definition test_backend : Backend := {| bstate := unit; spawn := test_spawn |}.

Definition test_world (store : node) : @world test_backend :=
  @Build_world test_backend store tt None [].

(** A second test double: [gpg] is version 2 and every other command line
    gets the same, given answer. *)
Definition canned_spawn (answer : output) (argv : list arg) (input : option string)
    (fs : node) (st : unit) : option output * unit :=
  (if has_flag "--version" argv then Some [(Out, line "gpg (GnuPG) 2.2.27")]
   else Some answer, st).

Definition canned_backend (answer : output) : Backend :=
  {| bstate := unit; spawn := canned_spawn answer |}.

Definition canned_world (answer : output) (store : node)
  : @world (canned_backend answer) :=
  @Build_world (canned_backend answer) store tt None [].

(* ================================================================== *)
(** * Vocabulary of the properties *)

(** The two version queries of [get_binary]. *)
Definition gpg_version : list arg := [Str "gpg"; Str "--version"].
Definition gpg2_version : list arg := [Str "gpg2"; Str "--version"].

Definition arg_eqb (a b : arg) : bool :=
  match a, b with
  | Str s, Str t => String.eqb s t
  | Pth p, Pth q => path_eqb p q
  | _, _ => false
  end.

Fixpoint argv_eqb (a b : list arg) : bool :=
  match a, b with
  | [], [] => true
  | x :: a', y :: b' => arg_eqb x y && argv_eqb a' b'
  | _, _ => false
  end.

(** The event is a start of the command line [argv]. *)
Definition is_spawn_of (argv : list arg) (e : event) : bool :=
  match e with
  | EvSpawn a _ _ => argv_eqb a argv
  | _ => false
  end.

Definition count_spawns (argv : list arg) (tr : list event) : nat :=
  length (filter (is_spawn_of argv) tr).

Definition is_version_query (e : event) : bool :=
  is_spawn_of gpg_version e || is_spawn_of gpg2_version e.

Definition is_write (e : event) : bool :=
  match e with EvWrite _ _ => true | _ => false end.

(** The phrase occurs in the first line of [s]: this is what a pattern
    [.*phrase.*] asks of its subject under [re.match]. *)
Definition on_first_line (phrase s : string) : Prop :=
  exists a b, s = (a ++ phrase ++ b)%string /\ nl_free a = true.

(** Two phrases occur in the first line of [s], in this order and without
    overlap. *)
Definition on_first_line2 (phrase1 phrase2 s : string) : Prop :=
  exists a m b,
    s = (a ++ phrase1 ++ m ++ phrase2 ++ b)%string
    /\ nl_free a = true /\ nl_free m = true.

(** The phrase occurs somewhere in [s], on whatever line. *)
Definition occurs (phrase s : string) : Prop :=
  exists a b, s = (a ++ phrase ++ b)%string.

(** Two phrases occur somewhere in [s], in this order and without overlap. *)
Definition occurs2 (phrase1 phrase2 s : string) : Prop :=
  exists a m b, s = (a ++ phrase1 ++ m ++ phrase2 ++ b)%string.

(** The same two as tests. *)
Fixpoint contains (phrase s : string) : bool :=
  match strip_prefix phrase s with
  | Some _ => true
  | None =>
      match s with
      | EmptyString => false
      | String _ s' => contains phrase s'
      end
  end.

Fixpoint contains2 (phrase1 phrase2 s : string) : bool :=
  match strip_prefix phrase1 s with
  | Some rest => contains phrase2 rest
  | None => false
  end
  || match s with
     | EmptyString => false
     | String _ s' => contains2 phrase1 phrase2 s'
     end.

(** What a process printed, in the words of the specification: on one of
    its streams, and on both in the order of printing. *)
Definition on_stream (s : stream) (c : stream * string) : bool :=
  match s, fst c with
  | Out, Out => true
  | Err, Err => true
  | _, _ => false
  end.

Definition printed_on (s : stream) (o : output) : string :=
  String.concat EmptyString (map snd (filter (on_stream s) o)).


(** The command lines of a decryption and of an encryption, written out:
    the binary; the gpg home, when one is given and not empty; for a
    decryption the additional parameters and the file; for an encryption
    the fixed options and one [-r] with its key for each recipient, in
    order. *)
Definition decryption_argv (binary : string) (gpg_home : option string)
    (additional_parameter : option (list string)) (file : path) : list arg :=
  [Str binary; Str "--quiet"]
  ++ match gpg_home with
     | Some (String c h) => [Str "--homedir"; Str (String c h)]
     | _ => []
     end
  ++ match additional_parameter with
     | Some parameters => map Str parameters
     | None => []
     end
  ++ [Str "--decrypt"; Pth file].



(** The token that [list_packets] returns for a line: the word [keyid], a
    blank and sixteen hexadecimal digits. *)
Definition keyid_token (t : string) : Prop :=
  exists h, t = ("keyid " ++ h)%string /\ String.length h = 16
            /\ forall c, In c (list_ascii_of_string h) -> is_hex c = true.

(** The depth of the directory tree below a node: files count for nothing. *)
Fixpoint height (n : node) : nat :=
  match n with
  | File _ => 0
  | Dir es =>
      S ((fix heights (l : list (string * node)) : nat :=
            match l with
            | [] => 0
            | (_, c) :: l' => Nat.max (height c) (heights l')
            end) es)
  end.

Fixpoint heights (l : list (string * node)) : nat :=
  match l with
  | [] => 0
  | (_, c) :: l' => Nat.max (height c) (heights l')
  end.

Definition height_at (fs : node) (p : path) : nat :=
  match lookup fs p with
  | Some n => height n
  | None => 0
  end.

(** What [os.walk] yields after its first triple. *)
Definition walk_below (root : path) (es : list (string * node))
  : list (path * list string * list string) :=
  flat_map (fun e => walk_node (path_join root (fst e)) (snd e)) es.

(** The name ends with the extension of a ciphertext: [file[-4:] == '.gpg']. *)
Definition is_gpg_name (file : string) : bool :=
  String.eqb (slice_last 4 file) ".gpg".


(** An event of a process, or a write to the file [p]. *)
Definition spawn_or_write (p : option path) (e : event) : Prop :=
  match e with
  | EvSpawn _ _ _ => True
  | EvWrite q _ => p = Some q
  | EvCall _ _ _ _ => False
  end.

(** An event of a call of [recursive_reencrypt] on [root] with the keys and
    nothing else: calls on [root] and below it, writes below [root]. *)
Definition event_under (root : path) (keys : list string) (e : event) : Prop :=
  match e with
  | EvSpawn _ _ _ => True
  | EvWrite q _ => exists s, s <> [] /\ q = root ++ s
  | EvCall q k h x => (exists s, q = root ++ s) /\ k = keys /\ h = None /\ x = None
  end.

(** An event of the calls on the directories below [root]: everything it
    touches lies inside a sub-directory of [root]. *)
Definition event_below (root : path) (keys : list string) (e : event) : Prop :=
  match e with
  | EvSpawn _ _ _ => True
  | EvWrite q _ => exists name s, s <> [] /\ q = root ++ name :: s
  | EvCall q k h x =>
      (exists name s, q = root ++ name :: s) /\ k = keys /\ h = None /\ x = None
  end.

(** The folders on which [recursive_reencrypt] was called, in order. *)
Definition calls_of (tr : list event) : list path :=
  flat_map (fun e => match e with EvCall p _ _ _ => [p] | _ => [] end) tr.

(** ** Stores for the test double *)

(** The store of the scenario of the specification, with one more level:
    [R] holds [a.gpg] and [b.gpg], a directory [S] without recipient file
    and a directory [T] with its own recipient file; inside [T] there is a
    directory [U] without recipient file. *)
Definition boundary_store : node :=
  Dir [("R", Dir [("a.gpg", File "me|alpha");
                  ("b.gpg", File "me|beta");
                  ("notes.txt", File "plain");
                  ("S", Dir [("c.gpg", File "me|gamma")]);
                  ("T", Dir [(".gpg-id", File (line "K2"));
                             ("d.gpg", File "K2,me|delta");
                             ("U", Dir [("e.gpg", File "K2,me|epsilon")])])])].

(** A store with a directory two levels below the root, and no recipient
    file anywhere. *)
Definition nested_store : node :=
  Dir [("R", Dir [("S", Dir [("V", Dir [("x.gpg", File "me|xi")])])])].


(** A file encrypted to two keys. *)
Definition packet_store : node :=
  Dir [("f.gpg", File "0123456789ABCDEF,FEDCBA9876543210|text")].

(** The file system after the writes of a trace. *)
Fixpoint apply_writes (fs : node) (T : list event) : node :=
  match T with
  | [] => fs
  | EvWrite q data :: T' =>
      match write_file fs q data with
      | inl fs' => apply_writes fs' T'
      | inr _ => apply_writes fs T'
      end
  | _ :: T' => apply_writes fs T'
  end.

(** A directory tree without the content of its files. *)
Fixpoint skeleton (n : node) : node :=
  match n with
  | File _ => File EmptyString
  | Dir es =>
      Dir ((fix each (l : list (string * node)) : list (string * node) :=
              match l with
              | [] => []
              | (k, c) :: l' => (k, skeleton c) :: each l'
              end) es)
  end.

(** A key token occurs in the line. *)
Definition has_keyid (line : string) : Prop :=
  exists a t b, line = (a ++ t ++ b)%string /\ keyid_token t.

(** [s] holds no carriage return. *)
Fixpoint cr_free (s : string) : bool :=
  match s with
  | EmptyString => true
  | String c s' => negb (Ascii.eqb c cr) && cr_free s'
  end.

(** [s] holds none of the line terminators of a text file. *)
Definition no_line_terminator (s : string) : bool := nl_free s && cr_free s.

(** The text that [write_gpg_id_file] writes. *)
Definition gpg_id_text (ids : list string) : string :=
  sconcat (map (fun key_id => (key_id ++ String nl EmptyString)%string) ids).

(** The error kinds of the specification (its section 7). *)
Inductive error_kind :=
| FileNotFound | NotAFile | InvalidCiphertext | NoSecretKey | NoPublicKey
| NoRecipients | TextDecodeFailure | UnknownBackendError (diagnostic : string)
| OtherError.

(** The kind that an exception of the module stands for. *)
Definition kind_of (e : exn) : error_kind :=
  match e with
  | FileNotFoundError _ => FileNotFound
  | ValueError msg =>
      if String.eqb msg "file is a directory" then NotAFile
      else if String.eqb msg "no valid openpgp data found" then InvalidCiphertext
      else if String.eqb msg "no secret key" then NoSecretKey
      else if String.eqb msg "no public key" then NoPublicKey
      else if String.eqb msg "no recipients" then NoRecipients
      else OtherError
  | UnicodeDecodeError => TextDecodeFailure
  | UnknownGpgError stderr => UnknownBackendError stderr
  | _ => OtherError
  end.

(** The priority list of section 4.3 of the specification, in its words:
    substring matches over the diagnostic stream, first match wins. *)
Definition spec_diagnostic_kind (stderr : string) : error_kind :=
  if contains2 "can't open" "No such file or directory" stderr then FileNotFound
  else if contains "can't open" stderr then FileNotFound
  else if contains "read error: Is a directory" stderr then NotAFile
  else if contains "no valid OpenPGP data found" stderr then InvalidCiphertext
  else if contains "decryption failed: No secret key" stderr then NoSecretKey
  else UnknownBackendError stderr.

Section Vocabulary.

Context {BK : Backend}.

(** The command lines the module builds. *)
Definition decrypt_command (binary : string) (gpg_home : option string)
    (additional_parameter : option (list string)) (path_to_file : path) : list arg :=
  let extra := match additional_parameter with None => [] | Some l => l end in
  match truthy gpg_home with
  | Some home =>
      [Str binary; Str "--quiet"; Str "--homedir"; Str home] ++ map Str extra
      ++ [Str "--decrypt"; Pth path_to_file]
  | None =>
      [Str binary; Str "--quiet"] ++ map Str extra ++ [Str "--decrypt"; Pth path_to_file]
  end.

Definition encrypt_command (binary : string) (gpg_home : option string)
    (list_of_recipients : list string) : list arg :=
  match truthy gpg_home with
  | Some home =>
      [Str binary; Str "--quiet"; Str "--homedir"; Str home; Str "--encrypt";
       Str "--auto-key-locate"; Str "local"; Str "--trust-model"; Str "always"]
      ++ cli_recipients list_of_recipients
  | None =>
      [Str binary; Str "--encrypt"; Str "--auto-key-locate"; Str "local";
       Str "--trust-model"; Str "always"] ++ cli_recipients list_of_recipients
  end.

Definition list_packets_command (binary : string) (path_to_file : path) : list arg :=
  [Str binary; Str "--pinentry-mode"; Str "cancel"; Str "--list-packets";
   Pth path_to_file].

(** The world after a process was started and has finished. *)
Definition spawned (w : world) (argv : list arg) (input : option string)
    (res : option output) (st : bstate) : world :=
  {| fs := fs w; gpg_state := st; binary_cache := binary_cache w;
     trace := trace w ++ [EvSpawn argv input res] |}.

(** The world after a file was written. *)
Definition written (w : world) (fs' : node) (p : path) (data : string) : world :=
  {| fs := fs'; gpg_state := gpg_state w; binary_cache := binary_cache w;
     trace := trace w ++ [EvWrite p data] |}.

(** [n] calls of [get_binary], one after the other. *)
Fixpoint get_binary_times (n : nat) : M unit :=
  match n with
  | O => ret tt
  | S n' => bind get_binary (fun _ => get_binary_times n')
  end.

(** What one call of [get_binary] can do to the world. *)
Inductive resolution (w : world) : result string -> world -> Prop :=
| res_cached b :
    binary_cache w = Some b -> resolution w (Ret b) w
| res_fresh r w' V :
    binary_cache w = None ->
    fs w' = fs w ->
    trace w' = trace w ++ V ->
    Forall (fun e => is_version_query e = true) V ->
    (count_spawns gpg_version V <= 1)%nat ->
    (count_spawns gpg2_version V <= 1)%nat ->
    (forall b, r = Ret b -> binary_cache w' = Some b) ->
    ((forall b, r <> Ret b) -> binary_cache w' = None) ->
    r <> OutOfFuel ->
    resolution w r w'.

(** What [encrypt] does once its two checks have passed and the binary is
    known. *)
Definition encrypt_outcome (text : string) (rcpts : list string) (dest : option path)
    (home : option string) (b : string) (w1 : world) : result (option string) * world :=
  let argv := encrypt_command b home rcpts in
  let '(res, st) := spawn argv (Some text) (fs w1) (gpg_state w1) in
  let w2 := spawned w1 argv (Some text) res st in
  match res with
  | None => (Raise (FileNotFoundError None), w2)
  | Some o =>
      let stdout := merged_of o in
      if re_match re_no_such_file stdout then (Raise (FileNotFoundError None), w2)
      else if re_match re_no_public_key stdout then (Raise (ValueError "no public key"), w2)
      else match dest with
           | Some p =>
               match write_file (fs w2) p stdout with
               | inl fs' => (Ret None, written w2 fs' p stdout)
               | inr e => (Raise (exn_of_os_error e), w2)
               end
           | None => (Ret (Some stdout), w2)
           end
  end.

(** What [decrypt] makes of the two streams of the process. *)
Definition decrypt_result (stdout stderr : string) (utf8 : bool) : result string :=
  if negb (is_empty stdout) then
    if utf8 then (if utf8_valid stdout then Ret stdout else Raise UnicodeDecodeError)
    else Ret stdout
  else if re_match re_no_secret_key stderr then Raise (ValueError "no secret key")
  else if re_match re_cant_open_no_such_file stderr then Raise (FileNotFoundError None)
  else if re_match re_is_a_directory stderr then Raise (ValueError "file is a directory")
  else if re_match re_no_valid_data stderr then
    Raise (ValueError "no valid openpgp data found")
  else Raise (UnknownGpgError stderr).

(** What [decrypt] does once the binary is known. *)
Definition decrypt_outcome (path_to_file : path) (home : option string)
    (extra : option (list string)) (utf8 : bool) (b : string) (w1 : world)
  : result string * world :=
  let argv := decrypt_command b home extra path_to_file in
  let '(res, st) := spawn argv None (fs w1) (gpg_state w1) in
  let w2 := spawned w1 argv None res st in
  match res with
  | None => (Raise (FileNotFoundError None), w2)
  | Some o => (decrypt_result (stdout_of o) (stderr_of o) utf8, w2)
  end.

(** What [list_packets] makes of the two streams of the process. *)
Definition list_packets_result (stdout stderr : string) : result (list string) :=
  if re_match re_cant_open stderr then Raise (FileNotFoundError (Some "can't open file"))
  else if re_match re_is_a_directory stderr then Raise (ValueError "file is a directory")
  else if re_match re_no_valid_data stderr then
    Raise (ValueError "no valid openpgp data found")
  else Ret (flat_map keyids_of_line (split_nl stdout)).

(** How the world can change while the module runs: events are only added,
    the directory tree keeps its depth everywhere, and a binary that was
    found stays. *)
Definition evolves (w w' : world) : Prop :=
  (exists T, trace w' = trace w ++ T)
  /\ (forall q, height_at (fs w') q = height_at (fs w) q)
  /\ (forall b, binary_cache w = Some b -> binary_cache w' = Some b).

Definition safe {A} (c : M A) : Prop := forall w, evolves w (snd (c w)).

(** The body of the loop of [recursive_reencrypt] for one file of the
    folder. *)
Definition reencrypt_file (root : path) (list_of_keys : list string)
    (gpg_home : option string) (additional_parameter : option (list string))
    (file : string) : M unit :=
  if String.eqb (slice_last 4 file) ".gpg" then
    let file_path := path_join root file in
    bind (decrypt file_path gpg_home additional_parameter true) (fun cleartext =>
    bind (encrypt cleartext list_of_keys (Some file_path) gpg_home) (fun _ =>
    ret tt))
  else ret tt.

(** The body of the loop for a directory below the folder. *)
Definition reencrypt_subfolder (fuel : nat) (list_of_keys : list string)
    (item : path * list string * list string) : M unit :=
  let '(root, _, _) := item in
  bind get_fs (fun cur' =>
  if negb (path_exists cur' (path_join root ".gpg-id")) then
    recursive_reencrypt fuel root list_of_keys None None
  else ret tt).


(** The computation never stops for lack of fuel. *)
Definition total {A} (c : M A) : Prop := forall w, fst (c w) <> OutOfFuel.

(** Every event that the computation adds satisfies [P]. *)
Definition emits {A} (P : event -> Prop) (c : M A) : Prop :=
  forall w, exists T, trace (snd (c w)) = trace w ++ T /\ Forall P T.

(** The algorithm of section 4.10 of the specification, in its words: the
    cipher files directly in the root are encrypted again; each direct
    sub-directory without a recipient file is entered as a new root, with
    the same recipients and without the home override and the extra
    arguments; a sub-directory with a recipient file is left alone, with
    everything beneath it. *)
Fixpoint spec_reencrypt_tree (fuel : nat) (rootPath : path)
    (newRecipients : list string) (homeOverride : option string)
    (extraArguments : option (list string)) : M unit :=
  match fuel with
  | O => out_of_fuel
  | S fuel' =>
      bind (log (EvCall rootPath newRecipients homeOverride extraArguments)) (fun _ =>
      bind get_fs (fun cur =>
      match lookup cur rootPath with
      | Some (Dir es) =>
          bind (for_each (file_names es)
                  (reencrypt_file rootPath newRecipients homeOverride extraArguments))
               (fun _ =>
          for_each (dir_names es) (fun name =>
            let sub := path_join rootPath name in
            bind get_fs (fun cur' =>
            if negb (path_exists cur' (path_join sub ".gpg-id")) then
              spec_reencrypt_tree fuel' sub newRecipients None None
            else ret tt)))
      | _ => ret tt
      end))
  end.

(** The file system changes by the writes of the trace and by nothing
    else. *)
Definition replays {A} (c : M A) : Prop :=
  forall w, exists T, trace (snd (c w)) = trace w ++ T
                      /\ fs (snd (c w)) = apply_writes (fs w) T.

(** The computation leaves the names and the kinds of all entries as they
    are: only the content of files changes. *)
Definition keeps_listings {A} (c : M A) : Prop :=
  forall w, skeleton (fs (snd (c w))) = skeleton (fs w).

End Vocabulary.

(* ================================================================== *)
(** * The other functions of the module *)

(** ** The pattern of [list_available_keys]

    The pattern of the source, item by item: ^ uid \s+ \[ .+ \] \s ( .* ) $.
    It needs more than the fragment above: classes under [+] and [*], a
    single character of a class and the end of the subject.  [xmatch] is the same backtracking matcher for these items;
    [^] needs no item, since [re.match] starts at the beginning. *)

Inductive xitem :=
| XLit (l : string)                 (* literal text *)
| XStar (f : ascii -> bool)         (* a class under the greedy [*] *)
| XPlus (f : ascii -> bool)         (* a class under the greedy [+] *)
| XOne (f : ascii -> bool)          (* one character of a class *)
| XOpen                             (* [(] *)
| XClose                            (* [)] *)
| XEnd.                             (* [$] *)

(** [$] without [re.MULTILINE]: the end of the subject, or the position
    before a line feed that ends it. *)
Definition at_end (s : string) : bool :=
  match s with
  | EmptyString => true
  | String c EmptyString => is_nl c
  | _ => false
  end.

Fixpoint xmatch (p : list xitem) (s : string) : option (list string) :=
  match p with
  | [] => Some []
  | XLit l :: p' =>
      match strip_prefix l s with
      | Some s' => option_map (cons l) (xmatch p' s')
      | None => None
      end
  | XOne f :: p' =>
      match s with
      | String c s' =>
          if f c then option_map (cons (String c EmptyString)) (xmatch p' s') else None
      | EmptyString => None
      end
  | XOpen :: p' => option_map (cons EmptyString) (xmatch p' s)
  | XClose :: p' => option_map (cons EmptyString) (xmatch p' s)
  | XEnd :: p' =>
      if at_end s then option_map (cons EmptyString) (xmatch p' s) else None
  | XStar f :: p' =>
      (fix star (s : string) : option (list string) :=
         let stop := option_map (cons EmptyString) (xmatch p' s) in
         match s with
         | EmptyString => stop
         | String c s' =>
             if f c then
               match star s' with
               | Some (t :: ts) => Some (String c t :: ts)
               | _ => stop
               end
             else stop
         end) s
  | XPlus f :: p' =>
      match s with
      | EmptyString => None
      | String c0 s0 =>
          if f c0 then
            match
              (fix star (s : string) : option (list string) :=
                 let stop := option_map (cons EmptyString) (xmatch p' s) in
                 match s with
                 | EmptyString => stop
                 | String c s' =>
                     if f c then
                       match star s' with
                       | Some (t :: ts) => Some (String c t :: ts)
                       | _ => stop
                       end
                     else stop
                 end) s0
            with
            | Some (t :: ts) => Some (String c0 t :: ts)
            | _ => None
            end
          else None
      end
  end.

(** [regex.match(s)] as a truth value. *)
Definition x_match (p : list xitem) (s : string) : bool :=
  match xmatch p s with Some _ => true | None => false end.

Fixpoint xgroup1 (p : list xitem) (parts : list string) (acc : option string)
  : option string :=
  match p, parts with
  | XOpen :: p', _ :: ts => xgroup1 p' ts (Some EmptyString)
  | XClose :: _, _ => acc
  | _ :: p', t :: ts => xgroup1 p' ts (option_map (fun a => (a ++ t)%string) acc)
  | _, _ => None
  end.

(** [regex.search(s).groups()[0]] where [regex.match(s)] has succeeded: the
    pattern is anchored, the search can only succeed at position 0. *)
Definition x_group (p : list xitem) (s : string) : option string :=
  match xmatch p s with
  | Some parts => xgroup1 p parts None
  | None => None
  end.

(** [\s] in a pattern of bytes: blank, tab, line feed, vertical tab, form
    feed, carriage return. *)
Definition is_space (c : ascii) : bool :=
  let n := nat_of_ascii c in
  (Nat.eqb n 32 || in_range 9 13 n).

(** [.] *)
Definition not_nl (c : ascii) : bool := negb (is_nl c).

(* ^ uid \s+ \[ .+ \] \s ( .* ) $ *)
Definition re_uid : list xitem :=
  [XLit "uid"; XPlus is_space; XLit "["; XPlus not_nl; XLit "]"; XOne is_space;
   XOpen; XStar not_nl; XClose; XEnd].

Section Further.

Context {BK : Backend}.

(** ** [list_available_keys] *)

(** The loop appends [match.decode('utf-8')] for each line that matches;
    a name that is not UTF-8 ends the call with [UnicodeDecodeError]. *)
Fixpoint uid_names (lines : list string) : M (list string) :=
  match lines with
  | [] => ret []
  | line :: rest =>
      if x_match re_uid line then
        match x_group re_uid line with
        | Some g =>
            bind (decode_utf8 g) (fun name =>
            bind (uid_names rest) (fun names => ret (name :: names)))
        | None => uid_names rest
        end
      else uid_names rest
  end.

Definition list_available_keys (additional_parameter : option (list string))
    (get_secret_keys : bool) : M (list string) :=
  let additional_parameter :=
    match additional_parameter with None => [] | Some l => l end in
  let command := if negb get_secret_keys then "--list-keys" else "--list-secret-keys" in
  bind get_binary (fun binary =>
  bind (popen ([Str binary; Str command] ++ map Str additional_parameter) None)
       (fun o =>
  uid_names (split_nl (stdout_of o)))).

(** ** [import_gpg_keys] *)

(** [listdir]: the names of all entries, directories included. *)
Definition listdir (es : list (string * node)) : list string := map fst es.

Definition import_gpg_keys (root_path : path) : M unit :=
  let key_directory := path_join root_path ".available-keys" in
  bind get_fs (fun cur =>
  match lookup cur key_directory with
  | Some (Dir es) =>                                   (* path.isdir *)
      let key_files := map (path_join key_directory) (listdir es) in
      match key_files with
      | _ :: _ =>
          bind get_binary (fun binary =>
          bind (popen ([Str binary; Str "--import"] ++ map Pth key_files) None)
               (fun _ => ret tt))
      | [] => ret tt
      end
  | _ => ret tt
  end).

(** ** The recipient list of [ui_recipients.py]

    The list widget is the sequence of its items; of an item, the text, the
    check state and whether it is enabled matter here. *)

Record recipient := {
  item_text : string;
  item_checked : bool;       (* [Qt.Checked] or [Qt.Unchecked] *)
  item_enabled : bool        (* [Qt.ItemIsEnabled] among the flags *)
}.

(** [Recipient(name, ischecked, enabled)] *)
Definition Recipient (name : string) (ischecked enabled : bool) : recipient :=
  {| item_text := name; item_checked := ischecked; item_enabled := enabled |}.

(** [key in list] *)
Definition mem (key : string) (l : list string) : bool :=
  existsb (String.eqb key) l.

(** [RecipientList.refresh_recipients]: the widget before, the recipients
    to check; the result and the widget after. *)
Definition refresh_recipients (widget : list recipient)
    (list_of_recipients : list string) (w : world)
  : result unit * list recipient * world :=
  let widget := @nil recipient in                              (* self.clear() *)
  match list_available_keys None false w with
  | (Ret keys_available, w') =>
      let widget :=
        widget ++ map (fun key =>
                         if mem key list_of_recipients
                         then Recipient key true true
                         else Recipient key false true) keys_available in
      let widget :=
        widget ++ flat_map (fun key =>
                              if negb (mem key keys_available)
                              then [Recipient key true false]
                              else []) list_of_recipients in
      (Ret tt, widget, w')
  | (Raise e, w') => (Raise e, widget, w')
  | (Exit n, w') => (Exit n, widget, w')
  | (OutOfFuel, w') => (OutOfFuel, widget, w')
  end.

(** [RecipientList.get_checked_item_names] *)
Definition get_checked_item_names (widget : list recipient) : list string :=
  map item_text (filter item_checked widget).

End Further.

(** ** Vocabulary of the further properties *)

(** An event that lies strictly inside the folder [root]: a process, a
    write to a file below [root], or a call on a directory below [root]
    (not on [root] itself) with the keys and nothing else. *)
Definition event_inside (root : path) (keys : list string) (e : event) : Prop :=
  match e with
  | EvSpawn _ _ _ => True
  | EvWrite q _ => exists s, s <> [] /\ q = root ++ s
  | EvCall q k h x =>
      (exists s, s <> [] /\ q = root ++ s) /\ k = keys /\ h = None /\ x = None
  end.

(** A write is one to a file below [root] whose name ends in [.gpg]. *)
Definition gpg_write_under (root : path) (e : event) : Prop :=
  match e with
  | EvWrite q _ => exists s f, q = root ++ s ++ [f] /\ is_gpg_name f = true
  | _ => True
  end.

(** A write is one to a file directly in a directory that is [root] or owns
    no [.gpg-id] in the file system [fs0]. *)
Definition guarded_write (fs0 : node) (root : path) (e : event) : Prop :=
  match e with
  | EvWrite q _ =>
      exists r g, q = path_join r g
                  /\ (r = root \/ path_exists fs0 (path_join r ".gpg-id") = false)
  | _ => True
  end.

(** The output of a version query names the major version [d]. *)
Definition reports_major (d : string) (stdout : string) : Prop :=
  utf8_valid stdout = true
  /\ exists rest, stdout = ("gpg (GnuPG) " ++ d ++ "." ++ rest)%string.

(** The text that a file with CR LF line ends holds for the identifiers. *)
Definition gpg_id_text_crlf (ids : list string) : string :=
  sconcat (map (fun key_id => (key_id ++ String cr (String nl EmptyString))%string) ids).


(** [s] with a line feed added when it is not empty and does not end with
    one. *)
Fixpoint with_final_nl (s : string) : string :=
  match s with
  | EmptyString => EmptyString
  | String c s' =>
      String c match s' with
               | EmptyString => if is_nl c then EmptyString else String nl EmptyString
               | String _ _ => with_final_nl s'
               end
  end.

(** Every character of [s] satisfies [f]. *)
Fixpoint all_of (f : ascii -> bool) (s : string) : bool :=
  match s with
  | EmptyString => true
  | String c s' => f c && all_of f s'
  end.

(** The name that [list_available_keys] takes from a line, if any. *)
Definition uid_of_line (line : string) : list string :=
  if x_match re_uid line then
    match x_group re_uid line with
    | Some g => [g]
    | None => []
    end
  else [].

(** The names of the lines of an output. *)
Definition uids (stdout : string) : list string :=
  flat_map uid_of_line (split_nl stdout).

(** The name holds a closing bracket followed by white space. *)
Definition has_bracket_space (name : string) : Prop :=
  exists a s r, name = (a ++ "]" ++ String s r)%string /\ is_space s = true.

(** The command line of [list_available_keys]. *)
Definition list_keys_command (binary : string)
    (additional_parameter : option (list string)) (get_secret_keys : bool)
  : list arg :=
  [Str binary; Str (if negb get_secret_keys then "--list-keys" else "--list-secret-keys")]
  ++ map Str (match additional_parameter with None => [] | Some l => l end).

(** The name holds a closing bracket followed by white space, as a test. *)
Fixpoint bracket_space (s : string) : bool :=
  match s with
  | EmptyString => false
  | String c s' =>
      match s' with
      | EmptyString => false
      | String d _ => (Ascii.eqb c "]"%char && is_space d) || bracket_space s'
      end
  end.

(** ** More test doubles and stores *)

(** Only version 1 is installed, under both names. *)
Definition old_spawn (argv : list arg) (input : option string) (fs : node) (st : unit)
  : option output * unit :=
  (if has_flag "--version" argv then Some [(Out, line "gpg (GnuPG) 1.4.23")]
   else Some [], st).

Definition old_backend : Backend := {| bstate := unit; spawn := old_spawn |}.

Definition old_world (store : node) : @world old_backend :=
  @Build_world old_backend store tt None [].

(** Every program starts and prints nothing. *)
Definition mute_spawn (argv : list arg) (input : option string) (fs : node) (st : unit)
  : option output * unit := (Some [], st).

Definition mute_backend : Backend := {| bstate := unit; spawn := mute_spawn |}.

Definition mute_world (store : node) : @world mute_backend :=
  @Build_world mute_backend store tt None [].

(** A folder whose second file is encrypted to another key only. *)
Definition failing_store : node :=
  Dir [("R", Dir [("a.gpg", File "me|alpha");
                  ("b.gpg", File "K2|beta");
                  ("c.gpg", File "me|gamma")])].

(** A recipient file with CR LF line ends, and one whose last line has no
    line end. *)
Definition crlf_store : node :=
  Dir [(".gpg-id", File (gpg_id_text_crlf ["K1"; "K2"]));
       ("sub", Dir [(".gpg-id", File ("K1" ++ String cr (String nl "K2")))])].

(** A store with key files to import, a directory among them. *)
Definition keys_store : node :=
  Dir [(".available-keys", Dir [("alice.asc", File "key of alice");
                                ("old", Dir [("carol.asc", File "key of carol")]);
                                ("bob.asc", File "key of bob")])].

(** A listing of two keys with a diagnostic line; the user id of the second
    key holds a bracket. *)
Definition key_listing : output :=
  [(Err, line "gpg: checking the trustdb");
   (Out, line "pub   rsa4096 2020-01-01 [SC]");
   (Out, line "uid           [ultimate] Alice <alice@example.org>");
   (Out, line "sub   rsa4096 2020-01-01 [E]");
   (Out, line "pub   rsa4096 2021-01-01 [SC]");
   (Out, line "uid           [ unknown] Bob [work] <bob@example.org>")].

(* ================================================================== *)
(** * Properties *)

Ltac break_match :=
  match goal with
  | |- context [match ?x with _ => _ end] =>
      lazymatch x with
      | context [match _ with _ => _ end] => fail
      | _ => destruct x eqn:?
      end
  end.

Ltac break_match_hyp :=
  match goal with
  | H : context [match ?x with _ => _ end] |- _ =>
      lazymatch x with
      | context [match _ with _ => _ end] => fail
      | _ => destruct x eqn:?
      end
  end.

(** ** Byte strings *)

Lemma sapp_assoc (a b c : string) : ((a ++ b) ++ c = a ++ (b ++ c))%string.
Proof. induction a as [|x a IH]; simpl; [reflexivity | now rewrite IH]. Qed.

Lemma sapp_nil_r (a : string) : (a ++ EmptyString)%string = a.
Proof. induction a as [|x a IH]; simpl; [reflexivity | now rewrite IH]. Qed.

Lemma slength_app (a b : string) :
  String.length (a ++ b) = String.length a + String.length b.
Proof. induction a as [|x a IH]; simpl; [reflexivity | now rewrite IH]. Qed.

Lemma nl_free_app (a b : string) :
  nl_free (a ++ b) = nl_free a && nl_free b.
Proof.
  induction a as [|x a IH]; simpl; [reflexivity|].
  rewrite IH. now rewrite andb_assoc.
Qed.

Lemma strip_prefix_app (l r : string) : strip_prefix l (l ++ r) = Some r.
Proof.
  induction l as [|x l IH]; simpl; [reflexivity|].
  now rewrite Ascii.eqb_refl.
Qed.

Lemma strip_prefix_some (l s r : string) :
  strip_prefix l s = Some r -> s = (l ++ r)%string.
Proof.
  revert s. induction l as [|x l IH]; simpl; intros s H.
  - now inversion H.
  - destruct s as [|y s]; [discriminate|].
    destruct (Ascii.eqb x y) eqn:E; [|discriminate].
    apply Ascii.eqb_eq in E. subst y. now rewrite (IH _ H).
Qed.

Lemma take_class_some f n s t r :
  take_class f n s = Some (t, r) ->
  s = (t ++ r)%string /\ String.length t = n
  /\ forall c, In c (list_ascii_of_string t) -> f c = true.
Proof.
  revert s t r. induction n as [|n IH]; simpl; intros s t r H.
  - inversion H; subst. simpl. repeat split. intros c [].
  - destruct s as [|c s]; [discriminate|].
    destruct (f c) eqn:Hc; [|discriminate].
    destruct (take_class f n s) as [[t' r']|] eqn:E; [|discriminate].
    inversion H; subst. destruct (IH _ _ _ E) as (-> & Hl & Hall).
    simpl. repeat split; [now rewrite Hl|].
    intros x [<-|Hx]; [assumption | now apply Hall].
Qed.

Lemma take_class_app f t r :
  (forall c, In c (list_ascii_of_string t) -> f c = true) ->
  take_class f (String.length t) (t ++ r) = Some (t, r).
Proof.
  induction t as [|c t IH]; simpl; intros H; [reflexivity|].
  rewrite (H c (or_introl eq_refl)), IH; [reflexivity|].
  intros x Hx. apply H. now right.
Qed.

(** ** The extension of a name *)

Lemma substring_0_all (s : string) :
  forall m, (String.length s <= m)%nat -> substring 0 m s = s.
Proof.
  induction s as [|c s IH]; intros m H; destruct m; simpl in *; try reflexivity; try lia.
  rewrite IH; [reflexivity | lia].
Qed.

Lemma substring_skip (pre t : string) (m : nat) :
  substring (String.length pre) m (pre ++ t) = substring 0 m t.
Proof. induction pre as [|c pre IH]; simpl; [reflexivity | exact IH]. Qed.

Lemma substring_split (s : string) :
  forall n, (n <= String.length s)%nat ->
            exists pre, s = (pre ++ substring n (String.length s - n) s)%string.
Proof.
  induction s as [|c s IH]; intros n H.
  - exists EmptyString. destruct n; reflexivity.
  - destruct n as [|n].
    + exists EmptyString. simpl. rewrite substring_0_all; [reflexivity | lia].
    + simpl in H. destruct (IH n ltac:(lia)) as (pre & Hpre).
      exists (String c pre). simpl. now rewrite <- Hpre.
Qed.

(** [file[-4:] == '.gpg'] holds for the names that end in [.gpg]. *)
Lemma is_gpg_name_iff (file : string) :
  is_gpg_name file = true <-> exists stem, file = (stem ++ ".gpg")%string.
Proof.
  unfold is_gpg_name, slice_last. rewrite String.eqb_eq. split.
  - intros H.
    destruct (le_lt_dec 4 (String.length file)) as [Hl|Hl].
    + destruct (substring_split file (String.length file - 4) ltac:(lia))
        as (pre & Hpre).
      replace (String.length file - (String.length file - 4)) with 4 in Hpre by lia.
      rewrite H in Hpre. now exists pre.
    + replace (String.length file - 4) with 0 in H by lia.
      rewrite substring_0_all in H by lia. exists EmptyString. now rewrite H.
  - intros (stem & ->). rewrite slength_app. simpl String.length.
    replace (String.length stem + 4 - 4) with (String.length stem) by lia.
    now rewrite substring_skip.
Qed.

(** ** The matcher *)

Lemma rmatch_star_eq (p : regex) (s : string) :
  rmatch (DotStar :: p) s =
  let stop := option_map (cons EmptyString) (rmatch p s) in
  match s with
  | EmptyString => stop
  | String c s' =>
      if is_nl c then stop
      else match rmatch (DotStar :: p) s' with
           | Some (t :: ts) => Some (String c t :: ts)
           | _ => stop
           end
  end.
Proof. destruct s; reflexivity. Qed.

Lemma rmatch_star_sound (p : regex) (s : string) (parts : list string) :
  rmatch (DotStar :: p) s = Some parts ->
  exists a rest ps,
    parts = a :: ps /\ s = (a ++ rest)%string /\ nl_free a = true
    /\ rmatch p rest = Some ps.
Proof.
  revert parts. induction s as [|c s IH]; intros parts H; rewrite rmatch_star_eq in H;
    cbv zeta in H.
  - destruct (rmatch p EmptyString) as [ps|] eqn:E; [|discriminate].
    inversion H; subst. exists EmptyString, EmptyString, ps. now repeat split.
  - assert (Hstop : option_map (cons EmptyString) (rmatch p (String c s)) = Some parts ->
                    exists a rest ps, parts = a :: ps /\ String c s = (a ++ rest)%string
                                      /\ nl_free a = true /\ rmatch p rest = Some ps).
    { intros H'. destruct (rmatch p (String c s)) as [ps|] eqn:E; [|discriminate].
      inversion H'; subst. exists EmptyString, (String c s), ps. now repeat split. }
    destruct (is_nl c) eqn:Hc; [now apply Hstop|].
    destruct (rmatch (DotStar :: p) s) as [[|t ts]|] eqn:E; try now apply Hstop.
    inversion H; subst.
    destruct (IH _ eq_refl) as (a & rest & ps & Hp & Hs & Ha & Hr).
    inversion Hp; subst.
    exists (String c a), rest, ps. repeat split; try assumption.
    simpl. now rewrite Hc, Ha.
Qed.

Lemma rmatch_star_complete (p : regex) (a rest : string) :
  nl_free a = true -> rmatch p rest <> None ->
  rmatch (DotStar :: p) (a ++ rest) <> None.
Proof.
  intros Ha Hr. induction a as [|c a IH]; cbn [append].
  - rewrite rmatch_star_eq. cbv zeta.
    destruct (rmatch p rest) eqn:E; [|contradiction].
    destruct rest as [|c rest]; [simpl; discriminate|].
    destruct (is_nl c); [simpl; discriminate|].
    destruct (rmatch (DotStar :: p) rest) as [[|? ?]|]; simpl; discriminate.
  - simpl in Ha. apply andb_prop in Ha as [Hc Ha].
    rewrite rmatch_star_eq. cbv zeta.
    apply negb_true_iff in Hc. rewrite Hc.
    specialize (IH Ha).
    destruct (rmatch (DotStar :: p) (a ++ rest)) as [[|t ts]|] eqn:E.
    + apply rmatch_star_sound in E. destruct E as (? & ? & ? & ? & _). discriminate.
    + discriminate.
    + contradiction.
Qed.

Lemma re_match_nil (s : string) : re_match [] s = true.
Proof. reflexivity. Qed.

Lemma re_match_lit (l : string) (p : regex) (s : string) :
  re_match (Lit l :: p) s = true <->
  exists rest, s = (l ++ rest)%string /\ re_match p rest = true.
Proof.
  unfold re_match. simpl. split.
  - destruct (strip_prefix l s) as [r|] eqn:E; [|discriminate].
    intros H. exists r. split; [now apply strip_prefix_some|].
    destruct (rmatch p r); [reflexivity | discriminate].
  - intros (rest & -> & H). rewrite strip_prefix_app.
    destruct (rmatch p rest); [reflexivity | discriminate].
Qed.

Lemma re_match_star (p : regex) (s : string) :
  re_match (DotStar :: p) s = true <->
  exists a rest, s = (a ++ rest)%string /\ nl_free a = true /\ re_match p rest = true.
Proof.
  unfold re_match. split.
  - destruct (rmatch (DotStar :: p) s) as [parts|] eqn:E; [|discriminate].
    intros _. apply rmatch_star_sound in E.
    destruct E as (a & rest & ps & _ & Hs & Ha & Hr).
    exists a, rest. rewrite Hr. now repeat split.
  - intros (a & rest & -> & Ha & Hr).
    destruct (rmatch (DotStar :: p) (a ++ rest)) eqn:E; [reflexivity|].
    exfalso. revert E. apply rmatch_star_complete; [assumption|].
    destruct (rmatch p rest); [discriminate | discriminate].
Qed.

Lemma re_match_class (f : ascii -> bool) (n : nat) (p : regex) (s : string) :
  re_match (Class f n :: p) s = true <->
  exists t rest, s = (t ++ rest)%string /\ String.length t = n
    /\ (forall c, In c (list_ascii_of_string t) -> f c = true)
    /\ re_match p rest = true.
Proof.
  unfold re_match. simpl. split.
  - destruct (take_class f n s) as [[t r]|] eqn:E; [|discriminate].
    intros H. apply take_class_some in E. destruct E as (Hs & Hl & Hall).
    exists t, r. repeat split; try assumption.
    destruct (rmatch p r); [reflexivity | discriminate].
  - intros (t & rest & -> & <- & Hall & H).
    rewrite take_class_app by assumption.
    destruct (rmatch p rest); [reflexivity | discriminate].
Qed.

Lemma re_match_group (p : regex) (s : string) :
  (re_match (GOpen :: p) s = re_match p s)
  /\ (re_match (GClose :: p) s = re_match p s).
Proof. unfold re_match; simpl. destruct (rmatch p s); split; reflexivity. Qed.

(** A pattern [.*phrase.*] matches when the phrase is on the first line. *)
Lemma re_match_phrase (phrase s : string) :
  re_match [DotStar; Lit phrase; DotStar] s = true <-> on_first_line phrase s.
Proof.
  unfold on_first_line. rewrite re_match_star. split.
  - intros (a & rest & Hs & Ha & Hr). apply re_match_lit in Hr.
    destruct Hr as (b & -> & _). now exists a, b.
  - intros (a & b & Hs & Ha). exists a, (phrase ++ b)%string.
    repeat split; try assumption. apply re_match_lit. exists b. split; [reflexivity|].
    apply re_match_star. exists EmptyString, b. now repeat split.
Qed.

Lemma re_match_phrase2 (phrase1 phrase2 s : string) :
  re_match [DotStar; Lit phrase1; DotStar; Lit phrase2; DotStar] s = true
  <-> on_first_line2 phrase1 phrase2 s.
Proof.
  unfold on_first_line2. rewrite re_match_star. split.
  - intros (a & rest & Hs & Ha & Hr). apply re_match_lit in Hr.
    destruct Hr as (r1 & -> & Hr). apply re_match_star in Hr.
    destruct Hr as (m & r2 & -> & Hm & Hr). apply re_match_lit in Hr.
    destruct Hr as (b & -> & _). now exists a, m, b.
  - intros (a & m & b & Hs & Ha & Hm). exists a, (phrase1 ++ m ++ phrase2 ++ b)%string.
    repeat split; try assumption. apply re_match_lit. eexists. split; [reflexivity|].
    apply re_match_star. exists m, (phrase2 ++ b)%string. repeat split; try assumption.
    apply re_match_lit. exists b. split; [reflexivity|].
    apply re_match_star. exists EmptyString, b. now repeat split.
Qed.

(** ** Phrases anywhere in a text *)

Lemma on_first_line_occurs (phrase s : string) :
  on_first_line phrase s -> occurs phrase s.
Proof. intros (a & b & H & _). now exists a, b. Qed.

Lemma on_first_line2_occurs2 (phrase1 phrase2 s : string) :
  on_first_line2 phrase1 phrase2 s -> occurs2 phrase1 phrase2 s.
Proof. intros (a & m & b & H & _). now exists a, m, b. Qed.

Lemma contains_eq (phrase s : string) :
  contains phrase s
  = match strip_prefix phrase s with
    | Some _ => true
    | None =>
        match s with
        | EmptyString => false
        | String _ s' => contains phrase s'
        end
    end.
Proof. destruct s; reflexivity. Qed.

Lemma contains_prefix (phrase b : string) : contains phrase (phrase ++ b) = true.
Proof. now rewrite contains_eq, strip_prefix_app. Qed.

Lemma contains_skip (phrase : string) (c : ascii) (s : string) :
  contains phrase s = true -> contains phrase (String c s) = true.
Proof. intros H. cbn [contains]. destruct (strip_prefix phrase (String c s)); auto. Qed.

Lemma occurs_contains (phrase s : string) :
  occurs phrase s <-> contains phrase s = true.
Proof.
  split.
  - intros (a & b & ->). induction a as [|c a IH].
    + simpl append. apply contains_prefix.
    + simpl append. now apply contains_skip.
  - induction s as [|c s IH]; cbn [contains].
    + destruct (strip_prefix phrase EmptyString) as [r|] eqn:E; [|discriminate].
      intros _. apply strip_prefix_some in E. now exists EmptyString, r.
    + destruct (strip_prefix phrase (String c s)) as [r|] eqn:E.
      * intros _. apply strip_prefix_some in E. now exists EmptyString, r.
      * intros H. destruct (IH H) as (a & b & ->). now exists (String c a), b.
Qed.

Lemma contains2_occurs2 (phrase1 phrase2 s : string) :
  occurs2 phrase1 phrase2 s -> contains2 phrase1 phrase2 s = true.
Proof.
  intros (a & m & b & ->). induction a as [|c a IH].
  - simpl append.
    assert (E : strip_prefix phrase1 (phrase1 ++ m ++ phrase2 ++ b)
                = Some (m ++ phrase2 ++ b)%string) by apply strip_prefix_app.
    destruct (phrase1 ++ m ++ phrase2 ++ b)%string eqn:Es; cbn [contains2];
      rewrite E;
      (replace (contains phrase2 (m ++ phrase2 ++ b)) with true;
       [reflexivity | symmetry; apply occurs_contains; now exists m, b]).
  - simpl append. cbn [contains2]. rewrite IH. apply orb_true_r.
Qed.

Lemma not_occurs (phrase s : string) :
  contains phrase s = false -> ~ occurs phrase s.
Proof. intros E H. apply occurs_contains in H. congruence. Qed.

Lemma not_occurs2 (phrase1 phrase2 s : string) :
  contains2 phrase1 phrase2 s = false -> ~ occurs2 phrase1 phrase2 s.
Proof. intros E H. apply contains2_occurs2 in H. congruence. Qed.

(** ** What was printed, and the command lines *)

Lemma concat_empty_sconcat (l : list string) :
  String.concat EmptyString l = sconcat l.
Proof.
  induction l as [|x l IH]; [reflexivity|].
  cbn [String.concat sconcat]. destruct l as [|y l].
  - simpl. now rewrite sapp_nil_r.
  - rewrite IH. reflexivity.
Qed.


Lemma printed_on_out (o : output) : printed_on Out o = stdout_of o.
Proof.
  unfold printed_on, stdout_of. now rewrite concat_empty_sconcat.
Qed.

Lemma printed_on_err (o : output) : printed_on Err o = stderr_of o.
Proof.
  unfold printed_on, stderr_of. rewrite concat_empty_sconcat. do 2 f_equal.
  apply filter_ext. intros [[|] t]; reflexivity.
Qed.


(** ** The file system *)

Lemma find_update_same name c c' es :
  find_entry name es = Some c ->
  find_entry name (update_entry name c' es) = Some c'.
Proof.
  induction es as [|[k n] es IH]; simpl; [discriminate|].
  destruct (String.eqb k name) eqn:E; simpl; rewrite E; [reflexivity | exact IH].
Qed.

Lemma find_update_other name name' c' es :
  name' <> name ->
  find_entry name' (update_entry name c' es) = find_entry name' es.
Proof.
  intros Hne. induction es as [|[k n] es IH]; simpl; [reflexivity|].
  destruct (String.eqb k name) eqn:E; simpl.
  - apply String.eqb_eq in E. subst k.
    destruct (String.eqb name name') eqn:E'; [|reflexivity].
    apply String.eqb_eq in E'. congruence.
  - now rewrite IH.
Qed.

Lemma find_app_new name n es :
  find_entry name es = None ->
  find_entry name (es ++ [(name, n)]) = Some n.
Proof.
  induction es as [|[k c] es IH]; simpl.
  - now rewrite String.eqb_refl.
  - destruct (String.eqb k name); [discriminate | exact IH].
Qed.

Lemma write_file_lookup fs p data fs' :
  write_file fs p data = inl fs' -> lookup fs' p = Some (File data).
Proof.
  revert fs fs'. induction p as [|name p IH]; intros fs fs' H; simpl in H.
  - destruct fs; inversion H; reflexivity.
  - destruct fs as [|es]; [discriminate|].
    destruct (find_entry name es) as [c|] eqn:E.
    + destruct (write_file c p data) as [c'|] eqn:W; inversion H; subst.
      simpl. erewrite find_update_same by eassumption. now apply IH with (fs := c).
    + destruct p; inversion H; subst. simpl.
      erewrite find_app_new by eassumption. reflexivity.
Qed.

(** What was written is what is read back. *)
Lemma write_file_read_file fs p data fs' :
  write_file fs p data = inl fs' -> read_file fs' p = inl data.
Proof.
  intros H. unfold read_file. now erewrite write_file_lookup by eassumption.
Qed.

(** ** The capturing group of the key pattern *)

Lemma option_map_cons_some (x : string) (o : option (list string)) parts :
  option_map (cons x) o = Some parts -> exists ps, parts = x :: ps /\ o = Some ps.
Proof. destruct o as [ps|]; simpl; intros H; inversion H. now exists ps. Qed.

Lemma rmatch_lit_sound l p s parts :
  rmatch (Lit l :: p) s = Some parts ->
  exists rest ps, parts = l :: ps /\ s = (l ++ rest)%string /\ rmatch p rest = Some ps.
Proof.
  simpl. destruct (strip_prefix l s) as [r|] eqn:E; [|discriminate].
  intros H. apply option_map_cons_some in H as (ps & -> & H).
  exists r, ps. repeat split; [now apply strip_prefix_some | assumption].
Qed.

Lemma rmatch_class_sound f n p s parts :
  rmatch (Class f n :: p) s = Some parts ->
  exists t rest ps, parts = t :: ps /\ s = (t ++ rest)%string /\ String.length t = n
    /\ (forall c, In c (list_ascii_of_string t) -> f c = true)
    /\ rmatch p rest = Some ps.
Proof.
  simpl. destruct (take_class f n s) as [[t r]|] eqn:E; [|discriminate].
  intros H. apply option_map_cons_some in H as (ps & -> & H).
  apply take_class_some in E as (Hs & Hl & Hall).
  now exists t, r, ps.
Qed.

Lemma rmatch_gopen_sound p s parts :
  rmatch (GOpen :: p) s = Some parts ->
  exists ps, parts = EmptyString :: ps /\ rmatch p s = Some ps.
Proof. simpl. apply option_map_cons_some. Qed.

Lemma rmatch_gclose_sound p s parts :
  rmatch (GClose :: p) s = Some parts ->
  exists ps, parts = EmptyString :: ps /\ rmatch p s = Some ps.
Proof. simpl. apply option_map_cons_some. Qed.

(** The parts of a match of the key pattern. *)
Lemma rmatch_keyid_parts (line : string) (parts : list string) :
  rmatch re_keyid line = Some parts ->
  exists a h r c,
    parts = [a; EmptyString; "keyid "; h; EmptyString; c]
    /\ line = (a ++ "keyid " ++ h ++ r)%string
    /\ String.length h = 16
    /\ (forall x, In x (list_ascii_of_string h) -> is_hex x = true).
Proof.
  unfold re_keyid. intros E.
  apply rmatch_star_sound in E as (a & r0 & ps0 & -> & -> & Ha & E).
  apply rmatch_gopen_sound in E as (ps1 & -> & E).
  apply rmatch_lit_sound in E as (r1 & ps2 & -> & -> & E).
  apply rmatch_class_sound in E as (h & r2 & ps3 & -> & -> & Hl & Hall & E).
  apply rmatch_gclose_sound in E as (ps4 & -> & E).
  apply rmatch_star_sound in E as (c & r3 & ps5 & -> & -> & Hc & E).
  simpl in E. inversion E; subst.
  exists a, h, (c ++ r3)%string, c. now repeat split.
Qed.

Lemma re_group_keyid (line t : string) :
  re_group re_keyid line = Some t ->
  keyid_token t /\ exists a b, line = (a ++ t ++ b)%string.
Proof.
  unfold re_group.
  destruct (rmatch re_keyid line) as [parts|] eqn:E; [|discriminate].
  apply rmatch_keyid_parts in E as (a & h & r & c & -> & -> & Hl & Hall).
  simpl. intros H. inversion H; subst; clear H.
  split.
  - exists h. now repeat split.
  - exists a, r. reflexivity.
Qed.

Lemma re_match_keyid (line : string) :
  nl_free line = true -> (re_match re_keyid line = true <-> has_keyid line).
Proof.
  intros Hnl. unfold re_keyid, has_keyid, keyid_token.
  rewrite re_match_star. split.
  - intros (a & r0 & -> & Ha & H).
    rewrite (proj1 (re_match_group _ _)) in H.
    apply re_match_lit in H as (r1 & -> & H).
    apply re_match_class in H as (h & r2 & -> & Hl & Hall & _).
    exists a, ("keyid " ++ h)%string, r2. split.
    + now rewrite sapp_assoc.
    + now exists h.
  - intros (a & t & b & -> & h & -> & Hl & Hall).
    exists a, (("keyid " ++ h) ++ b)%string. split; [reflexivity|]. split.
    + rewrite nl_free_app in Hnl. now apply andb_prop in Hnl as [? _].
    + rewrite (proj1 (re_match_group _ _)).
      apply re_match_lit. exists (h ++ b)%string. split; [now rewrite sapp_assoc|].
      apply re_match_class. exists h, b. repeat split; try assumption.
      rewrite (proj2 (re_match_group _ _)).
      apply re_match_star. exists EmptyString, b. now repeat split.
Qed.

Lemma re_match_group_some (s : string) :
  re_match re_keyid s = true -> exists t, re_group re_keyid s = Some t.
Proof.
  unfold re_match, re_group.
  destruct (rmatch re_keyid s) as [parts|] eqn:E; [|discriminate]. intros _.
  apply rmatch_keyid_parts in E as (a & h & r & c & -> & _).
  simpl. eexists. reflexivity.
Qed.

(** What [list_packets] keeps of one line. *)
Lemma keyids_of_line_spec (line : string) :
  nl_free line = true ->
  (has_keyid line ->
   exists t, keyids_of_line line = [t] /\ keyid_token t
             /\ exists a b, line = (a ++ t ++ b)%string)
  /\ (~ has_keyid line -> keyids_of_line line = []).
Proof.
  intros Hnl. unfold keyids_of_line. split.
  - intros H. apply (re_match_keyid line Hnl) in H. rewrite H.
    destruct (re_match_group_some line H) as (t & Ht). rewrite Ht.
    exists t. split; [reflexivity|]. now apply re_group_keyid.
  - intros H. destruct (re_match re_keyid line) eqn:E; [|reflexivity].
    exfalso. apply H. now apply re_match_keyid.
Qed.

Lemma split_nl_nl_free (s line : string) :
  In line (split_nl s) -> nl_free line = true.
Proof.
  revert line. induction s as [|c s IH]; simpl; intros line H.
  - destruct H as [<-|[]]. reflexivity.
  - destruct (is_nl c) eqn:Hc.
    + destruct H as [<-|H]; [reflexivity | now apply IH].
    + destruct (split_nl s) as [|t ts] eqn:E.
      * destruct H as [<-|[]]. simpl. now rewrite Hc.
      * destruct H as [<-|H].
        -- simpl. rewrite Hc. simpl. apply IH. now left.
        -- apply IH. now right.
Qed.

Lemma flat_map_nil {A B} (f : A -> list B) (l : list A) :
  (forall x, In x l -> f x = []) -> flat_map f l = [].
Proof.
  induction l as [|x l IH]; simpl; intros H; [reflexivity|].
  rewrite (H x (or_introl eq_refl)), IH; [reflexivity|].
  intros y Hy. apply H. now right.
Qed.

(** ** The walk *)

Lemma node_induction (P : node -> Prop) :
  (forall data, P (File data)) ->
  (forall es, Forall (fun e => P (snd e)) es -> P (Dir es)) ->
  forall n, P n.
Proof.
  intros HF HD. fix IH 1. intros [data|es]; [apply HF|].
  apply HD. induction es as [|[k c] es IHes]; constructor; [apply IH | exact IHes].
Qed.

Lemma height_dir (es : list (string * node)) : height (Dir es) = S (heights es).
Proof. reflexivity. Qed.

Lemma walk_node_dir (root : path) (es : list (string * node)) :
  walk_node root (Dir es)
  = (root, dir_names es, file_names es) :: walk_below root es.
Proof.
  simpl. f_equal. unfold walk_below.
  induction es as [|[k c] es IH]; simpl; [reflexivity | now rewrite IH].
Qed.

(** Every directory that the walk visits lies at or below its root. *)
Lemma walk_node_roots (n : node) :
  forall root item, In item (walk_node root n) -> exists q, fst (fst item) = root ++ q.
Proof.
  induction n as [data | es IH] using node_induction; intros root item H.
  - destruct H.
  - rewrite walk_node_dir in H. destruct H as [<- | H].
    + exists []. simpl. now rewrite app_nil_r.
    + unfold walk_below in H. apply in_flat_map in H as ([k c] & Hin & H).
      rewrite Forall_forall in IH. destruct (IH _ Hin _ _ H) as (q & Hq).
      exists (k :: q). rewrite Hq. unfold path_join. simpl.
      now rewrite <- app_assoc.
Qed.

Lemma walk_below_roots (root : path) (es : list (string * node)) item :
  In item (walk_below root es) ->
  exists name q, fst (fst item) = root ++ name :: q.
Proof.
  unfold walk_below. intros H. apply in_flat_map in H as ([k c] & Hin & H).
  destruct (walk_node_roots _ _ _ H) as (q & Hq).
  exists k, q. rewrite Hq. unfold path_join. simpl. now rewrite <- app_assoc.
Qed.

Lemma path_eqb_refl (p : path) : path_eqb p p = true.
Proof. unfold path_eqb. destruct (list_eq_dec string_dec p p); congruence. Qed.

Lemma path_eqb_below (root : path) (name : string) (q : path) :
  path_eqb (root ++ name :: q) root = false.
Proof.
  unfold path_eqb. destruct (list_eq_dec string_dec _ _) as [E|]; [|reflexivity].
  exfalso. apply (f_equal (@length string)) in E. rewrite length_app in E.
  simpl in E. lia.
Qed.

(** ** Depth of the tree *)

Lemma height_at_le (n : node) : forall q, (height_at n q <= height n)%nat.
Proof.
  induction n as [data | es IH] using node_induction; intros q.
  - unfold height_at. destruct q; simpl; lia.
  - unfold height_at. destruct q as [|name q]; [simpl lookup; lia|].
    simpl lookup. rewrite height_dir.
    induction es as [|[k c] es IHes]; simpl; [lia|].
    inversion IH as [|? ? Hc Hes]; subst.
    destruct (String.eqb k name).
    + specialize (Hc q). unfold height_at in Hc. simpl in Hc. lia.
    + specialize (IHes Hes). lia.
Qed.

Lemma height_at_nil (fs : node) : height_at fs [] = height fs.
Proof. reflexivity. Qed.

Lemma lookup_app (fs : node) (p q : path) :
  lookup fs (p ++ q) = match lookup fs p with Some n => lookup n q | None => None end.
Proof.
  revert fs. induction p as [|name p IH]; intros fs; simpl; [reflexivity|].
  destruct fs as [|es]; [reflexivity|].
  destruct (find_entry name es); [apply IH | reflexivity].
Qed.

(** A directory is deeper than everything below it. *)
Lemma height_at_below (fs : node) (p : path) (es : list (string * node))
    (name : string) (q : path) :
  lookup fs p = Some (Dir es) ->
  (height_at fs (p ++ name :: q) < height_at fs p)%nat.
Proof.
  intros Hp. unfold height_at. rewrite lookup_app, Hp. simpl lookup.
  rewrite height_dir.
  induction es as [|[k c] es IH] in Hp |- *; simpl; [lia|].
  destruct (String.eqb k name).
  - pose proof (height_at_le c q) as H. unfold height_at in H. lia.
  - clear Hp. assert (H : (match match find_entry name es with
                                  | Some c0 => lookup c0 q | None => None end with
                            | Some n => height n | None => 0 end < S (heights es))%nat).
    { clear IH. induction es as [|[k' c'] es IH']; simpl; [lia|].
      destruct (String.eqb k' name).
      - pose proof (height_at_le c' q) as H. unfold height_at in H. lia.
      - lia. }
    lia.
Qed.

Lemma find_app_other name name' n es :
  name' <> name ->
  find_entry name' (es ++ [(name, n)]) = find_entry name' es.
Proof.
  intros Hne. induction es as [|[k c] es IH]; simpl.
  - destruct (String.eqb name name') eqn:E; [|reflexivity].
    apply String.eqb_eq in E. congruence.
  - now rewrite IH.
Qed.

Lemma heights_update name c c' es :
  find_entry name es = Some c -> height c' = height c ->
  heights (update_entry name c' es) = heights es.
Proof.
  intros Hf Hh. induction es as [|[k n] es IH]; simpl in *; [reflexivity|].
  destruct (String.eqb k name); simpl.
  - inversion Hf; subst. now rewrite Hh.
  - now rewrite IH.
Qed.

Lemma heights_app_file name data es :
  heights (es ++ [(name, File data)]) = heights es.
Proof.
  induction es as [|[k n] es IH]; simpl; [reflexivity | now rewrite IH].
Qed.

(** Writing a file leaves the depth of the tree as it is, everywhere. *)
Lemma write_file_height_at (p : path) (data : string) :
  forall n n' q, write_file n p data = inl n' -> height_at n' q = height_at n q.
Proof.
  induction p as [|name p IH]; intros n n' q H; simpl in H.
  - destruct n as [old|es]; inversion H; subst.
    destruct q; reflexivity.
  - destruct n as [old|es]; [discriminate|].
    destruct (find_entry name es) as [c|] eqn:E.
    + destruct (write_file c p data) as [c'|] eqn:W; inversion H; subst; clear H.
      destruct q as [|name' q].
      * rewrite !height_at_nil, !height_dir. f_equal.
        apply heights_update with (c := c); [assumption|].
        apply (IH c c' [] W).
      * unfold height_at. simpl lookup.
        destruct (string_dec name' name) as [->|Hne].
        -- rewrite (find_update_same _ _ _ _ E), E. apply (IH c c' q W).
        -- now rewrite (find_update_other _ _ _ _ Hne).
    + destruct p; inversion H; subst; clear H.
      destruct q as [|name' q].
      * rewrite !height_at_nil, !height_dir. f_equal. apply heights_app_file.
      * unfold height_at. simpl lookup.
        destruct (string_dec name' name) as [->|Hne].
        -- rewrite (find_app_new _ _ _ E), E. destruct q; reflexivity.
        -- now rewrite (find_app_other _ _ _ _ Hne).
Qed.

Section Properties.

Context {BK : Backend}.

Notation "x <- c ;; k" := (bind c (fun x => k))
  (at level 61, c at next level, right associativity).
Notation "c ;; k" := (bind c (fun _ => k))
  (at level 61, right associativity).

(** ** The binary cache *)

Lemma get_binary_resolution (w : world) :
  resolution w (fst (get_binary w)) (snd (get_binary w)).
Proof.
  unfold get_binary.
  destruct (binary_cache w) as [b|] eqn:Hc.
  - simpl. now apply res_cached.
  - unfold get_binary_body, bind, popen, first_line, decode_utf8, bind, ret, raise, sys_exit.
    repeat (break_match; simpl in *; try discriminate);
    repeat match goal with H : (_, _) = (_, _) |- _ => inversion H; subst; clear H end;
    simpl in *; try discriminate.
    all: eapply res_fresh;
      [ assumption
      | reflexivity
      | simpl; rewrite <- ?app_assoc; reflexivity
      | simpl; repeat (once constructor; try reflexivity)
      | unfold count_spawns; simpl; lia
      | unfold count_spawns; simpl; lia
      | intros b' Hb; inversion Hb; subst; reflexivity
      | intros Hb; simpl; first [ assumption | exfalso; eapply Hb; reflexivity ]
      | discriminate ].
Qed.

Lemma get_binary_cached (w : world) (b : string) :
  binary_cache w = Some b -> get_binary w = (Ret b, w).
Proof. intros H. unfold get_binary. now rewrite H. Qed.

Lemma get_binary_ret (w w1 : world) (b : string) :
  get_binary w = (Ret b, w1) ->
  binary_cache w1 = Some b /\ fs w1 = fs w /\ get_binary w1 = (Ret b, w1).
Proof.
  intros H. pose proof (get_binary_resolution w) as R. rewrite H in R. simpl in R.
  assert (Hc : binary_cache w1 = Some b).
  { inversion R; subst; [assumption|]. now apply H6. }
  repeat split; [assumption | | now apply get_binary_cached].
  inversion R; subst; [reflexivity | assumption].
Qed.

(** ** [encrypt] *)

Lemma encrypt_resolved text rcpts dest home (w w1 : world) (b : string) :
  rcpts <> [] ->
  (forall p, dest = Some p -> path_exists (fs w) (dirname p) = true) ->
  get_binary w = (Ret b, w1) ->
  encrypt text rcpts dest home w = encrypt_outcome text rcpts dest home b w1.
Proof.
  intros Hr Hp Hb.
  destruct (get_binary_ret _ _ _ Hb) as (Hc & Hfs & Hb1).
  unfold encrypt, encrypt_outcome, encrypt_command.
  destruct rcpts as [|k ks]; [congruence|].
  unfold bind at 1. unfold get_fs at 1.
  assert (Hchk : (match dest with
                  | Some p => if negb (path_exists (fs w) (dirname p))
                              then raise (FileNotFoundError (Some "specified file path does not exist"))
                              else ret tt
                  | None => ret tt
                  end) w = (Ret tt, w)).
  { destruct dest as [p|]; [|reflexivity]. now rewrite (Hp p eq_refl). }
  unfold bind at 1. rewrite Hchk.
  unfold bind at 1. rewrite Hb.
  destruct (truthy home) as [h|] eqn:Hh.
  - unfold bind at 1. unfold bind at 1. rewrite Hb1. unfold ret at 1.
    unfold bind at 1. unfold popen, spawned.
    destruct (spawn _ _ _ _) as [[o|] st]; [|reflexivity].
    destruct (re_match re_no_such_file (merged_of o)); [reflexivity|].
    destruct (re_match re_no_public_key (merged_of o)); [reflexivity|].
    destruct dest as [p|]; [|reflexivity].
    unfold bind, open_write, written, ret. simpl.
    destruct (write_file (fs w1) p (merged_of o)); reflexivity.
  - unfold bind at 1. unfold ret at 1.
    unfold bind at 1. unfold popen, spawned.
    destruct (spawn _ _ _ _) as [[o|] st]; [|reflexivity].
    destruct (re_match re_no_such_file (merged_of o)); [reflexivity|].
    destruct (re_match re_no_public_key (merged_of o)); [reflexivity|].
    destruct dest as [p|]; [|reflexivity].
    unfold bind, open_write, written, ret. simpl.
    destruct (write_file (fs w1) p (merged_of o)); reflexivity.
Qed.

Lemma get_binary_effects (w : world) :
  fs (snd (get_binary w)) = fs w
  /\ filter is_write (trace (snd (get_binary w))) = filter is_write (trace w)
  /\ fst (get_binary w) <> OutOfFuel.
Proof.
  pose proof (get_binary_resolution w) as R.
  destruct (get_binary w) as [r w1]. simpl in *.
  destruct R as [b Hc | r w' V Hc Hfs Htr HV _ _ _ _ Hfuel].
  - repeat split. discriminate.
  - repeat split; try assumption.
    rewrite Htr, filter_app.
    assert (HV' : filter is_write V = []).
    { clear - HV. induction HV as [|e V He _ IH]; [reflexivity|].
      simpl. rewrite IH. destruct e; simpl in *; try reflexivity; discriminate. }
    now rewrite HV', app_nil_r.
Qed.

Lemma filter_is_write_spawn tr argv input res :
  filter is_write (tr ++ [EvSpawn argv input res]) = filter is_write tr.
Proof. rewrite filter_app. simpl. apply app_nil_r. Qed.

Lemma encrypt_no_recipients text dest home (w : world) :
  encrypt text [] dest home w = (Raise (ValueError "no recipients"), w).
Proof. reflexivity. Qed.

Lemma encrypt_missing_parent text rcpts p home (w : world) :
  rcpts <> [] ->
  path_exists (fs w) (dirname p) = false ->
  encrypt text rcpts (Some p) home w
  = (Raise (FileNotFoundError (Some "specified file path does not exist")), w).
Proof.
  intros Hr Hp. destruct rcpts as [|k ks]; [congruence|].
  unfold encrypt, bind, get_fs. now rewrite Hp.
Qed.

(** C7 (as amended).  An empty recipient list is refused with the
    [ValueError] for no recipients, whatever the other arguments are; with
    recipients and a destination whose parent directory does not exist,
    [encrypt] raises [FileNotFoundError].  In both cases the world is the
    one the call started from: no process was started, nothing written. *)
Theorem encrypt_preconditions text rcpts dest home (w : world) :
  (rcpts = [] ->
   encrypt text rcpts dest home w = (Raise (ValueError "no recipients"), w))
  /\ (rcpts <> [] -> forall p, dest = Some p ->
      path_exists (fs w) (dirname p) = false ->
      encrypt text rcpts dest home w
      = (Raise (FileNotFoundError (Some "specified file path does not exist")), w)).
Proof.
  split.
  - intros ->. apply encrypt_no_recipients.
  - intros Hr p -> Hp. now apply encrypt_missing_parent.
Qed.

(** C10.  Whenever [encrypt] does not return, the file system is the one
    the call started with and no file was written. *)
Theorem encrypt_error_leaves_files text rcpts dest home (w w' : world) r :
  encrypt text rcpts dest home w = (r, w') ->
  (forall v, r <> Ret v) ->
  fs w' = fs w /\ filter is_write (trace w') = filter is_write (trace w).
Proof.
  intros H Hr.
  destruct rcpts as [|k ks]; [inversion H; subst; now split|].
  destruct (match dest with
            | Some p => path_exists (fs w) (dirname p)
            | None => true
            end) eqn:Hchk.
  - destruct (get_binary w) as [rb w1] eqn:Hb.
    pose proof (get_binary_effects w) as (Hfs & Hwr & _). rewrite Hb in Hfs, Hwr.
    simpl in Hfs, Hwr.
    destruct rb as [b| | |].
    + rewrite (encrypt_resolved text (k :: ks) dest home w w1 b) in H;
        [ | discriminate | intros p ->; exact Hchk | exact Hb ].
      unfold encrypt_outcome, spawned, written in H.
      destruct (spawn _ _ _ _) as [[o|] st].
      * destruct (re_match re_no_such_file (merged_of o));
          [inversion H; subst; simpl; rewrite filter_is_write_spawn; now split|].
        destruct (re_match re_no_public_key (merged_of o));
          [inversion H; subst; simpl; rewrite filter_is_write_spawn; now split|].
        destruct dest as [p|].
        -- simpl in H. destruct (write_file (fs w1) p (merged_of o)).
           ++ inversion H; subst. exfalso. now apply (Hr None).
           ++ inversion H; subst; simpl; rewrite filter_is_write_spawn; now split.
        -- inversion H; subst. exfalso. now apply (Hr (Some (merged_of o))).
      * inversion H; subst; simpl; rewrite filter_is_write_spawn; now split.
    + assert (E : encrypt text (k :: ks) dest home w = (Raise e, w1)).
      { unfold encrypt, bind, get_fs. destruct dest as [p|]; [rewrite Hchk|];
          simpl; unfold ret; now rewrite Hb. }
      rewrite E in H. inversion H; subst. now split.
    + assert (E : encrypt text (k :: ks) dest home w = (Exit code, w1)).
      { unfold encrypt, bind, get_fs. destruct dest as [p|]; [rewrite Hchk|];
          simpl; unfold ret; now rewrite Hb. }
      rewrite E in H. inversion H; subst. now split.
    + assert (E : encrypt text (k :: ks) dest home w = (OutOfFuel, w1)).
      { unfold encrypt, bind, get_fs. destruct dest as [p|]; [rewrite Hchk|];
          simpl; unfold ret; now rewrite Hb. }
      rewrite E in H. inversion H; subst. now split.
  - destruct dest as [p|]; [|discriminate].
    rewrite (encrypt_missing_parent text (k :: ks) p home w
               ltac:(discriminate) Hchk) in H.
    inversion H; subst. now split.
Qed.




(** ** [decrypt] *)

Lemma decrypt_resolved path_to_file home extra utf8 (w w1 : world) (b : string) :
  get_binary w = (Ret b, w1) ->
  decrypt path_to_file home extra utf8 w
  = decrypt_outcome path_to_file home extra utf8 b w1.
Proof.
  intros Hb. destruct (get_binary_ret _ _ _ Hb) as (Hc & Hfs & Hb1).
  unfold decrypt, decrypt_outcome, decrypt_command, decrypt_result.
  unfold bind at 1. rewrite Hb.
  destruct (truthy home) as [h|] eqn:Hh.
  - unfold bind at 1. unfold bind at 1. rewrite Hb1. unfold ret at 1.
    unfold bind at 1. unfold popen, spawned.
    destruct (spawn _ _ _ _) as [[o|] st]; [|reflexivity].
    unfold decode_utf8, ret, raise.
    repeat (break_match; try reflexivity).
  - unfold bind at 1. unfold ret at 1.
    unfold bind at 1. unfold popen, spawned.
    destruct (spawn _ _ _ _) as [[o|] st]; [|reflexivity].
    unfold decode_utf8, ret, raise.
    repeat (break_match; try reflexivity).
Qed.

Lemma decrypt_unresolved path_to_file home extra utf8 (w w1 : world) r :
  get_binary w = (r, w1) -> (forall b, r <> Ret b) ->
  exists r', decrypt path_to_file home extra utf8 w = (r', w1)
             /\ forall v, r' <> Ret v.
Proof.
  intros Hb Hr. unfold decrypt. unfold bind at 1. rewrite Hb.
  destruct r as [b| | |]; [now destruct (Hr b) | | | ];
    eexists; (split; [reflexivity | discriminate]).
Qed.

Lemma decrypt_command_argv (b : string) (home : option string)
    (extra : option (list string)) (p : path) :
  decrypt_command b home extra p = decryption_argv b home extra p.
Proof.
  unfold decrypt_command, decryption_argv, truthy.
  destruct home as [[|c h]|]; destruct extra; reflexivity.
Qed.

(** What [decrypt] makes of its standard output and of the first line of
    the diagnostics. *)
Lemma decrypt_outcome_first_line path_to_file home extra utf8 (w w1 : world) b o st :
  get_binary w = (Ret b, w1) ->
  spawn (decrypt_command b home extra path_to_file) None (fs w1) (gpg_state w1)
  = (Some o, st) ->
  let stdout := stdout_of o in
  let stderr := stderr_of o in
  let w2 := spawned w1 (decrypt_command b home extra path_to_file) None (Some o) st in
  let raises e := decrypt path_to_file home extra utf8 w = (Raise e, w2) in
  let no_secret_key := on_first_line "decryption failed: No secret key" stderr in
  let no_such_file := on_first_line2 "can't open" "No such file or directory" stderr in
  let is_a_directory := on_first_line "read error: Is a directory" stderr in
  let no_valid_data := on_first_line "no valid OpenPGP data found" stderr in
  (stdout <> EmptyString ->
   decrypt path_to_file home extra utf8 w
   = (if utf8 then (if utf8_valid stdout then Ret stdout else Raise UnicodeDecodeError)
      else Ret stdout, w2))
  /\ (stdout = EmptyString ->
      (no_secret_key -> raises (ValueError "no secret key"))
      /\ (~ no_secret_key -> no_such_file -> raises (FileNotFoundError None))
      /\ (~ no_secret_key -> ~ no_such_file -> is_a_directory ->
          raises (ValueError "file is a directory"))
      /\ (~ no_secret_key -> ~ no_such_file -> ~ is_a_directory -> no_valid_data ->
          raises (ValueError "no valid openpgp data found"))
      /\ (~ no_secret_key -> ~ no_such_file -> ~ is_a_directory -> ~ no_valid_data ->
          raises (UnknownGpgError stderr))).
Proof.
  intros Hb Hs stdout stderr w2 raises nsk nsf iad nvd. unfold raises.
  rewrite (decrypt_resolved path_to_file home extra utf8 w w1 b Hb).
  unfold decrypt_outcome. rewrite Hs. fold stdout stderr w2.
  unfold decrypt_result.
  assert (E1 : re_match re_no_secret_key stderr = true <-> nsk)
    by apply re_match_phrase.
  assert (E2 : re_match re_cant_open_no_such_file stderr = true <-> nsf)
    by apply re_match_phrase2.
  assert (E3 : re_match re_is_a_directory stderr = true <-> iad)
    by apply re_match_phrase.
  assert (E4 : re_match re_no_valid_data stderr = true <-> nvd)
    by apply re_match_phrase.
  split.
  - intros Hne. destruct stdout; [congruence | reflexivity].
  - intros ->. simpl.
    destruct (re_match re_no_secret_key stderr);
      destruct (re_match re_cant_open_no_such_file stderr);
      destruct (re_match re_is_a_directory stderr);
      destruct (re_match re_no_valid_data stderr);
      repeat split; intros;
      repeat match goal with
             | H : ~ _, E : true = true <-> _ |- _ =>
                 exfalso; apply H; apply E; reflexivity
             | H : ?P, E : false = true <-> ?P |- _ =>
                 apply E in H; discriminate
             end; reflexivity.
Qed.

(** C5 (as amended).  A standard output that is not empty decides, whatever
    the diagnostics say: it is the result as it is, or, where text is asked
    for, the result when it is UTF-8 and a [UnicodeDecodeError] when it is
    not.  With an empty standard output the diagnostics decide, in this
    order, a phrase being seen when it stands on their first line:
    [decryption failed: No secret key]; [can't open] followed by [No such
    file or directory]; [read error: Is a directory]; [no valid OpenPGP data
    found].  Diagnostics that hold none of them at all raise the error for
    an unknown failure, which carries the diagnostics.  Diagnostics with
    one of the phrases on a later line only are not covered. *)
Theorem decrypt_classifies_output path_to_file home extra utf8 (w w1 : world) b o st :
  get_binary w = (Ret b, w1) ->
  spawn (decryption_argv b home extra path_to_file) None (fs w1) (gpg_state w1)
  = (Some o, st) ->
  let stdout := printed_on Out o in
  let stderr := printed_on Err o in
  let w2 := spawned w1 (decryption_argv b home extra path_to_file) None (Some o) st in
  let raises e := decrypt path_to_file home extra utf8 w = (Raise e, w2) in
  let secret_key := "decryption failed: No secret key" in
  let is_a_directory := "read error: Is a directory" in
  let no_valid_data := "no valid OpenPGP data found" in
  let absent phrase := ~ occurs phrase stderr in
  let no_such_file_absent :=
    ~ occurs2 "can't open" "No such file or directory" stderr in
  (stdout <> EmptyString ->
   decrypt path_to_file home extra utf8 w
   = (if utf8 then (if utf8_valid stdout then Ret stdout else Raise UnicodeDecodeError)
      else Ret stdout, w2))
  /\ (stdout = EmptyString ->
      (on_first_line secret_key stderr -> raises (ValueError "no secret key"))
      /\ (absent secret_key ->
          on_first_line2 "can't open" "No such file or directory" stderr ->
          raises (FileNotFoundError None))
      /\ (absent secret_key -> no_such_file_absent ->
          on_first_line is_a_directory stderr ->
          raises (ValueError "file is a directory"))
      /\ (absent secret_key -> no_such_file_absent -> absent is_a_directory ->
          on_first_line no_valid_data stderr ->
          raises (ValueError "no valid openpgp data found"))
      /\ (absent secret_key -> no_such_file_absent -> absent is_a_directory ->
          absent no_valid_data ->
          raises (UnknownGpgError stderr))).
Proof.
  intros Hb Hs. cbv zeta.
  rewrite <- decrypt_command_argv in *. rewrite printed_on_out, printed_on_err.
  destruct (decrypt_outcome_first_line path_to_file home extra utf8 w w1 b o st Hb Hs)
    as (H1 & H2).
  split; [exact H1|]. intros Hempty.
  destruct (H2 Hempty) as (Ha & Hb' & Hc & Hd & He).
  assert (F1 : forall phrase, ~ occurs phrase (stderr_of o) ->
                              ~ on_first_line phrase (stderr_of o))
    by (intros phrase Hn H; apply Hn; now apply on_first_line_occurs).
  assert (F2 : ~ occurs2 "can't open" "No such file or directory" (stderr_of o) ->
               ~ on_first_line2 "can't open" "No such file or directory" (stderr_of o))
    by (intros Hn H; apply Hn; now apply on_first_line2_occurs2).
  repeat split; intros; auto.
Qed.

(** ** Memoization *)

Lemma get_binary_times_cached (n : nat) (w : world) (b : string) :
  binary_cache w = Some b -> get_binary_times n w = (Ret tt, w).
Proof.
  intros Hc. induction n as [|n IH]; [reflexivity|].
  simpl. unfold bind. now rewrite (get_binary_cached w b Hc).
Qed.

(** C9.  Once [get_binary] has returned a binary, a further call returns
    the same binary and leaves the world as it is: no process is started.
    Any number of calls in a row ends in the world that the first one
    left, and in it the version of each candidate was asked at most
    once. *)
Theorem get_binary_memoized (w w1 : world) (b : string) :
  get_binary w = (Ret b, w1) ->
  get_binary w1 = (Ret b, w1)
  /\ (forall n, get_binary_times (S n) w = (Ret tt, w1))
  /\ exists V, trace w1 = trace w ++ V
       /\ Forall (fun e => is_version_query e = true) V
       /\ (count_spawns gpg_version V <= 1)%nat
       /\ (count_spawns gpg2_version V <= 1)%nat.
Proof.
  intros Hb. destruct (get_binary_ret _ _ _ Hb) as (Hc & Hfs & Hb1).
  split; [assumption|]. split.
  - intros n. simpl. unfold bind. rewrite Hb.
    now apply get_binary_times_cached with (b := b).
  - pose proof (get_binary_resolution w) as R. rewrite Hb in R. simpl in R.
    destruct R as [b' Hc' | r w' V Hc' Hfs' Htr HV H1 H2 _ _ _].
    + exists []. rewrite app_nil_r. repeat split; [constructor | | ];
        unfold count_spawns; simpl; lia.
    + exists V. now repeat split.
Qed.

(** ** The [.gpg-id] file *)

Lemma universal_newlines_cr_free (s : string) :
  cr_free s = true -> universal_newlines s = s.
Proof.
  induction s as [|c s IH]; simpl; [reflexivity|].
  intros H. apply andb_prop in H as [Hc Hs].
  apply negb_true_iff in Hc. rewrite Hc. now rewrite IH.
Qed.

Lemma cr_free_app (a b : string) : cr_free (a ++ b) = cr_free a && cr_free b.
Proof.
  induction a as [|x a IH]; simpl; [reflexivity|].
  rewrite IH. now rewrite andb_assoc.
Qed.

Lemma cr_free_gpg_id_text (ids : list string) :
  Forall (fun id => no_line_terminator id = true) ids ->
  cr_free (gpg_id_text ids) = true.
Proof.
  unfold gpg_id_text.
  induction 1 as [|id ids Hid _ IH]; simpl; [reflexivity|].
  apply andb_prop in Hid as [_ Hcr].
  now rewrite !cr_free_app, Hcr, IH.
Qed.

Lemma readlines_line (id rest : string) :
  nl_free id = true ->
  readlines (id ++ String nl rest) = (id ++ String nl EmptyString)%string :: readlines rest.
Proof.
  induction id as [|c id IH]; simpl; intros H; [reflexivity|].
  apply andb_prop in H as [Hc Hid]. apply negb_true_iff in Hc.
  rewrite Hc. now rewrite (IH Hid).
Qed.

Lemma remove_nl_line (id : string) :
  nl_free id = true -> remove_char nl (id ++ String nl EmptyString) = id.
Proof.
  induction id as [|c id IH]; simpl; intros H; [reflexivity|].
  apply andb_prop in H as [Hc Hid]. apply negb_true_iff in Hc.
  unfold is_nl in Hc. rewrite Hc. now rewrite (IH Hid).
Qed.

Lemma readlines_gpg_id_text (ids : list string) :
  Forall (fun id => no_line_terminator id = true) ids ->
  map (remove_char nl) (readlines (gpg_id_text ids)) = ids.
Proof.
  unfold gpg_id_text.
  induction 1 as [|id ids Hid _ IH]; simpl; [reflexivity|].
  apply andb_prop in Hid as [Hnl _].
  rewrite sapp_assoc. simpl.
  rewrite (readlines_line id _ Hnl). simpl.
  now rewrite (remove_nl_line id Hnl), IH.
Qed.

(** C8.  When the identifiers hold no line terminator and the file could be
    written, reading it back gives the identifiers that were written, in
    their order and with their repetitions. *)
Theorem gpg_id_roundtrip (p : path) (ids : list string) (w w' : world) :
  Forall (fun id => no_line_terminator id = true) ids ->
  write_gpg_id_file p ids w = (Ret tt, w') ->
  get_recipients_from_gpg_id p w' = (Ret ids, w').
Proof.
  intros Hids Hw. unfold write_gpg_id_file, open_write in Hw.
  fold (gpg_id_text ids) in Hw.
  destruct (write_file (fs w) p (gpg_id_text ids)) as [fs'|e] eqn:E; [|discriminate].
  inversion Hw; subst; clear Hw.
  unfold get_recipients_from_gpg_id, bind, get_fs. simpl.
  rewrite (write_file_read_file _ _ _ _ E). unfold ret.
  rewrite (universal_newlines_cr_free _ (cr_free_gpg_id_text _ Hids)).
  now rewrite (readlines_gpg_id_text _ Hids).
Qed.

(** ** [list_packets] *)

Lemma list_packets_resolved path_to_file (w w1 : world) (b : string) :
  get_binary w = (Ret b, w1) ->
  list_packets path_to_file w
  = let argv := list_packets_command b path_to_file in
    let '(res, st) := spawn argv None (fs w1) (gpg_state w1) in
    let w2 := spawned w1 argv None res st in
    match res with
    | None => (Raise (FileNotFoundError None), w2)
    | Some o => (list_packets_result (stdout_of o) (stderr_of o), w2)
    end.
Proof.
  intros Hb. unfold list_packets, list_packets_command, list_packets_result.
  unfold bind at 1. rewrite Hb. unfold bind at 1. unfold popen, spawned.
  destruct (spawn _ _ _ _) as [[o|] st]; [|reflexivity].
  unfold ret, raise. repeat (break_match; try reflexivity).
Qed.

(** C4 (as amended).  When the diagnostics show none of the three failures,
    [list_packets] returns, for each line of the output that holds a key
    token and in the order of the lines, that token: the word [keyid], a
    blank and the sixteen hexadecimal digits.  Lines without a token give
    nothing; without any such line the result is the empty list, not an
    error. *)
Theorem list_packets_tokens path_to_file (w w1 : world) b o st :
  get_binary w = (Ret b, w1) ->
  spawn (list_packets_command b path_to_file) None (fs w1) (gpg_state w1)
  = (Some o, st) ->
  let stdout := stdout_of o in
  let stderr := stderr_of o in
  let w2 := spawned w1 (list_packets_command b path_to_file) None (Some o) st in
  ~ on_first_line "can't open" stderr ->
  ~ on_first_line "read error: Is a directory" stderr ->
  ~ on_first_line "no valid OpenPGP data found" stderr ->
  list_packets path_to_file w = (Ret (flat_map keyids_of_line (split_nl stdout)), w2)
  /\ (forall line, In line (split_nl stdout) ->
      (has_keyid line ->
       exists t, keyids_of_line line = [t] /\ keyid_token t
                 /\ String.length t = 22
                 /\ exists a b, line = (a ++ t ++ b)%string)
      /\ (~ has_keyid line -> keyids_of_line line = []))
  /\ ((forall line, In line (split_nl stdout) -> ~ has_keyid line) ->
      list_packets path_to_file w = (Ret [], w2)).
Proof.
  intros Hb Hs stdout stderr w2 H1 H2 H3.
  assert (E : list_packets path_to_file w
              = (Ret (flat_map keyids_of_line (split_nl stdout)), w2)).
  { rewrite (list_packets_resolved path_to_file w w1 b Hb). cbv zeta. rewrite Hs.
    fold stdout stderr w2. unfold list_packets_result.
    destruct (re_match re_cant_open stderr) eqn:E1;
      [exfalso; apply H1; now apply re_match_phrase|].
    destruct (re_match re_is_a_directory stderr) eqn:E2;
      [exfalso; apply H2; now apply re_match_phrase|].
    destruct (re_match re_no_valid_data stderr) eqn:E3;
      [exfalso; apply H3; now apply re_match_phrase|].
    reflexivity. }
  split; [exact E|]. split.
  - intros line Hin. pose proof (split_nl_nl_free _ _ Hin) as Hnl.
    destruct (keyids_of_line_spec line Hnl) as [Hy Hn]. split; [|exact Hn].
    intros Hk. destruct (Hy Hk) as (t & Ht & Htok & Hocc).
    exists t. repeat split; try assumption.
    destruct Htok as (h & -> & Hl & _). rewrite slength_app, Hl. reflexivity.
  - intros Hnone. rewrite E. f_equal. f_equal. apply flat_map_nil.
    intros line Hin. pose proof (split_nl_nl_free _ _ Hin) as Hnl.
    destruct (keyids_of_line_spec line Hnl) as [_ Hn]. apply Hn. now apply Hnone.
Qed.

(** ** How the world evolves *)

Lemma evolves_refl (w : world) : evolves w w.
Proof.
  repeat split; [exists []; now rewrite app_nil_r | auto].
Qed.

Lemma evolves_trans (w1 w2 w3 : world) :
  evolves w1 w2 -> evolves w2 w3 -> evolves w1 w3.
Proof.
  intros ((T1 & H1) & Hh1 & Hc1) ((T2 & H2) & Hh2 & Hc2). repeat split.
  - exists (T1 ++ T2). now rewrite H2, H1, app_assoc.
  - intros q. now rewrite Hh2, Hh1.
  - intros b Hb. now apply Hc2, Hc1.
Qed.

Lemma safe_ret {A} (a : A) : safe (ret a).
Proof. intros w. apply evolves_refl. Qed.

Lemma safe_raise {A} (e : exn) : safe (@raise _ A e).
Proof. intros w. apply evolves_refl. Qed.

Lemma safe_bind {A B} (c : M A) (k : A -> M B) :
  safe c -> (forall a, safe (k a)) -> safe (bind c k).
Proof.
  intros Hc Hk w. unfold bind. specialize (Hc w).
  destruct (c w) as [[a| | |] w1]; simpl in *; try assumption.
  apply evolves_trans with (w2 := w1); [assumption | apply Hk].
Qed.

Lemma safe_for_each {A} (l : list A) (body : A -> M unit) :
  (forall x, In x l -> safe (body x)) -> safe (for_each l body).
Proof.
  induction l as [|x l IH]; intros H; simpl; [apply safe_ret|].
  apply safe_bind; [apply H; now left|].
  intros _. apply IH. intros y Hy. apply H. now right.
Qed.

Lemma safe_get_fs : safe get_fs.
Proof. intros w. apply evolves_refl. Qed.

Lemma safe_log (e : event) : safe (log e).
Proof. intros w. repeat split; simpl; [now exists [e] | auto]. Qed.

Lemma safe_popen argv input : safe (popen argv input).
Proof.
  intros w. unfold popen. destruct (spawn _ _ _ _) as [[o|] st]; simpl;
    (repeat split; simpl; [eexists; reflexivity | auto]).
Qed.

Lemma safe_open_write p data : safe (open_write p data).
Proof.
  intros w. unfold open_write.
  destruct (write_file (fs w) p data) as [fs'|e] eqn:E; simpl; [|apply evolves_refl].
  repeat split; simpl; [eexists; reflexivity | | auto].
  intros q. now apply write_file_height_at with (p := p) (data := data).
Qed.

Lemma safe_get_binary : safe get_binary.
Proof.
  intros w. pose proof (get_binary_resolution w) as R.
  destruct (get_binary w) as [r w1]. simpl in *.
  destruct R as [b Hc | r w' V Hc Hfs Htr _ _ _ _ _ _]; [apply evolves_refl|].
  repeat split.
  - now exists V.
  - intros q. unfold height_at. now rewrite Hfs.
  - intros b Hb. congruence.
Qed.

Lemma safe_decrypt p home extra utf8 : safe (decrypt p home extra utf8).
Proof.
  unfold decrypt. apply safe_bind; [apply safe_get_binary|]. intros b.
  apply safe_bind.
  - destruct (truthy home); [|apply safe_ret].
    apply safe_bind; [apply safe_get_binary | intros; apply safe_ret].
  - intros argv. apply safe_bind; [apply safe_popen|]. intros o.
    unfold decode_utf8.
    repeat (break_match; try apply safe_ret; try apply safe_raise).
Qed.

Lemma safe_encrypt text rcpts dest home : safe (encrypt text rcpts dest home).
Proof.
  unfold encrypt. destruct rcpts as [|k ks]; [apply safe_raise|].
  apply safe_bind; [apply safe_get_fs|]. intros cur.
  apply safe_bind.
  { destruct dest; [|apply safe_ret].
    destruct (negb _); [apply safe_raise | apply safe_ret]. }
  intros _. apply safe_bind; [apply safe_get_binary|]. intros b.
  apply safe_bind.
  - destruct (truthy home); [|apply safe_ret].
    apply safe_bind; [apply safe_get_binary | intros; apply safe_ret].
  - intros argv. apply safe_bind; [apply safe_popen|]. intros o.
    destruct (re_match _ _); [apply safe_raise|].
    destruct (re_match _ _); [apply safe_raise|].
    destruct dest; [|apply safe_ret].
    apply safe_bind; [apply safe_open_write | intros; apply safe_ret].
Qed.

Lemma safe_reencrypt_file root keys home extra file :
  safe (reencrypt_file root keys home extra file).
Proof.
  unfold reencrypt_file. destruct (String.eqb _ _); [|apply safe_ret].
  apply safe_bind; [apply safe_decrypt|]. intros c.
  apply safe_bind; [apply safe_encrypt | intros; apply safe_ret].
Qed.

Lemma safe_recursive_reencrypt (fuel : nat) :
  forall p keys home extra, safe (recursive_reencrypt fuel p keys home extra).
Proof.
  induction fuel as [|fuel IH]; intros p keys home extra; simpl.
  - intros w. apply evolves_refl.
  - apply safe_bind; [apply safe_log|]. intros _.
    apply safe_bind; [apply safe_get_fs|]. intros cur.
    apply safe_for_each. intros [[root dirs] files] _.
    destruct (path_eqb root p).
    + apply safe_for_each. intros file _.
      apply (safe_reencrypt_file root keys home extra file).
    + apply safe_bind; [apply safe_get_fs|]. intros cur'.
      destruct (negb _); [apply IH | apply safe_ret].
Qed.

(** ** The loop of [recursive_reencrypt] *)

Lemma for_each_ext {A} (l : list A) (body1 body2 : A -> M unit) :
  (forall x w, In x l -> body1 x w = body2 x w) ->
  forall w, for_each l body1 w = for_each l body2 w.
Proof.
  induction l as [|x l IH]; intros H w; simpl; [reflexivity|].
  unfold bind. rewrite (H x w (or_introl eq_refl)).
  destruct (body2 x w) as [[[]| | |] w1]; try reflexivity.
  apply IH. intros y w' Hy. apply H. now right.
Qed.

Lemma bind_ext {A B} (c : M A) (k1 k2 : A -> M B) (w : world) :
  (forall a w', k1 a w' = k2 a w') -> bind c k1 w = bind c k2 w.
Proof.
  intros H. unfold bind. destruct (c w) as [[a| | |] w1]; try reflexivity. apply H.
Qed.

Lemma recursive_reencrypt_unfold fuel p keys home extra (w : world) :
  recursive_reencrypt (S fuel) p keys home extra w
  = let w0 := emit (EvCall p keys home extra) w in
    match lookup (fs w) p with
    | Some (Dir es) =>
        bind (for_each (file_names es) (reencrypt_file p keys home extra))
             (fun _ => for_each (walk_below p es) (reencrypt_subfolder fuel keys)) w0
    | _ => (Ret tt, w0)
    end.
Proof.
  change (recursive_reencrypt (S fuel) p keys home extra w)
    with (bind (log (EvCall p keys home extra)) (fun _ =>
          bind get_fs (fun cur =>
          for_each (walk cur p) (fun '(root, dirs, files) =>
            if path_eqb root p
            then for_each files (reencrypt_file root keys home extra)
            else reencrypt_subfolder fuel keys (root, dirs, files)))) w).
  unfold bind at 1. unfold log at 1. unfold bind at 1. unfold get_fs at 1.
  cbv zeta. unfold walk. simpl fs.
  destruct (lookup (fs w) p) as [[data|es]|]; try reflexivity.
  rewrite walk_node_dir. cbn [for_each]. rewrite path_eqb_refl.
  apply bind_ext. intros _ w'.
  apply for_each_ext. intros [[root dirs] files] w2 Hin.
  destruct (walk_below_roots _ _ _ Hin) as (name & q & Hq). simpl in Hq. subst root.
  rewrite path_eqb_below. reflexivity.
Qed.

(** ** Termination *)

Lemma total_ret {A} (a : A) : total (ret a).
Proof. intros w. discriminate. Qed.

Lemma total_raise {A} (e : exn) : total (@raise _ A e).
Proof. intros w. discriminate. Qed.

Lemma total_bind {A B} (c : M A) (k : A -> M B) :
  total c -> (forall a, total (k a)) -> total (bind c k).
Proof.
  intros Hc Hk w. unfold bind. specialize (Hc w).
  destruct (c w) as [[a| | |] w1]; simpl in *; try discriminate; [apply Hk | congruence].
Qed.

Lemma total_for_each {A} (l : list A) (body : A -> M unit) :
  (forall x, total (body x)) -> total (for_each l body).
Proof.
  intros H. induction l as [|x l IH]; simpl; [apply total_ret|].
  apply total_bind; [apply H | intros _; apply IH].
Qed.

Lemma total_get_binary : total get_binary.
Proof. intros w. apply get_binary_effects. Qed.

Lemma total_popen argv input : total (popen argv input).
Proof.
  intros w. unfold popen. destruct (spawn _ _ _ _) as [[o|] st]; discriminate.
Qed.

Lemma total_decrypt p home extra utf8 : total (decrypt p home extra utf8).
Proof.
  unfold decrypt. apply total_bind; [apply total_get_binary|]. intros b.
  apply total_bind.
  - destruct (truthy home); [|apply total_ret].
    apply total_bind; [apply total_get_binary | intros; apply total_ret].
  - intros argv. apply total_bind; [apply total_popen|]. intros o.
    unfold decode_utf8.
    repeat (break_match; try apply total_ret; try apply total_raise).
Qed.

Lemma total_encrypt text rcpts dest home : total (encrypt text rcpts dest home).
Proof.
  unfold encrypt. destruct rcpts as [|k ks]; [apply total_raise|].
  apply total_bind; [intros w; discriminate|]. intros cur.
  apply total_bind.
  { destruct dest; [|apply total_ret].
    destruct (negb _); [apply total_raise | apply total_ret]. }
  intros _. apply total_bind; [apply total_get_binary|]. intros b.
  apply total_bind.
  - destruct (truthy home); [|apply total_ret].
    apply total_bind; [apply total_get_binary | intros; apply total_ret].
  - intros argv. apply total_bind; [apply total_popen|]. intros o.
    destruct (re_match _ _); [apply total_raise|].
    destruct (re_match _ _); [apply total_raise|].
    destruct dest; [|apply total_ret].
    apply total_bind; [|intros; apply total_ret].
    intros w. unfold open_write. destruct (write_file _ _ _); discriminate.
Qed.

Lemma total_reencrypt_file root keys home extra file :
  total (reencrypt_file root keys home extra file).
Proof.
  unfold reencrypt_file. destruct (String.eqb _ _); [|apply total_ret].
  apply total_bind; [apply total_decrypt|]. intros c.
  apply total_bind; [apply total_encrypt | intros; apply total_ret].
Qed.

Lemma for_each_total_inv {A} (l : list A) (body : A -> M unit) (I : world -> Prop) :
  (forall x w, In x l -> I w ->
     fst (body x w) <> OutOfFuel /\ I (snd (body x w))) ->
  forall w, I w -> fst (for_each l body w) <> OutOfFuel.
Proof.
  induction l as [|x l IH]; intros H w Hw; cbn [for_each]; [discriminate|].
  unfold bind. destruct (H x w (or_introl eq_refl) Hw) as [Hne HI].
  destruct (body x w) as [[[]| | |] w1]; cbn [fst snd] in *;
    try discriminate; try congruence.
  apply IH; [|assumption]. intros y w' Hy. apply H. now right.
Qed.

Lemma safe_reencrypt_subfolder fuel keys item :
  safe (reencrypt_subfolder fuel keys item).
Proof.
  destruct item as [[root dirs] files]. unfold reencrypt_subfolder.
  apply safe_bind; [apply safe_get_fs|]. intros cur.
  destruct (negb _); [apply safe_recursive_reencrypt | apply safe_ret].
Qed.

(** Fuel above the depth of the folder is enough. *)
Lemma recursive_reencrypt_fuel (fuel : nat) :
  forall p keys home extra (w : world),
    (height_at (fs w) p < fuel)%nat ->
    fst (recursive_reencrypt fuel p keys home extra w) <> OutOfFuel.
Proof.
  induction fuel as [|fuel IH]; intros p keys home extra w Hh; [lia|].
  rewrite recursive_reencrypt_unfold. cbv zeta.
  destruct (lookup (fs w) p) as [[data|es]|] eqn:Hp; try discriminate.
  unfold bind.
  pose proof (safe_for_each (file_names es) (reencrypt_file p keys home extra)
                (fun x _ => safe_reencrypt_file p keys home extra x)
                (emit (EvCall p keys home extra) w)) as Hev.
  pose proof (total_for_each (file_names es) (reencrypt_file p keys home extra)
                (total_reencrypt_file p keys home extra)
                (emit (EvCall p keys home extra) w)) as Htot.
  destruct (for_each (file_names es) _ _) as [[[]| | |] w1]; cbn [fst snd] in *;
    try discriminate; try congruence.
  apply for_each_total_inv
    with (I := fun w' => forall q, height_at (fs w') q = height_at (fs w) q).
  - intros [[root dirs] files] w' Hin Hw'. split.
    + unfold reencrypt_subfolder, bind, get_fs.
      destruct (negb _); [|discriminate].
      apply IH. rewrite Hw'.
      destruct (walk_below_roots _ _ _ Hin) as (name & q & Hq). simpl in Hq. subst root.
      pose proof (height_at_below (fs w) p es name q Hp). lia.
    + intros q.
      destruct (safe_reencrypt_subfolder fuel keys (root, dirs, files) w')
        as (_ & Hq & _).
      now rewrite Hq.
  - intros q. destruct Hev as (_ & Hq & _). now rewrite Hq.
Qed.

Lemma for_each_agree {A} (l : list A) (body1 body2 : A -> M unit) :
  (forall x w, fst (body1 x w) <> OutOfFuel -> body2 x w = body1 x w) ->
  forall w, fst (for_each l body1 w) <> OutOfFuel ->
            for_each l body2 w = for_each l body1 w.
Proof.
  intros H. induction l as [|x l IH]; intros w Hne; simpl in *; [reflexivity|].
  unfold bind in *.
  destruct (body1 x w) as [r w1] eqn:E.
  assert (Hx : fst (body1 x w) <> OutOfFuel).
  { rewrite E. simpl. destruct r; simpl in *; congruence. }
  rewrite (H x w Hx), E.
  destruct r as [[]| | |]; try reflexivity. now apply IH.
Qed.

(** More fuel than needed changes nothing. *)
Lemma recursive_reencrypt_more_fuel (n : nat) :
  forall m p keys home extra (w : world),
    (n <= m)%nat ->
    fst (recursive_reencrypt n p keys home extra w) <> OutOfFuel ->
    recursive_reencrypt m p keys home extra w
    = recursive_reencrypt n p keys home extra w.
Proof.
  induction n as [|n IH]; intros m p keys home extra w Hle Hne;
    [simpl in Hne; congruence|].
  destruct m as [|m]; [lia|].
  rewrite recursive_reencrypt_unfold in Hne. rewrite !recursive_reencrypt_unfold.
  cbv zeta in *.
  destruct (lookup (fs w) p) as [[data|es]|]; try reflexivity.
  unfold bind in *.
  destruct (for_each (file_names es) _ _) as [[[]| | |] w1]; try reflexivity.
  apply for_each_agree; [|assumption].
  intros [[root dirs] files] w' Hx. unfold reencrypt_subfolder, bind, get_fs in *.
  destruct (negb _); [|reflexivity].
  apply IH; [lia | assumption].
Qed.

(** [recursive_reencrypt] terminates: from some amount of fuel on, the
    result is there and no longer depends on the fuel. *)
Theorem recursive_reencrypt_terminates p keys home extra (w : world) :
  exists fuel, forall m, (fuel <= m)%nat ->
    fst (recursive_reencrypt m p keys home extra w) <> OutOfFuel
    /\ recursive_reencrypt m p keys home extra w
       = recursive_reencrypt fuel p keys home extra w.
Proof.
  exists (S (height_at (fs w) p)). intros m Hm.
  assert (H : fst (recursive_reencrypt (S (height_at (fs w) p)) p keys home extra w)
              <> OutOfFuel) by (apply recursive_reencrypt_fuel; lia).
  rewrite (recursive_reencrypt_more_fuel _ m p keys home extra w Hm H).
  now split.
Qed.

(** ** One file of the folder *)



Lemma decrypt_ret_inv p home extra utf8 (w w' : world) c :
  decrypt p home extra utf8 w = (Ret c, w') ->
  exists b w1, get_binary w = (Ret b, w1)
               /\ decrypt_outcome p home extra utf8 b w1 = (Ret c, w').
Proof.
  intros H. destruct (get_binary w) as [r w1] eqn:Hb.
  destruct r as [b| | |].
  - exists b, w1. split; [reflexivity|].
    now rewrite <- (decrypt_resolved p home extra utf8 w w1 b Hb).
  - destruct (decrypt_unresolved p home extra utf8 w w1 _ Hb) as (r' & E & Hr');
      [discriminate|]. rewrite E in H. inversion H; subst. now destruct (Hr' c).
  - destruct (decrypt_unresolved p home extra utf8 w w1 _ Hb) as (r' & E & Hr');
      [discriminate|]. rewrite E in H. inversion H; subst. now destruct (Hr' c).
  - destruct (decrypt_unresolved p home extra utf8 w w1 _ Hb) as (r' & E & Hr');
      [discriminate|]. rewrite E in H. inversion H; subst. now destruct (Hr' c).
Qed.





(** A file whose name does not end in [.gpg] is passed over. *)
Lemma reencrypt_file_other root keys home extra file (w : world) :
  is_gpg_name file = false ->
  reencrypt_file root keys home extra file w = (Ret tt, w).
Proof. unfold reencrypt_file, is_gpg_name. now intros ->. Qed.


(** ** What a computation adds to the trace *)

Lemma emits_weaken {A} (P Q : event -> Prop) (c : M A) :
  (forall e, P e -> Q e) -> emits P c -> emits Q c.
Proof.
  intros H Hc w. destruct (Hc w) as (T & Ht & HT). exists T. split; [assumption|].
  eapply Forall_impl; eassumption.
Qed.

Lemma emits_ret {A} P (a : A) : emits P (ret a).
Proof. intros w. exists []. simpl. now rewrite app_nil_r. Qed.

Lemma emits_raise {A} P (e : exn) : emits P (@raise _ A e).
Proof. intros w. exists []. simpl. now rewrite app_nil_r. Qed.

Lemma emits_bind {A B} P (c : M A) (k : A -> M B) :
  emits P c -> (forall a, emits P (k a)) -> emits P (bind c k).
Proof.
  intros Hc Hk w. unfold bind. destruct (Hc w) as (T & Ht & HT).
  destruct (c w) as [[a| | |] w1]; simpl in *; try (now exists T).
  destruct (Hk a w1) as (T' & Ht' & HT').
  exists (T ++ T'). rewrite Ht', Ht, app_assoc. split; [reflexivity|].
  apply Forall_app. now split.
Qed.

Lemma emits_for_each {A} P (l : list A) (body : A -> M unit) :
  (forall x, In x l -> emits P (body x)) -> emits P (for_each l body).
Proof.
  induction l as [|x l IH]; intros H; simpl; [apply emits_ret|].
  apply emits_bind; [apply H; now left|].
  intros _. apply IH. intros y Hy. apply H. now right.
Qed.

Lemma emits_get_fs P : emits P get_fs.
Proof. intros w. exists []. simpl. now rewrite app_nil_r. Qed.

Lemma emits_log (P : event -> Prop) (e : event) : P e -> emits P (log e).
Proof. intros H w. exists [e]. simpl. split; [reflexivity | now constructor]. Qed.

Lemma emits_popen (P : event -> Prop) argv input :
  (forall res, P (EvSpawn argv input res)) -> emits P (popen argv input).
Proof.
  intros H w. unfold popen. destruct (spawn _ _ _ _) as [[o|] st]; simpl;
    eexists; (split; [reflexivity | constructor; [apply H | constructor]]).
Qed.

Lemma emits_open_write (P : event -> Prop) p data :
  P (EvWrite p data) -> emits P (open_write p data).
Proof.
  intros H w. unfold open_write. destruct (write_file _ _ _); simpl.
  - eexists. split; [reflexivity | now constructor].
  - exists []. now rewrite app_nil_r.
Qed.

Lemma emits_get_binary (P : event -> Prop) :
  (forall argv input res, P (EvSpawn argv input res)) -> emits P get_binary.
Proof.
  intros H w. pose proof (get_binary_resolution w) as R.
  destruct (get_binary w) as [r w1]. simpl in *.
  destruct R as [b Hc | r w' V Hc Hfs Htr HV _ _ _ _ _].
  - exists []. now rewrite app_nil_r.
  - exists V. split; [assumption|].
    clear - HV H. induction HV as [|e V He _ IH]; constructor; [|assumption].
    destruct e; simpl in He; try discriminate. apply H.
Qed.

Lemma emits_decrypt (P : event -> Prop) p home extra utf8 :
  (forall argv input res, P (EvSpawn argv input res)) ->
  emits P (decrypt p home extra utf8).
Proof.
  intros H. unfold decrypt. apply emits_bind; [now apply emits_get_binary|]. intros b.
  apply emits_bind.
  - destruct (truthy home); [|apply emits_ret].
    apply emits_bind; [now apply emits_get_binary | intros; apply emits_ret].
  - intros argv. apply emits_bind; [apply emits_popen; intros; apply H|]. intros o.
    unfold decode_utf8.
    repeat (break_match; try apply emits_ret; try apply emits_raise).
Qed.

Lemma emits_encrypt text rcpts dest home :
  emits (spawn_or_write dest) (encrypt text rcpts dest home).
Proof.
  unfold encrypt. destruct rcpts as [|k ks]; [apply emits_raise|].
  apply emits_bind; [apply emits_get_fs|]. intros cur.
  apply emits_bind.
  { destruct dest; [|apply emits_ret].
    destruct (negb _); [apply emits_raise | apply emits_ret]. }
  intros _. apply emits_bind; [apply emits_get_binary; intros; exact I|]. intros b.
  apply emits_bind.
  - destruct (truthy home); [|apply emits_ret].
    apply emits_bind; [apply emits_get_binary; intros; exact I
                      | intros; apply emits_ret].
  - intros argv. apply emits_bind; [apply emits_popen; intros; exact I|]. intros o.
    destruct (re_match _ _); [apply emits_raise|].
    destruct (re_match _ _); [apply emits_raise|].
    destruct dest; [|apply emits_ret].
    apply emits_bind; [apply emits_open_write; reflexivity | intros; apply emits_ret].
Qed.

Lemma emits_reencrypt_file root keys home extra file :
  emits (spawn_or_write (Some (path_join root file)))
        (reencrypt_file root keys home extra file).
Proof.
  unfold reencrypt_file. destruct (String.eqb _ _); [|apply emits_ret].
  cbv zeta. apply emits_bind; [apply emits_decrypt; intros; exact I|]. intros c.
  apply emits_bind; [apply emits_encrypt | intros; apply emits_ret].
Qed.

Lemma event_under_below root name q keys e :
  event_under (root ++ name :: q) keys e -> event_below root keys e.
Proof.
  destruct e as [r k h x | argv input res | r data]; simpl; [| trivial |].
  - intros ((s & ->) & Hk). split; [|assumption].
    exists name, (q ++ s). now rewrite <- app_assoc.
  - intros (s & Hs & ->). exists name, (q ++ s). split.
    + destruct q; [assumption | discriminate].
    + now rewrite <- app_assoc.
Qed.

Lemma event_below_under root keys e :
  event_below root keys e -> event_under root keys e.
Proof.
  destruct e as [r k h x | argv input res | r data]; simpl; [| trivial |].
  - intros ((name & s & ->) & Hk). split; [|assumption]. now exists (name :: s).
  - intros (name & s & Hs & ->). exists (name :: s). split; [discriminate | reflexivity].
Qed.

(** The calls that [recursive_reencrypt] makes and the files it writes lie
    below its folder; the calls it makes on itself pass the keys on and
    neither the gpg home nor the additional parameters. *)
Lemma emits_recursive_reencrypt (fuel : nat) :
  forall root keys,
    emits (event_under root keys) (recursive_reencrypt fuel root keys None None).
Proof.
  induction fuel as [|fuel IH]; intros root keys.
  - intros w. exists []. simpl. now rewrite app_nil_r.
  - cbn [recursive_reencrypt].
    apply emits_bind.
    { apply emits_log. simpl. split; [|now repeat split].
      exists []. now rewrite app_nil_r. }
    intros _. apply emits_bind; [apply emits_get_fs|]. intros cur.
    apply emits_for_each. intros [[r dirs] files] Hin.
    unfold walk in Hin. destruct (lookup cur root) as [n|]; [|destruct Hin].
    destruct (walk_node_roots _ _ _ Hin) as (q & Hq). simpl in Hq. subst r.
    destruct (path_eqb (root ++ q) root) eqn:E.
    + apply emits_for_each. intros file _.
      apply emits_weaken with (P := spawn_or_write (Some (path_join (root ++ q) file)));
        [|apply (emits_reencrypt_file (root ++ q) keys None None file)].
      intros [r k h x | argv input res | r data]; simpl; try tauto.
      intros H. inversion H; subst. exists (q ++ [file]). split.
      * destruct q; discriminate.
      * unfold path_join. now rewrite app_assoc.
    + apply emits_bind; [apply emits_get_fs|]. intros cur'.
      destruct (negb _); [|apply emits_ret].
      destruct q as [|name q]; [rewrite app_nil_r, path_eqb_refl in E; discriminate|].
      apply emits_weaken with (P := event_under (root ++ name :: q) keys); [|apply IH].
      intros e He. apply event_below_under. now apply event_under_below in He.
Qed.

Lemma emits_reencrypt_subfolder fuel keys root es item :
  In item (walk_below root es) ->
  emits (event_below root keys) (reencrypt_subfolder fuel keys item).
Proof.
  intros Hin. destruct (walk_below_roots _ _ _ Hin) as (name & q & Hq).
  destruct item as [[r dirs] files]. simpl in Hq. subst r.
  unfold reencrypt_subfolder.
  apply emits_bind; [apply emits_get_fs|]. intros cur.
  destruct (negb _); [|apply emits_ret].
  apply emits_weaken with (P := event_under (root ++ name :: q) keys);
    [|apply emits_recursive_reencrypt].
  intros e. apply event_under_below.
Qed.

(** ** The file system follows the trace *)

Lemma apply_writes_app (fs : node) (T1 T2 : list event) :
  apply_writes fs (T1 ++ T2) = apply_writes (apply_writes fs T1) T2.
Proof.
  revert fs. induction T1 as [|e T1 IH]; intros fs; simpl; [reflexivity|].
  destruct e as [| |q data]; try apply IH.
  destruct (write_file fs q data); apply IH.
Qed.

Lemma apply_writes_no_write (fs : node) (T : list event) :
  filter is_write T = [] -> apply_writes fs T = fs.
Proof.
  induction T as [|e T IH]; simpl; [reflexivity|].
  destruct e; simpl; try assumption. discriminate.
Qed.

Lemma replays_ret {A} (a : A) : replays (ret a).
Proof. intros w. exists []. simpl. now rewrite app_nil_r. Qed.

Lemma replays_raise {A} (e : exn) : replays (@raise _ A e).
Proof. intros w. exists []. simpl. now rewrite app_nil_r. Qed.

Lemma replays_bind {A B} (c : M A) (k : A -> M B) :
  replays c -> (forall a, replays (k a)) -> replays (bind c k).
Proof.
  intros Hc Hk w. unfold bind. destruct (Hc w) as (T & Ht & Hfs).
  destruct (c w) as [[a| | |] w1]; simpl in *; try (now exists T).
  destruct (Hk a w1) as (T' & Ht' & Hfs').
  exists (T ++ T'). rewrite Ht', Ht, app_assoc. split; [reflexivity|].
  now rewrite apply_writes_app, <- Hfs.
Qed.

Lemma replays_for_each {A} (l : list A) (body : A -> M unit) :
  (forall x, In x l -> replays (body x)) -> replays (for_each l body).
Proof.
  induction l as [|x l IH]; intros H; simpl; [apply replays_ret|].
  apply replays_bind; [apply H; now left|].
  intros _. apply IH. intros y Hy. apply H. now right.
Qed.

Lemma replays_get_fs : replays get_fs.
Proof. intros w. exists []. simpl. now rewrite app_nil_r. Qed.

Lemma replays_log (e : event) : is_write e = false -> replays (log e).
Proof.
  intros H w. exists [e]. simpl. split; [reflexivity|].
  destruct e; try reflexivity. discriminate.
Qed.

Lemma replays_popen argv input : replays (popen argv input).
Proof.
  intros w. unfold popen. destruct (spawn _ _ _ _) as [[o|] st]; simpl;
    eexists; (split; reflexivity).
Qed.

Lemma replays_open_write p data : replays (open_write p data).
Proof.
  intros w. unfold open_write. destruct (write_file (fs w) p data) eqn:E; simpl.
  - eexists. split; [reflexivity|]. simpl. now rewrite E.
  - exists []. now rewrite app_nil_r.
Qed.

Lemma replays_get_binary : replays get_binary.
Proof.
  intros w. pose proof (get_binary_resolution w) as R.
  pose proof (get_binary_effects w) as (_ & Hwr & _).
  destruct (get_binary w) as [r w1]. simpl in *.
  destruct R as [b Hc | r w' V Hc Hfs Htr HV _ _ _ _ _].
  - exists []. now rewrite app_nil_r.
  - exists V. split; [assumption|]. rewrite Hfs. symmetry.
    apply apply_writes_no_write.
    rewrite Htr, filter_app in Hwr.
    apply (f_equal (@length event)) in Hwr. rewrite length_app in Hwr.
    destruct (filter is_write V); [reflexivity | simpl in Hwr; lia].
Qed.

Lemma replays_decrypt p home extra utf8 : replays (decrypt p home extra utf8).
Proof.
  unfold decrypt. apply replays_bind; [apply replays_get_binary|]. intros b.
  apply replays_bind.
  - destruct (truthy home); [|apply replays_ret].
    apply replays_bind; [apply replays_get_binary | intros; apply replays_ret].
  - intros argv. apply replays_bind; [apply replays_popen|]. intros o.
    unfold decode_utf8.
    repeat (break_match; try apply replays_ret; try apply replays_raise).
Qed.

Lemma replays_encrypt text rcpts dest home : replays (encrypt text rcpts dest home).
Proof.
  unfold encrypt. destruct rcpts as [|k ks]; [apply replays_raise|].
  apply replays_bind; [apply replays_get_fs|]. intros cur.
  apply replays_bind.
  { destruct dest; [|apply replays_ret].
    destruct (negb _); [apply replays_raise | apply replays_ret]. }
  intros _. apply replays_bind; [apply replays_get_binary|]. intros b.
  apply replays_bind.
  - destruct (truthy home); [|apply replays_ret].
    apply replays_bind; [apply replays_get_binary | intros; apply replays_ret].
  - intros argv. apply replays_bind; [apply replays_popen|]. intros o.
    destruct (re_match _ _); [apply replays_raise|].
    destruct (re_match _ _); [apply replays_raise|].
    destruct dest; [|apply replays_ret].
    apply replays_bind; [apply replays_open_write | intros; apply replays_ret].
Qed.

Lemma replays_reencrypt_file root keys home extra file :
  replays (reencrypt_file root keys home extra file).
Proof.
  unfold reencrypt_file. destruct (String.eqb _ _); [|apply replays_ret].
  apply replays_bind; [apply replays_decrypt|]. intros c.
  apply replays_bind; [apply replays_encrypt | intros; apply replays_ret].
Qed.

Lemma replays_recursive_reencrypt (fuel : nat) :
  forall p keys home extra, replays (recursive_reencrypt fuel p keys home extra).
Proof.
  induction fuel as [|fuel IH]; intros p keys home extra; simpl.
  - intros w. exists []. simpl. now rewrite app_nil_r.
  - apply replays_bind; [now apply replays_log|]. intros _.
    apply replays_bind; [apply replays_get_fs|]. intros cur.
    apply replays_for_each. intros [[root dirs] files] _.
    destruct (path_eqb root p).
    + apply replays_for_each. intros file _.
      apply (replays_reencrypt_file root keys home extra file).
    + apply replays_bind; [apply replays_get_fs|]. intros cur'.
      destruct (negb _); [apply IH | apply replays_ret].
Qed.


(** ** Files that are not written keep their content *)


Lemma write_file_other_file (q : path) (data : string) :
  forall fs fs' x content,
    write_file fs q data = inl fs' -> x <> q ->
    lookup fs x = Some (File content) -> lookup fs' x = Some (File content).
Proof.
  induction q as [|name q IH]; intros fs fs' x content H Hne Hx; simpl in H.
  - destruct fs as [old|es]; inversion H; subst.
    destruct x as [|n x]; [congruence | discriminate].
  - destruct fs as [old|es]; [discriminate|].
    destruct x as [|n x]; [discriminate|]. simpl in Hx.
    destruct (find_entry name es) as [ch|] eqn:E.
    + destruct (write_file ch q data) as [ch'|] eqn:W; inversion H; subst; clear H.
      simpl. destruct (string_dec n name) as [->|Hn].
      * rewrite (find_update_same _ _ _ _ E). rewrite E in Hx.
        apply (IH ch ch' x content W); [congruence | assumption].
      * now rewrite (find_update_other _ _ _ _ Hn).
    + destruct q; inversion H; subst; clear H. simpl.
      destruct (string_dec n name) as [->|Hn].
      * rewrite E in Hx. discriminate.
      * now rewrite (find_app_other _ _ _ _ Hn).
Qed.

Lemma apply_writes_other_file (T : list event) :
  forall fs x content,
    (forall q data, In (EvWrite q data) T -> q <> x) ->
    lookup fs x = Some (File content) ->
    lookup (apply_writes fs T) x = Some (File content).
Proof.
  induction T as [|e T IH]; intros fs x content H Hx; simpl; [assumption|].
  assert (HT : forall q data, In (EvWrite q data) T -> q <> x)
    by (intros q data Hin; apply (H q data); now right).
  destruct e as [| |q data]; try now apply IH.
  destruct (write_file fs q data) as [fs'|] eqn:W; [|now apply IH].
  apply IH; [assumption|].
  apply (write_file_other_file q data fs fs' x content W); [|assumption].
  intros ->. apply (H q data); [now left | reflexivity].
Qed.

(** A computation that writes to other files only leaves a file as it
    is. *)
Lemma frame_file {A} (c : M A) (P : event -> Prop) (x : path) (content : string) :
  emits P c -> replays c ->
  (forall q data, P (EvWrite q data) -> q <> x) ->
  forall w, lookup (fs w) x = Some (File content) ->
            lookup (fs (snd (c w))) x = Some (File content).
Proof.
  intros He Hr HP w Hx.
  destruct (He w) as (T1 & Ht1 & HT1). destruct (Hr w) as (T2 & Ht2 & Hfs).
  assert (T1 = T2) by (rewrite Ht1 in Ht2; now apply app_inv_head in Ht2).
  subst T2. rewrite Hfs. apply apply_writes_other_file; [|assumption].
  intros q data Hin. apply (HP q data). rewrite Forall_forall in HT1. now apply HT1.
Qed.


Lemma emits_reencrypt_files root keys home extra (files : list string) :
  emits (fun e => exists g, In g files /\ spawn_or_write (Some (path_join root g)) e)
        (for_each files (reencrypt_file root keys home extra)).
Proof.
  apply emits_for_each. intros g Hg.
  apply emits_weaken with (P := spawn_or_write (Some (path_join root g)));
    [|apply emits_reencrypt_file].
  intros e He. now exists g.
Qed.

(** ** The files of the folder *)







(** ** The listings stay as they are *)

Lemma skeleton_dir (es : list (string * node)) :
  skeleton (Dir es) = Dir (map (fun e => (fst e, skeleton (snd e))) es).
Proof.
  simpl. f_equal. induction es as [|[k c] es IH]; simpl; [reflexivity | now rewrite IH].
Qed.

Lemma find_entry_skeleton name (es : list (string * node)) :
  find_entry name (map (fun e => (fst e, skeleton (snd e))) es)
  = option_map skeleton (find_entry name es).
Proof.
  induction es as [|[k c] es IH]; simpl; [reflexivity|].
  destruct (String.eqb k name); [reflexivity | exact IH].
Qed.

Lemma lookup_skeleton (p : path) :
  forall fs, lookup (skeleton fs) p = option_map skeleton (lookup fs p).
Proof.
  induction p as [|name p IH]; intros fs; [reflexivity|].
  destruct fs as [data|es]; [reflexivity|].
  rewrite skeleton_dir. simpl lookup. rewrite find_entry_skeleton.
  destruct (find_entry name es) as [c|]; simpl; [apply IH | reflexivity].
Qed.

Lemma path_exists_skeleton (fs fs' : node) (p : path) :
  skeleton fs' = skeleton fs -> path_exists fs' p = path_exists fs p.
Proof.
  intros H. unfold path_exists.
  pose proof (lookup_skeleton p fs) as H1. pose proof (lookup_skeleton p fs') as H2.
  rewrite H in H2. rewrite H1 in H2.
  destruct (lookup fs p), (lookup fs' p); simpl in H2; congruence.
Qed.

Lemma skeleton_update name c c' (es : list (string * node)) :
  find_entry name es = Some c -> skeleton c' = skeleton c ->
  map (fun e => (fst e, skeleton (snd e))) (update_entry name c' es)
  = map (fun e => (fst e, skeleton (snd e))) es.
Proof.
  intros Hf Hs. induction es as [|[k n] es IH]; simpl in *; [reflexivity|].
  destruct (String.eqb k name); simpl.
  - inversion Hf; subst. now rewrite Hs.
  - now rewrite IH.
Qed.

(** Writing to a path that exists changes the content of a file and
    nothing else. *)
Lemma write_file_skeleton (q : path) (data : string) :
  forall fs fs', write_file fs q data = inl fs' -> path_exists fs q = true ->
                 skeleton fs' = skeleton fs.
Proof.
  unfold path_exists.
  induction q as [|name q IH]; intros fs fs' H Hx; simpl in H.
  - destruct fs; inversion H; reflexivity.
  - destruct fs as [old|es]; [discriminate|]. simpl in Hx.
    destruct (find_entry name es) as [c|] eqn:E; [|discriminate].
    destruct (write_file c q data) as [c'|] eqn:W; inversion H; subst; clear H.
    rewrite !skeleton_dir. f_equal.
    apply skeleton_update with (c := c); [assumption|].
    now apply IH.
Qed.

Lemma apply_writes_skeleton (T : list event) :
  forall fs,
    (forall q data, In (EvWrite q data) T -> path_exists fs q = true) ->
    skeleton (apply_writes fs T) = skeleton fs.
Proof.
  induction T as [|e T IH]; intros fs H; simpl; [reflexivity|].
  assert (HT : forall q data, In (EvWrite q data) T -> path_exists fs q = true)
    by (intros q data Hin; apply (H q data); now right).
  destruct e as [| |q data]; try now apply IH.
  destruct (write_file fs q data) as [fs'|] eqn:W; [|now apply IH].
  assert (Hs : skeleton fs' = skeleton fs).
  { apply (write_file_skeleton q data fs fs' W). apply (H q data). now left. }
  rewrite <- Hs. apply IH. intros q' data' Hin.
  rewrite (path_exists_skeleton fs fs' q' Hs). now apply (HT q' data').
Qed.

Lemma skeleton_writes_exist {A} (c : M A) (P : event -> Prop) (w : world) :
  emits P c -> replays c ->
  (forall q data, P (EvWrite q data) -> path_exists (fs w) q = true) ->
  skeleton (fs (snd (c w))) = skeleton (fs w).
Proof.
  intros He Hr HP.
  destruct (He w) as (T1 & Ht1 & HT1). destruct (Hr w) as (T2 & Ht2 & Hfs).
  assert (T1 = T2) by (rewrite Ht1 in Ht2; now apply app_inv_head in Ht2).
  subst T2. rewrite Hfs. apply apply_writes_skeleton.
  intros q data Hin. apply (HP q data). rewrite Forall_forall in HT1. now apply HT1.
Qed.

Lemma keeps_ret {A} (a : A) : keeps_listings (ret a).
Proof. intros w. reflexivity. Qed.

Lemma keeps_bind {A B} (c : M A) (k : A -> M B) :
  keeps_listings c -> (forall a, keeps_listings (k a)) -> keeps_listings (bind c k).
Proof.
  intros Hc Hk w. unfold bind. specialize (Hc w).
  destruct (c w) as [[a| | |] w1]; simpl in *; try assumption.
  now rewrite (Hk a w1).
Qed.

Lemma keeps_for_each {A} (l : list A) (body : A -> M unit) :
  (forall x, In x l -> keeps_listings (body x)) -> keeps_listings (for_each l body).
Proof.
  induction l as [|x l IH]; intros H; simpl; [apply keeps_ret|].
  apply keeps_bind; [apply H; now left|].
  intros _. apply IH. intros y Hy. apply H. now right.
Qed.

Lemma file_names_exist (fs : node) (p : path) (es : list (string * node)) file :
  lookup fs p = Some (Dir es) -> In file (file_names es) ->
  path_exists fs (path_join p file) = true.
Proof.
  intros Hp Hin. unfold path_exists, path_join. rewrite lookup_app, Hp. simpl.
  unfold file_names in Hin. apply in_map_iff in Hin as ([k c] & <- & Hin).
  apply filter_In in Hin as [Hin _]. simpl. clear Hp.
  induction es as [|[k' c'] es IH]; [destruct Hin|]. simpl.
  destruct (String.eqb k' k) eqn:E; [reflexivity|].
  destruct Hin as [Heq|Hin]; [|now apply IH].
  inversion Heq; subst. now rewrite String.eqb_refl in E.
Qed.

(** [recursive_reencrypt] changes the content of files only: every
    directory lists the same names before, during and after the call, which
    is why the walk may be read when the call starts. *)
Lemma keeps_recursive_reencrypt (fuel : nat) :
  forall p keys home extra,
    keeps_listings (recursive_reencrypt fuel p keys home extra).
Proof.
  induction fuel as [|fuel IH]; intros p keys home extra w; [reflexivity|].
  rewrite recursive_reencrypt_unfold. cbv zeta.
  destruct (lookup (fs w) p) as [[data|es]|] eqn:Hp; try reflexivity.
  unfold bind.
  assert (Hfiles : skeleton (fs (snd (for_each (file_names es)
                      (reencrypt_file p keys home extra)
                      (emit (EvCall p keys home extra) w)))) = skeleton (fs w)).
  { apply (skeleton_writes_exist
             (for_each (file_names es) (reencrypt_file p keys home extra))
             _ (emit (EvCall p keys home extra) w)
             (emits_reencrypt_files p keys home extra (file_names es))
             (replays_for_each _ _
                (fun x _ => replays_reencrypt_file p keys home extra x))).
    intros q data (g & Hin & Hq). simpl in Hq. injection Hq as <-.
    simpl fs. now apply file_names_exist with (es := es). }
  destruct (for_each (file_names es) _ _) as [[[]| | |] w1]; simpl in *;
    try assumption.
  rewrite <- Hfiles.
  apply (keeps_for_each (walk_below p es) (reencrypt_subfolder fuel keys)).
  intros [[root dirs] files] _. unfold reencrypt_subfolder.
  apply keeps_bind; [intros w2; reflexivity|]. intros cur.
  destruct (negb _); [apply IH | apply keeps_ret].
Qed.

Lemma skeleton_is_dir (n : node) : is_dir (skeleton n) = is_dir n.
Proof. destruct n; reflexivity. Qed.

Lemma dir_names_skeleton (es : list (string * node)) :
  dir_names (map (fun e => (fst e, skeleton (snd e))) es) = dir_names es.
Proof.
  unfold dir_names. induction es as [|[k c] es IH]; simpl; [reflexivity|].
  rewrite skeleton_is_dir. destruct (is_dir c); simpl; now rewrite IH.
Qed.

Lemma file_names_skeleton (es : list (string * node)) :
  file_names (map (fun e => (fst e, skeleton (snd e))) es) = file_names es.
Proof.
  unfold file_names. induction es as [|[k c] es IH]; simpl; [reflexivity|].
  rewrite skeleton_is_dir. destruct (is_dir c); simpl; now rewrite IH.
Qed.

Lemma walk_node_skeleton (n : node) :
  forall root, walk_node root (skeleton n) = walk_node root n.
Proof.
  induction n as [data | es IH] using node_induction; intros root; [reflexivity|].
  rewrite skeleton_dir, !walk_node_dir.
  rewrite dir_names_skeleton, file_names_skeleton. f_equal.
  unfold walk_below. induction es as [|[k c] es IHes]; simpl; [reflexivity|].
  inversion IH as [|? ? Hc Hes]; subst. simpl in Hc.
  now rewrite Hc, IHes.
Qed.

(** The walk of any folder is the same after the call as before it. *)
Theorem recursive_reencrypt_keeps_walk fuel p keys home extra (w : world) top :
  walk (fs (snd (recursive_reencrypt fuel p keys home extra w))) top = walk (fs w) top.
Proof.
  pose proof (keeps_recursive_reencrypt fuel p keys home extra w) as H.
  unfold walk.
  pose proof (lookup_skeleton top (fs w)) as H1.
  pose proof (lookup_skeleton top
                (fs (snd (recursive_reencrypt fuel p keys home extra w)))) as H2.
  rewrite H, H1 in H2.
  destruct (lookup (fs w) top) as [n|],
           (lookup (fs (snd (recursive_reencrypt fuel p keys home extra w))) top)
             as [n'|]; simpl in H2; try discriminate; [|reflexivity].
  inversion H2 as [Hn].
  rewrite <- (walk_node_skeleton n), <- (walk_node_skeleton n'). now rewrite Hn.
Qed.

End Properties.

(* ================================================================== *)
(** * The properties on concrete stores *)

(** C1.  On [boundary_store] the directory [T] owns a recipient file, and
    [recursive_reencrypt] on [R] still encrypts [T/U/e.gpg] again: the walk
    goes on below [T], where [U] has no recipient file of its own.  The
    algorithm of the specification leaves the file as it is. *)
Theorem reencrypt_crosses_boundary :
  let w := test_world boundary_store in
  let code := recursive_reencrypt 4 ["R"] ["me"; "K3"] None None w in
  let spec := spec_reencrypt_tree 4 ["R"] ["me"; "K3"] None None w in
  let e_gpg := ["R"; "T"; "U"; "e.gpg"] in
  path_exists (fs w) ["R"; "T"; ".gpg-id"] = true
  /\ fst code = Ret tt
  /\ read_file (fs w) e_gpg = inl "K2,me|epsilon"
  /\ read_file (fs (snd code)) e_gpg = inl "me,K3|epsilon"
  /\ In (EvWrite e_gpg "me,K3|epsilon") (trace (snd code))
  /\ read_file (fs (snd code)) ["R"; "T"; "d.gpg"] = inl "K2,me|delta"
  /\ fst spec = Ret tt
  /\ read_file (fs (snd spec)) e_gpg = inl "K2,me|epsilon".
Proof.
  vm_compute. repeat split; try reflexivity.
  repeat (first [left; reflexivity | right]).
Qed.

(** C2.  On [nested_store] the call on [R] calls itself on [R/S] and also on
    [R/S/V], which is not a direct sub-directory of [R]; [R/S/V] is entered
    twice and its file is encrypted twice.  With keys that the caller
    cannot decrypt, the second round fails, where the algorithm of the
    specification succeeds. *)
Theorem reencrypt_enters_nested_directories :
  let w := test_world nested_store in
  let home := Some "/home/me/.gnupg" in
  let extra := Some ["--batch"] in
  let code := recursive_reencrypt 4 ["R"] ["me"; "K3"] home extra w in
  let spec := spec_reencrypt_tree 4 ["R"] ["me"; "K3"] home extra w in
  calls_of (trace (snd code)) = [["R"]; ["R"; "S"]; ["R"; "S"; "V"]; ["R"; "S"; "V"]]
  /\ calls_of (trace (snd spec)) = [["R"]; ["R"; "S"]; ["R"; "S"; "V"]]
  /\ length (filter is_write (trace (snd code))) = 2
  /\ length (filter is_write (trace (snd spec))) = 1
  /\ fst (recursive_reencrypt 4 ["R"] ["K3"] home extra w)
     = Raise (ValueError "no secret key")
  /\ fst (spec_reencrypt_tree 4 ["R"] ["K3"] home extra w) = Ret tt.
Proof. vm_compute. repeat split; reflexivity. Qed.

(** C4: what is returned for a line is not the sixteen digits alone, it
    begins with the word [keyid]. *)
Lemma list_packets_token_counterexample :
  let r := fst (list_packets ["f.gpg"] (test_world packet_store)) in
  r = Ret ["keyid 0123456789ABCDEF"; "keyid FEDCBA9876543210"]
  /\ r <> Ret ["0123456789ABCDEF"; "FEDCBA9876543210"]
  /\ String.length "keyid 0123456789ABCDEF" = 22.
Proof. vm_compute. repeat split; [discriminate]. Qed.

(** C5: diagnostics that name a missing file whose name holds the words of
    the missing secret key are classified as a missing secret key, where
    the priority list of the specification says that the file was not
    found; [can't open] without [No such file or directory] is an unknown
    error, not a missing file; a missing secret key that is reported on the
    second line of the diagnostics, after a warning, is an unknown error;
    and an output that is not empty and not UTF-8 is no success when text
    is asked for. *)
Lemma decrypt_priority_counterexample :
  let name := "decryption failed: No secret key.gpg" in
  let diag1 :=
    [(Err, line "gpg: can't open 'decryption failed: No secret key.gpg': No such file or directory");
     (Err, line "gpg: decrypt_message failed: No such file or directory")] in
  let diag2 := [(Err, line "gpg: can't open 'a.gpg': Permission denied")] in
  let diag3 :=
    [(Err, line "gpg: WARNING: unsafe permissions on homedir '/home/me/.gnupg'");
     (Err, line "gpg: decryption failed: No secret key")] in
  let out4 := [(Out, String (ascii_of_nat 255) "secret");
               (Err, line "gpg: WARNING: message was not integrity protected")] in
  (fst (decrypt [name] None None true (canned_world diag1 (Dir [])))
   = Raise (ValueError "no secret key")
   /\ kind_of (ValueError "no secret key") = NoSecretKey
   /\ spec_diagnostic_kind (printed_on Err diag1) = FileNotFound)
  /\ (fst (decrypt ["a.gpg"] None None true (canned_world diag2 (Dir [])))
      = Raise (UnknownGpgError (printed_on Err diag2))
      /\ spec_diagnostic_kind (printed_on Err diag2) = FileNotFound)
  /\ (fst (decrypt ["a.gpg"] (Some "/home/me/.gnupg") None true
                   (canned_world diag3 (Dir [])))
      = Raise (UnknownGpgError (printed_on Err diag3))
      /\ contains "decryption failed: No secret key" (printed_on Err diag3) = true
      /\ spec_diagnostic_kind (printed_on Err diag3) = NoSecretKey)
  /\ (printed_on Out out4 <> EmptyString
      /\ fst (decrypt ["a.gpg"] None None true (canned_world out4 (Dir [])))
         = Raise UnicodeDecodeError
      /\ fst (decrypt ["a.gpg"] None None false (canned_world out4 (Dir [])))
         = Ret (printed_on Out out4)).
Proof. vm_compute. repeat split; try reflexivity. discriminate. Qed.


(** C7: without recipients the missing parent directory is not what is
    reported. *)
Lemma encrypt_missing_parent_counterexample :
  let w := test_world (Dir []) in
  let r := encrypt "secret" [] (Some ["missing"; "f.gpg"]) None w in
  path_exists (fs w) (dirname ["missing"; "f.gpg"]) = false
  /\ r = (Raise (ValueError "no recipients"), w)
  /\ forall msg, fst r <> Raise (FileNotFoundError msg).
Proof. vm_compute. repeat split; discriminate. Qed.

(** ** Instances of the general properties *)

(** C7: recipients, and a destination in a directory that does not exist. *)
Lemma encrypt_preconditions_witness :
  encrypt "secret" ["K1"] (Some ["missing"; "f.gpg"]) None (test_world boundary_store)
  = (Raise (FileNotFoundError (Some "specified file path does not exist")),
     test_world boundary_store).
Proof.
  apply (proj2 (encrypt_preconditions (BK := test_backend) "secret" ["K1"]
                  (Some ["missing"; "f.gpg"]) None (test_world boundary_store)))
    with (p := ["missing"; "f.gpg"]); [discriminate | reflexivity | reflexivity].
Defined.

(** C10: a recipient without public key; the destination keeps its content. *)
Lemma encrypt_error_leaves_files_witness :
  let w := test_world boundary_store in
  let r := encrypt "secret" ["nobody"] (Some ["R"; "a.gpg"]) None w in
  fst r = Raise (ValueError "no public key")
  /\ fs (snd r) = fs w
  /\ filter is_write (trace (snd r)) = filter is_write (trace w).
Proof.
  intros w r. split; [vm_compute; reflexivity|].
  apply (encrypt_error_leaves_files (BK := test_backend) "secret" ["nobody"]
           (Some ["R"; "a.gpg"]) None w (snd r) (fst r)).
  - apply surjective_pairing.
  - intros v. vm_compute. discriminate.
Defined.


(** C5: diagnostics of a missing secret key and no output; and diagnostics
    of a missing file, without the words of a missing secret key. *)
Lemma decrypt_classifies_output_witness :
  let diag := [(Err, line "gpg: decryption failed: No secret key")] in
  let diag' := [(Err, line "gpg: can't open '/R/x.gpg': No such file or directory");
                (Err, line "gpg: decrypt_message failed: No such file or directory")] in
  (exists w',
     decrypt ["R"; "d.gpg"] (Some "/home/me/.gnupg") (Some ["--batch"]) true
             (canned_world diag boundary_store)
     = (Raise (ValueError "no secret key"), w'))
  /\ (exists w',
        decrypt ["R"; "x.gpg"] None None true (canned_world diag' boundary_store)
        = (Raise (FileNotFoundError None), w')).
Proof.
  intros diag diag'. split.
  - pose (w := canned_world diag boundary_store).
    pose (w1 := snd (get_binary w)).
    destruct (decrypt_classifies_output (BK := canned_backend diag) ["R"; "d.gpg"]
                (Some "/home/me/.gnupg") (Some ["--batch"]) true w w1 "gpg" diag tt)
      as (_ & H).
    + vm_compute. reflexivity.
    + vm_compute. reflexivity.
    + destruct (H ltac:(vm_compute; reflexivity)) as (H1 & _).
      eexists. apply H1. apply re_match_phrase. vm_compute. reflexivity.
  - pose (w := canned_world diag' boundary_store).
    pose (w1 := snd (get_binary w)).
    destruct (decrypt_classifies_output (BK := canned_backend diag') ["R"; "x.gpg"]
                None None true w w1 "gpg" diag' tt)
      as (_ & H).
    + vm_compute. reflexivity.
    + vm_compute. reflexivity.
    + destruct (H ltac:(vm_compute; reflexivity)) as (_ & H2 & _).
      eexists. apply H2.
      * apply not_occurs. vm_compute. reflexivity.
      * apply re_match_phrase2. vm_compute. reflexivity.
Defined.

(** C9: [gpg] is version 1 and [gpg2] is version 2; both are asked once. *)
Lemma get_binary_memoized_witness :
  let w := test_world boundary_store in
  let w1 := snd (get_binary w) in
  get_binary w1 = (Ret "gpg2", w1)
  /\ (forall n, get_binary_times (S n) w = (Ret tt, w1))
  /\ exists V, trace w1 = trace w ++ V
       /\ Forall (fun e => is_version_query e = true) V
       /\ (count_spawns gpg_version V <= 1)%nat
       /\ (count_spawns gpg2_version V <= 1)%nat.
Proof.
  intros w w1.
  apply (get_binary_memoized (BK := test_backend) w w1 "gpg2").
  vm_compute. reflexivity.
Defined.

(** C8: three identifiers, one of them twice. *)
Lemma gpg_id_roundtrip_witness :
  let ids := ["alice@example.org"; "0123456789ABCDEF"; "alice@example.org"] in
  let p := ["R"; "S"; ".gpg-id"] in
  let w' := snd (write_gpg_id_file p ids (test_world boundary_store)) in
  get_recipients_from_gpg_id p w' = (Ret ids, w').
Proof.
  intros ids p w'.
  apply (gpg_id_roundtrip (BK := test_backend) p ids (test_world boundary_store) w').
  - repeat constructor.
  - vm_compute. reflexivity.
Defined.

(** C4: the packets of a file encrypted to two keys. *)
Lemma list_packets_tokens_witness :
  exists w', list_packets ["f.gpg"] (test_world packet_store)
             = (Ret ["keyid 0123456789ABCDEF"; "keyid FEDCBA9876543210"], w').
Proof.
  pose (w := test_world packet_store).
  pose (w1 := snd (get_binary w)).
  pose (o := [(Out, line ":pubkey enc packet: version 3, algo 1, keyid 0123456789ABCDEF");
              (Out, line ":pubkey enc packet: version 3, algo 1, keyid FEDCBA9876543210")]).
  assert (Hno : forall phrase, re_match [DotStar; Lit phrase; DotStar] (stderr_of o) = false ->
                               ~ on_first_line phrase (stderr_of o)).
  { intros phrase E H. apply re_match_phrase in H. congruence. }
  destruct (list_packets_tokens (BK := test_backend) ["f.gpg"] w w1 "gpg2" o tt)
    as (H & _).
  - vm_compute. reflexivity.
  - vm_compute. reflexivity.
  - apply Hno. vm_compute. reflexivity.
  - apply Hno. vm_compute. reflexivity.
  - apply Hno. vm_compute. reflexivity.
  - eexists. exact H.
Defined.



(* ================================================================== *)
(** * Further properties of the module *)

Section FurtherProperties.

Context {BK : Backend}.

(** ** [recursive_reencrypt] *)

(** X1.  A folder that does not exist, or is a file, is no error: the call
    returns at once, and all it leaves is its log entry. *)
Theorem reencrypt_ignores_missing_folder fuel p keys home extra (w : world) :
  (forall es, lookup (fs w) p <> Some (Dir es)) ->
  recursive_reencrypt (S fuel) p keys home extra w
  = (Ret tt, emit (EvCall p keys home extra) w).
Proof.
  intros H. rewrite recursive_reencrypt_unfold. cbv zeta.
  destruct (lookup (fs w) p) as [[data|es]|] eqn:E; try reflexivity.
  now destruct (H es).
Qed.

Lemma emits_reencrypt_files_inside p keys home extra (files : list string) :
  emits (event_inside p keys) (for_each files (reencrypt_file p keys home extra)).
Proof.
  apply emits_weaken
    with (P := fun e => exists g, In g files
                                  /\ spawn_or_write (Some (path_join p g)) e);
    [|apply emits_reencrypt_files].
  intros [q k h x | argv input res | q data] (g & _ & Hq); simpl in *;
    [destruct Hq | exact I |].
  injection Hq as <-. exists [g]. split; [discriminate | reflexivity].
Qed.

Lemma event_below_inside root keys e :
  event_below root keys e -> event_inside root keys e.
Proof.
  destruct e as [r k h x | argv input res | r data]; simpl; [| trivial |].
  - intros ((name & s & ->) & Hk). split; [|assumption].
    exists (name :: s). split; [discriminate | reflexivity].
  - intros (name & s & Hs & ->). exists (name :: s). split; [discriminate | reflexivity].
Qed.

(** X2.  Whatever the outcome, everything [recursive_reencrypt] does after its
    log entry stays inside its folder: the files it writes lie below the
    folder, and the calls it makes on itself are on directories below the
    folder, never on the folder itself, with the same keys and with neither
    the gpg home nor the additional parameters of the first call. *)
Theorem reencrypt_stays_in_folder fuel p keys home extra (w : world) :
  exists T,
    trace (snd (recursive_reencrypt fuel p keys home extra w)) = trace w ++ T
    /\ (T = [] \/ exists T', T = EvCall p keys home extra :: T'
                             /\ Forall (event_inside p keys) T').
Proof.
  destruct fuel as [|fuel].
  - exists []. simpl. split; [now rewrite app_nil_r | now left].
  - rewrite recursive_reencrypt_unfold. cbv zeta.
    destruct (lookup (fs w) p) as [[data|es]|] eqn:Hp;
      try (exists [EvCall p keys home extra]; split; [reflexivity|];
           right; eexists; split; [reflexivity | constructor]).
    assert (He : emits (event_inside p keys)
                   (bind (for_each (file_names es) (reencrypt_file p keys home extra))
                      (fun _ => for_each (walk_below p es)
                                  (reencrypt_subfolder fuel keys)))).
    { apply emits_bind; [apply emits_reencrypt_files_inside|]. intros _.
      apply emits_for_each. intros item Hin.
      apply emits_weaken with (P := event_below p keys);
        [apply event_below_inside | now apply emits_reencrypt_subfolder with (es := es)]. }
    destruct (He (emit (EvCall p keys home extra) w)) as (T' & HT' & Hall).
    exists (EvCall p keys home extra :: T'). split.
    + rewrite HT'. simpl. now rewrite <- app_assoc.
    + right. now exists T'.
Qed.

Lemma emits_reencrypt_file_gpg root keys home extra file :
  emits (fun e => match e with
                  | EvWrite q _ => q = path_join root file /\ is_gpg_name file = true
                  | EvSpawn _ _ _ => True
                  | EvCall _ _ _ _ => False
                  end)
        (reencrypt_file root keys home extra file).
Proof.
  destruct (is_gpg_name file) eqn:Hg.
  - apply emits_weaken with (P := spawn_or_write (Some (path_join root file)));
      [|apply (emits_reencrypt_file root keys home extra file)].
    intros [q k h x | argv input res | q data]; simpl; try tauto.
    intros H. injection H as <-. now split.
  - intros w. rewrite (reencrypt_file_other root keys home extra file w Hg).
    exists []. simpl. split; [now rewrite app_nil_r | constructor].
Qed.

Lemma emits_gpg_writes (fuel : nat) :
  forall p keys home extra,
    emits (gpg_write_under p) (recursive_reencrypt fuel p keys home extra).
Proof.
  induction fuel as [|fuel IH]; intros p keys home extra.
  - intros w. exists []. simpl. split; [now rewrite app_nil_r | constructor].
  - cbn [recursive_reencrypt].
    apply emits_bind; [apply emits_log; exact I|]. intros _.
    apply emits_bind; [apply emits_get_fs|]. intros cur.
    apply emits_for_each. intros [[r dirs] files] Hin.
    unfold walk in Hin. destruct (lookup cur p) as [n|]; [|destruct Hin].
    destruct (walk_node_roots _ _ _ Hin) as (q & Hq). simpl in Hq. subst r.
    destruct (path_eqb (p ++ q) p).
    + apply emits_for_each. intros file _.
      eapply emits_weaken; [|apply (emits_reencrypt_file_gpg (p ++ q) keys home extra file)].
      intros [r k h x | argv input res | r data]; simpl; try tauto.
      intros [-> Hg]. exists q, file. split; [|assumption].
      unfold path_join. now rewrite <- app_assoc.
    + apply emits_bind; [apply emits_get_fs|]. intros cur'.
      destruct (negb _); [|apply emits_ret].
      eapply emits_weaken; [|apply (IH (p ++ q) keys None None)].
      intros [r k h x | argv input res | r data]; simpl; try tauto.
      intros (s & f & -> & Hg). exists (q ++ s), f. split; [|assumption].
      now rewrite <- !app_assoc.
Qed.

(** X3.  [recursive_reencrypt] changes no file but the [.gpg] files below its
    folder: a file outside the folder, or one whose name does not end in
    [.gpg], holds after the call what it held before, whatever the
    outcome. *)
Theorem reencrypt_spares_other_files fuel p keys home extra (w : world) x content :
  lookup (fs w) x = Some (File content) ->
  (forall s f, x = p ++ s ++ [f] -> is_gpg_name f = false) ->
  lookup (fs (snd (recursive_reencrypt fuel p keys home extra w))) x
  = Some (File content).
Proof.
  intros Hx Hother.
  apply (frame_file (recursive_reencrypt fuel p keys home extra)
           (gpg_write_under p) x content
           (emits_gpg_writes fuel p keys home extra)
           (replays_recursive_reencrypt fuel p keys home extra)); [|assumption].
  intros q data (s & f & -> & Hg) E. rewrite (Hother s f (eq_sym E)) in Hg.
  discriminate.
Qed.

(** ** Directories with their own [.gpg-id] *)

Lemma for_each_emits_inv {A} (I : world -> Prop) (P : event -> Prop)
    (l : list A) (body : A -> M unit) :
  (forall x w, In x l -> I w ->
     I (snd (body x w))
     /\ exists T, trace (snd (body x w)) = trace w ++ T /\ Forall P T) ->
  forall w, I w ->
    I (snd (for_each l body w))
    /\ exists T, trace (snd (for_each l body w)) = trace w ++ T /\ Forall P T.
Proof.
  induction l as [|x l IH]; intros H w Hw; cbn [for_each].
  - split; [assumption|]. exists []. simpl. split; [now rewrite app_nil_r | constructor].
  - unfold bind. destruct (H x w (or_introl eq_refl) Hw) as (HI & T & Ht & HT).
    destruct (body x w) as [[[]| | |] w1]; cbn [fst snd] in *;
      try (split; [assumption | now exists T]).
    destruct (IH (fun y w' Hy => H y w' (or_intror Hy)) w1 HI) as (HI' & T' & Ht' & HT').
    split; [assumption|]. exists (T ++ T'). rewrite Ht', Ht, app_assoc.
    split; [reflexivity | apply Forall_app; now split].
Qed.

Lemma keeps_reencrypt_files p keys home extra (w : world) es :
  lookup (fs w) p = Some (Dir es) ->
  skeleton (fs (snd (for_each (file_names es) (reencrypt_file p keys home extra) w)))
  = skeleton (fs w).
Proof.
  intros Hp.
  apply (skeleton_writes_exist
           (for_each (file_names es) (reencrypt_file p keys home extra)) _ w
           (emits_reencrypt_files p keys home extra (file_names es))
           (replays_for_each _ _
              (fun x _ => replays_reencrypt_file p keys home extra x))).
  intros q data (g & Hin & Hq). simpl in Hq. injection Hq as <-.
  now apply file_names_exist with (es := es).
Qed.

Lemma keeps_listings_subfolder_aux fuel keys item :
  keeps_listings (reencrypt_subfolder fuel keys item).
Proof.
  destruct item as [[root dirs] files]. unfold reencrypt_subfolder.
  apply keeps_bind; [intros w; reflexivity|]. intros cur.
  destruct (negb _); [apply keeps_recursive_reencrypt | apply keeps_ret].
Qed.

Lemma guarded_writes (fs0 : node) (fuel : nat) :
  forall p keys home extra (w : world),
    skeleton (fs w) = skeleton fs0 ->
    exists T,
      trace (snd (recursive_reencrypt fuel p keys home extra w)) = trace w ++ T
      /\ Forall (guarded_write fs0 p) T.
Proof.
  induction fuel as [|fuel IH]; intros p keys home extra w Hsk.
  - exists []. simpl. split; [now rewrite app_nil_r | constructor].
  - rewrite recursive_reencrypt_unfold. cbv zeta.
    destruct (lookup (fs w) p) as [[data|es]|] eqn:Hp;
      try (exists [EvCall p keys home extra]; split;
           [reflexivity | repeat constructor]).
    set (w0 := emit (EvCall p keys home extra) w).
    assert (Hp0 : lookup (fs w0) p = Some (Dir es)) by exact Hp.
    pose proof (keeps_reencrypt_files p keys home extra w0 es Hp0) as Hk.
    destruct (emits_reencrypt_files p keys home extra (file_names es) w0)
      as (T1 & Ht1 & HT1).
    unfold bind.
    destruct (for_each (file_names es) (reencrypt_file p keys home extra) w0)
      as [r1 w1] eqn:E1. simpl in Hk, Ht1.
    assert (HT1' : Forall (guarded_write fs0 p) T1).
    { eapply Forall_impl; [|exact HT1].
      intros [q k h x | argv input res | q data] (g & _ & Hq); simpl in *;
        try exact I. injection Hq as <-. exists p, g. split; [reflexivity | now left]. }
    assert (Hfin : forall r wz Tz,
               trace wz = trace w1 ++ Tz -> Forall (guarded_write fs0 p) Tz ->
               exists T, trace (snd (r : result unit, wz)) = trace w ++ T
                         /\ Forall (guarded_write fs0 p) T).
    { intros r wz Tz Hz HTz. exists (EvCall p keys home extra :: T1 ++ Tz).
      simpl. rewrite Hz, Ht1. unfold w0. simpl. rewrite <- !app_assoc. split;
        [reflexivity|]. constructor; [exact I|]. apply Forall_app. now split. }
    destruct r1 as [[]| | |];
      try (apply (Hfin _ w1 []); [now rewrite app_nil_r | constructor]).
    destruct (for_each_emits_inv
                (fun w' => skeleton (fs w') = skeleton fs0) (guarded_write fs0 p)
                (walk_below p es) (reencrypt_subfolder fuel keys)) with (w := w1)
      as (_ & Tz & Hz & HTz).
    + intros [[r dirs] files] w' Hin Hw'. split.
      * rewrite <- Hw'. apply (keeps_listings_subfolder_aux fuel keys (r, dirs, files) w').
      * destruct (walk_below_roots _ _ _ Hin) as (name & q & Hq). simpl in Hq. subst r.
        unfold reencrypt_subfolder, bind, get_fs.
        destruct (path_exists (fs w') (path_join (p ++ name :: q) ".gpg-id")) eqn:Hex;
          simpl negb; cbv iota.
        -- exists []. simpl. split; [now rewrite app_nil_r | constructor].
        -- destruct (IH (p ++ name :: q) keys None None w' Hw') as (T & Ht & HT).
           exists T. split; [assumption|].
           eapply Forall_impl; [|exact HT].
           intros [r k h x | argv input res | r data]; simpl; try tauto.
           intros (r' & g & -> & [Hr | Hno]); exists r', g;
             (split; [reflexivity|]); right; [|assumption].
           subst r'.
           rewrite <- (path_exists_skeleton fs0 (fs w') _ Hw'). exact Hex.
    + rewrite Hk. exact Hsk.
    + destruct (for_each (walk_below p es) (reencrypt_subfolder fuel keys) w1)
        as [rz wz]. simpl in Hz. now apply (Hfin rz wz Tz).
Qed.

(** X4.  The files directly in a directory that owns a [.gpg-id] are never
    written, unless that directory is the folder of the call itself. *)
Theorem reencrypt_spares_boundary_files fuel p keys home extra (w : world)
    (d : path) (f content : string) :
  d <> p ->
  path_exists (fs w) (path_join d ".gpg-id") = true ->
  lookup (fs w) (path_join d f) = Some (File content) ->
  lookup (fs (snd (recursive_reencrypt fuel p keys home extra w))) (path_join d f)
  = Some (File content).
Proof.
  intros Hd Hid Hx.
  destruct (guarded_writes (fs w) fuel p keys home extra w eq_refl) as (T1 & Ht1 & HT1).
  destruct (replays_recursive_reencrypt fuel p keys home extra w) as (T2 & Ht2 & Hfs).
  assert (T1 = T2) by (rewrite Ht1 in Ht2; now apply app_inv_head in Ht2).
  subst T2. rewrite Hfs. apply apply_writes_other_file; [|assumption].
  intros q data Hin E. rewrite Forall_forall in HT1.
  destruct (HT1 _ Hin) as (r & g & Hq & Hr). rewrite Hq in E.
  unfold path_join in E. apply app_inj_tail in E as [-> _].
  destruct Hr as [->|Hr]; [now apply Hd | congruence].
Qed.

(** ** Failures *)

Lemma for_each_app {A} (l1 l2 : list A) (body : A -> M unit) (w : world) :
  for_each (l1 ++ l2) body w
  = bind (for_each l1 body) (fun _ => for_each l2 body) w.
Proof.
  revert w. induction l1 as [|x l1 IH]; intros w; simpl; [reflexivity|].
  unfold bind. destruct (body x w) as [[[]| | |] w1]; try reflexivity.
  rewrite IH. reflexivity.
Qed.

Lemma decrypt_fs p home extra utf8 (w : world) :
  fs (snd (decrypt p home extra utf8 w)) = fs w.
Proof.
  destruct (emits_decrypt (fun e => is_write e = false) p home extra utf8
              ltac:(reflexivity) w) as (T1 & Ht1 & HT1).
  destruct (replays_decrypt p home extra utf8 w) as (T2 & Ht2 & Hfs).
  assert (T1 = T2) by (rewrite Ht1 in Ht2; now apply app_inv_head in Ht2).
  subst T2. rewrite Hfs. apply apply_writes_no_write.
  clear - HT1. induction HT1 as [|e T He _ IH]; [reflexivity|].
  simpl. now rewrite He.
Qed.

Lemma encrypt_failure_fs text rcpts dest home (w w' : world) r :
  encrypt text rcpts dest home w = (r, w') -> (forall v, r <> Ret v) ->
  fs w' = fs w.
Proof.
  intros H Hr.
  destruct rcpts as [|k ks]; [inversion H; subst; reflexivity|].
  destruct (match dest with
            | Some p => path_exists (fs w) (dirname p)
            | None => true
            end) eqn:Hchk.
  - destruct (get_binary w) as [rb w1] eqn:Hb.
    pose proof (get_binary_effects w) as (Hfs & _ & _). rewrite Hb in Hfs.
    simpl in Hfs.
    destruct rb as [b| | |].
    + rewrite (encrypt_resolved text (k :: ks) dest home w w1 b) in H;
        [ | discriminate | intros p ->; exact Hchk | exact Hb ].
      unfold encrypt_outcome, spawned, written in H.
      destruct (spawn _ _ _ _) as [[o|] st]; [|inversion H; subst; exact Hfs].
      destruct (re_match re_no_such_file (merged_of o));
        [inversion H; subst; exact Hfs|].
      destruct (re_match re_no_public_key (merged_of o));
        [inversion H; subst; exact Hfs|].
      destruct dest as [p|].
      * simpl in H. destruct (write_file (fs w1) p (merged_of o)).
        -- inversion H; subst. exfalso. now apply (Hr None).
        -- inversion H; subst. exact Hfs.
      * inversion H; subst. exfalso. now apply (Hr (Some (merged_of o))).
    + assert (E : encrypt text (k :: ks) dest home w = (Raise e, w1)).
      { unfold encrypt, bind, get_fs. destruct dest as [p|]; [rewrite Hchk|];
          simpl; unfold ret; now rewrite Hb. }
      rewrite E in H. inversion H; subst. exact Hfs.
    + assert (E : encrypt text (k :: ks) dest home w = (Exit code, w1)).
      { unfold encrypt, bind, get_fs. destruct dest as [p|]; [rewrite Hchk|];
          simpl; unfold ret; now rewrite Hb. }
      rewrite E in H. inversion H; subst. exact Hfs.
    + assert (E : encrypt text (k :: ks) dest home w = (OutOfFuel, w1)).
      { unfold encrypt, bind, get_fs. destruct dest as [p|]; [rewrite Hchk|];
          simpl; unfold ret; now rewrite Hb. }
      rewrite E in H. inversion H; subst. exact Hfs.
  - destruct dest as [p|]; [|discriminate].
    rewrite (encrypt_missing_parent text (k :: ks) p home w
               ltac:(discriminate) Hchk) in H.
    inversion H; subst. reflexivity.
Qed.

Lemma reencrypt_file_failure_fs root keys home extra file (w w' : world) e :
  reencrypt_file root keys home extra file w = (Raise e, w') -> fs w' = fs w.
Proof.
  unfold reencrypt_file. destruct (String.eqb _ _); [|discriminate].
  cbv zeta. unfold bind at 1. intros H.
  pose proof (decrypt_fs (path_join root file) home extra true w) as Hd.
  destruct (decrypt _ _ _ _ w) as [[c| | |] wa]; simpl in Hd;
    try (inversion H; subst; exact Hd).
  unfold bind at 1 in H.
  destruct (encrypt c keys (Some (path_join root file)) home wa) as [r wb] eqn:He.
  destruct r as [v| | |]; inversion H; subst.
  rewrite <- Hd. apply (encrypt_failure_fs _ _ _ _ _ _ _ He). discriminate.
Qed.

(** X5.  The first file that fails ends the call: [recursive_reencrypt] raises
    the exception of that file in the world the failure left, in which the
    failing file is as it was.  The files after it in the listing and all
    sub-directories are not looked at. *)
Theorem reencrypt_stops_at_first_failure fuel p keys home extra (w wa wb : world)
    es (before after : list string) (file : string) e :
  lookup (fs w) p = Some (Dir es) ->
  file_names es = before ++ file :: after ->
  for_each before (reencrypt_file p keys home extra) (emit (EvCall p keys home extra) w)
  = (Ret tt, wa) ->
  reencrypt_file p keys home extra file wa = (Raise e, wb) ->
  recursive_reencrypt (S fuel) p keys home extra w = (Raise e, wb)
  /\ fs wb = fs wa.
Proof.
  intros Hp Hfiles Hbefore Hfile. split.
  - rewrite recursive_reencrypt_unfold, Hp. cbv zeta.
    rewrite Hfiles. unfold bind at 1. rewrite for_each_app.
    unfold bind at 1. rewrite Hbefore. cbn [for_each]. unfold bind at 1.
    now rewrite Hfile.
  - now apply reencrypt_file_failure_fs in Hfile.
Qed.

(** ** [get_binary] *)

Lemma rmatch_dotstar_end (s : string) :
  exists t, rmatch [DotStar] s = Some [t].
Proof.
  induction s as [|c s IH].
  - exists EmptyString. reflexivity.
  - rewrite rmatch_star_eq. cbn zeta.
    destruct (is_nl c); [exists EmptyString; reflexivity|].
    destruct IH as (t & ->). now exists (String c t).
Qed.

Lemma before_boundary_prefix (s : string) :
  exists r, s = (before_boundary s ++ r)%string.
Proof.
  induction s as [|c s IH]; [now exists EmptyString|].
  cbn [before_boundary]. destruct (starts_with_boundary (String c s)).
  - now exists (String c s).
  - destruct IH as (r & Hr). exists r. simpl. now rewrite <- Hr.
Qed.

Lemma first_line_eq (stdout : string) (w : world) :
  utf8_valid stdout = true -> stdout <> EmptyString ->
  first_line stdout w = (Ret (before_boundary stdout), w).
Proof.
  intros Hv Hne. unfold first_line, bind, decode_utf8. rewrite Hv. unfold ret.
  unfold splitlines_head. destruct stdout; [congruence|reflexivity].
Qed.

(** The first line of an output that reports the major version 1 or 2 is
    accepted by the pattern, with that digit as its group. *)
Lemma first_line_reports (d stdout : string) :
  d = "1" \/ d = "2" -> reports_major d stdout ->
  stdout <> EmptyString
  /\ re_match re_version (before_boundary stdout) = true
  /\ re_group re_version (before_boundary stdout) = Some d.
Proof.
  intros Hd (Hv & rest & ->).
  destruct (rmatch_dotstar_end (before_boundary rest)) as (t & Ht).
  split; [|split].
  - destruct Hd as [-> | ->]; discriminate.
  - unfold re_match, re_version.
    destruct Hd as [-> | ->]; simpl in Ht |- *; rewrite Ht; reflexivity.
  - unfold re_group, re_version.
    destruct Hd as [-> | ->]; simpl in Ht |- *; rewrite Ht; reflexivity.
Qed.

(** A first line that the pattern accepts starts with the product name, the
    digit of the group and a dot. *)
Lemma re_version_inv (version : string) :
  re_match re_version version = true ->
  exists g rest,
    re_group re_version version = Some g
    /\ (g = "1" \/ g = "2")
    /\ version = ("gpg (GnuPG) " ++ g ++ "." ++ rest)%string.
Proof.
  unfold re_match, re_group, re_version.
  destruct (rmatch _ version) as [parts|] eqn:H; [intros _|discriminate].
  apply rmatch_lit_sound in H as (r1 & ps1 & -> & -> & H).
  apply rmatch_gopen_sound in H as (ps2 & -> & H).
  apply rmatch_class_sound in H as (t & r2 & ps3 & -> & -> & Hlen & Hcls & H).
  apply rmatch_gclose_sound in H as (ps4 & -> & H).
  apply rmatch_lit_sound in H as (r3 & ps5 & -> & -> & H).
  destruct t as [|c [|c' t]]; try discriminate.
  assert (Hc : is_1_or_2 c = true) by (apply Hcls; now left).
  exists (String c EmptyString), r3.
  split; [reflexivity|]. split; [|reflexivity].
  unfold is_1_or_2 in Hc. apply orb_true_iff in Hc as [Hc|Hc];
    apply Ascii.eqb_eq in Hc; subst c; auto.
Qed.

(** The pattern accepts the first line exactly when the output reports the
    major version 1 or 2. *)
Lemma first_line_major (stdout : string) :
  utf8_valid stdout = true ->
  (exists d, (d = "1" \/ d = "2") /\ reports_major d stdout
             /\ re_match re_version (before_boundary stdout) = true
             /\ re_group re_version (before_boundary stdout) = Some d)
  \/ ((forall d, d = "1" \/ d = "2" -> ~ reports_major d stdout)
      /\ re_match re_version (before_boundary stdout) = false).
Proof.
  intros Hv.
  destruct (re_match re_version (before_boundary stdout)) eqn:Hm.
  - left. destruct (re_version_inv _ Hm) as (g & rest & Hg & Hd & Hrest).
    exists g. repeat split; try assumption.
    destruct (before_boundary_prefix stdout) as (r & Hr).
    exists (rest ++ r)%string. rewrite Hr at 1. rewrite Hrest.
    now rewrite !sapp_assoc.
  - right. split; [|reflexivity]. intros d Hd Hrep.
    destruct (first_line_reports d stdout Hd Hrep) as (_ & Hm' & _). congruence.
Qed.

(** X6.  The program [gpg] reports version 2: it is the binary, and [gpg2] is
    not asked. *)
Theorem get_binary_prefers_gpg (w : world) (o : output) (st : bstate) :
  binary_cache w = None ->
  spawn gpg_version None (fs w) (gpg_state w) = (Some o, st) ->
  reports_major "2" (stdout_of o) ->
  get_binary w
  = (Ret "gpg",
     {| fs := fs w; gpg_state := st; binary_cache := Some "gpg";
        trace := trace w ++ [EvSpawn gpg_version None (Some o)] |}).
Proof.
  intros Hc Hs Hrep.
  destruct (first_line_reports "2" _ (or_intror eq_refl) Hrep) as (Hne & Hm & Hg).
  unfold get_binary. rewrite Hc. unfold get_binary_body.
  unfold bind at 1. unfold popen. unfold gpg_version in Hs. rewrite Hs.
  unfold bind at 1. rewrite first_line_eq by (assumption || apply Hrep).
  unfold bind at 1. rewrite Hm, Hg. reflexivity.
Qed.

(** X7.  The program [gpg] reports version 1: [gpg2] is asked, and it is the
    binary when it reports version 2. *)
Theorem get_binary_falls_back_to_gpg2 (w : world) (o o2 : output) (st st2 : bstate) :
  binary_cache w = None ->
  spawn gpg_version None (fs w) (gpg_state w) = (Some o, st) ->
  reports_major "1" (stdout_of o) ->
  spawn gpg2_version None (fs w) st = (Some o2, st2) ->
  reports_major "2" (stdout_of o2) ->
  get_binary w
  = (Ret "gpg2",
     {| fs := fs w; gpg_state := st2; binary_cache := Some "gpg2";
        trace := trace w ++ [EvSpawn gpg_version None (Some o);
                             EvSpawn gpg2_version None (Some o2)] |}).
Proof.
  intros Hc Hs Hrep Hs2 Hrep2.
  destruct (first_line_reports "1" _ (or_introl eq_refl) Hrep) as (Hne & Hm & Hg).
  destruct (first_line_reports "2" _ (or_intror eq_refl) Hrep2) as (Hne2 & Hm2 & Hg2).
  unfold get_binary. rewrite Hc. unfold get_binary_body.
  unfold bind at 1. unfold popen at 1. unfold gpg_version in Hs. rewrite Hs.
  unfold bind at 1. rewrite first_line_eq by (assumption || apply Hrep).
  unfold bind at 1. rewrite Hm, Hg. cbn [String.eqb Ascii.eqb Bool.eqb].
  unfold bind at 1. unfold popen. cbn [fs gpg_state].
  unfold gpg2_version in Hs2. rewrite Hs2.
  unfold bind at 1. rewrite first_line_eq by (assumption || apply Hrep2).
  rewrite Hm2, Hg2. cbn. rewrite <- app_assoc. reflexivity.
Qed.

(** X8.  No version 2: when [gpg] reports neither 1 nor 2, or when it reports 1
    and [gpg2] does not report 2, the call exits with status 1 and nothing
    is remembered. *)
Theorem get_binary_exits_without_version_2 (w : world) (o : output) (st : bstate) :
  binary_cache w = None ->
  spawn gpg_version None (fs w) (gpg_state w) = (Some o, st) ->
  utf8_valid (stdout_of o) = true -> stdout_of o <> EmptyString ->
  (reports_major "2" (stdout_of o) -> False) ->
  (reports_major "1" (stdout_of o) ->
   exists o2 st2,
     spawn gpg2_version None (fs w) st = (Some o2, st2)
     /\ utf8_valid (stdout_of o2) = true /\ stdout_of o2 <> EmptyString
     /\ ~ reports_major "2" (stdout_of o2)) ->
  exists w', get_binary w = (Exit 1, w')
             /\ binary_cache w' = None /\ fs w' = fs w.
Proof.
  intros Hc Hs Hv Hne Hno2 Hone.
  unfold get_binary. rewrite Hc. unfold get_binary_body.
  unfold bind at 1. unfold popen at 1. unfold gpg_version in Hs. rewrite Hs.
  unfold bind at 1. rewrite first_line_eq by assumption.
  unfold bind at 1.
  destruct (first_line_major (stdout_of o) Hv)
    as [(d & Hd & Hrep & Hm & Hg) | (Hnone & Hm)]; rewrite Hm.
  - rewrite Hg. destruct Hd as [-> | ->]; [|now destruct (Hno2 Hrep)].
    cbn [String.eqb Ascii.eqb Bool.eqb].
    destruct (Hone Hrep) as (o2 & st2 & Hs2 & Hv2 & Hne2 & Hno).
    unfold bind at 1. unfold popen. cbn [fs gpg_state].
    unfold gpg2_version in Hs2. rewrite Hs2.
    unfold bind at 1. rewrite first_line_eq by assumption.
    destruct (first_line_major (stdout_of o2) Hv2)
      as [(d & Hd & Hrep2 & Hm2 & Hg2) | (Hnone & Hm2)]; rewrite Hm2.
    + rewrite Hg2. destruct Hd as [-> | ->]; [|now destruct (Hno Hrep2)].
      cbn. eexists; split; [reflexivity|]. split; [exact Hc|reflexivity].
    + cbn. eexists; split; [reflexivity|]. split; [exact Hc|reflexivity].
  - cbn. eexists; split; [reflexivity|]. split; [exact Hc|reflexivity].
Qed.

(** X9.  A program that prints nothing on its standard output ends the call
    with [IndexError], and one that cannot be started with
    [FileNotFoundError]; in both cases nothing is remembered. *)
Theorem get_binary_without_output (w : world) (res : option output) (st : bstate) :
  binary_cache w = None ->
  spawn gpg_version None (fs w) (gpg_state w) = (res, st) ->
  (forall o, res = Some o -> stdout_of o = EmptyString) ->
  get_binary w
  = (Raise (match res with Some _ => IndexError | None => FileNotFoundError None end),
     {| fs := fs w; gpg_state := st; binary_cache := None;
        trace := trace w ++ [EvSpawn gpg_version None res] |}).
Proof.
  intros Hc Hs Hempty. unfold get_binary. rewrite Hc. unfold get_binary_body.
  unfold bind at 1. unfold popen. unfold gpg_version in Hs |- *. rewrite Hs.
  destruct res as [o|].
  - unfold bind at 1. rewrite (Hempty o eq_refl). cbn. now rewrite Hc.
  - now rewrite Hc.
Qed.

Lemma emits_sys_exit {A} (P : event -> Prop) (code : nat) :
  emits P (@sys_exit _ A code).
Proof. intros w. exists []. simpl. now rewrite app_nil_r. Qed.

Lemma get_binary_first_query (w : world) :
  binary_cache w = None ->
  exists res T,
    trace (snd (get_binary w)) = trace w ++ EvSpawn gpg_version None res :: T.
Proof.
  intros Hc.
  assert (Hbody : exists res T,
             trace (snd (get_binary_body w))
             = trace w ++ EvSpawn gpg_version None res :: T).
  { unfold get_binary_body.
    match goal with |- context [bind (popen ?argv None) ?k] =>
      assert (Hk : forall o, emits (fun _ => True) (k o)) end.
    { intros o. unfold first_line, decode_utf8.
      repeat first
        [ apply emits_ret | apply emits_raise | apply emits_sys_exit
        | apply emits_bind; [|intros ?]
        | apply emits_popen; intros; exact I
        | match goal with
          | |- emits _ (if ?b then _ else _) => destruct b
          | |- emits _ (match ?x with Some _ => _ | None => _ end) => destruct x
          end ]. }
    unfold bind at 1. unfold popen at 1.
    destruct (spawn _ None (fs w) (gpg_state w)) as [[o|] st].
    - match goal with |- context [snd (?c ?w1)] =>
        destruct (Hk o w1) as (T & HT & _) end.
      exists (Some o), T. rewrite HT. cbn [trace]. now rewrite <- app_assoc.
    - exists None, []. reflexivity. }
  destruct Hbody as (res & T & HT). exists res, T.
  unfold get_binary. rewrite Hc.
  destruct (get_binary_body w) as [[b| | |] w1]; exact HT.
Qed.

(** X10.  A call that did not return a binary is not remembered: the next call
    starts [gpg --version] again. *)
Theorem get_binary_failure_not_cached (w w' : world) r :
  get_binary w = (r, w') -> (forall b, r <> Ret b) ->
  binary_cache w' = None
  /\ exists res T,
       trace (snd (get_binary w')) = trace w' ++ EvSpawn gpg_version None res :: T.
Proof.
  intros H Hr.
  assert (Hc : binary_cache w' = None).
  { pose proof (get_binary_resolution w) as R. rewrite H in R. simpl in R.
    destruct R as [b Hb | r w' V _ _ _ _ _ _ _ Hnone _].
    - now destruct (Hr b).
    - now apply Hnone. }
  split; [assumption|]. now apply get_binary_first_query.
Qed.

(** ** [decrypt], [list_packets] and [encrypt] *)

Lemma emits_list_packets (P : event -> Prop) p :
  (forall argv input res, P (EvSpawn argv input res)) ->
  emits P (list_packets p).
Proof.
  intros H. unfold list_packets.
  apply emits_bind; [now apply emits_get_binary|]. intros b.
  apply emits_bind; [apply emits_popen; intros; apply H|]. intros o. cbv zeta.
  repeat (break_match; try apply emits_ret; try apply emits_raise).
Qed.

Lemma replays_list_packets p : replays (list_packets p).
Proof.
  unfold list_packets. apply replays_bind; [apply replays_get_binary|]. intros b.
  apply replays_bind; [apply replays_popen|]. intros o. cbv zeta.
  repeat (break_match; try apply replays_ret; try apply replays_raise).
Qed.

(** A computation that adds no write to the trace and whose file system is
    the replay of its trace leaves the file system as it is. *)
Lemma read_only {A} (c : M A) (w : world) :
  emits (fun e => is_write e = false) c -> replays c ->
  fs (snd (c w)) = fs w
  /\ filter is_write (trace (snd (c w))) = filter is_write (trace w).
Proof.
  intros He Hr. destruct (He w) as (T1 & Ht1 & HT1).
  destruct (Hr w) as (T2 & Ht2 & Hfs).
  assert (T1 = T2) by (rewrite Ht1 in Ht2; now apply app_inv_head in Ht2).
  subst T2.
  assert (Hnone : filter is_write T1 = []).
  { clear - HT1. induction HT1 as [|e T He _ IH]; [reflexivity|].
    simpl. now rewrite He. }
  split.
  - rewrite Hfs. now apply apply_writes_no_write.
  - rewrite Ht1, filter_app, Hnone. apply app_nil_r.
Qed.

(** X11.  [decrypt] and [list_packets] only read: whatever they return or raise,
    the file system is as before and no file was opened for writing. *)
Theorem decrypt_and_list_packets_read_only p home extra utf8 (w : world) :
  (fs (snd (decrypt p home extra utf8 w)) = fs w
   /\ filter is_write (trace (snd (decrypt p home extra utf8 w)))
      = filter is_write (trace w))
  /\ (fs (snd (list_packets p w)) = fs w
      /\ filter is_write (trace (snd (list_packets p w)))
         = filter is_write (trace w)).
Proof.
  split; apply read_only.
  - now apply emits_decrypt.
  - apply replays_decrypt.
  - now apply emits_list_packets.
  - apply replays_list_packets.
Qed.

(** X12.  What [decrypt] returns is the whole standard output of the decrypting
    process, and it is never the empty text: a file whose clear text is
    empty cannot be read back.  With [utf8] the text is valid UTF-8. *)
Theorem decrypt_returns_payload p home extra utf8 (w w' : world) (c : string) :
  decrypt p home extra utf8 w = (Ret c, w') ->
  c <> EmptyString
  /\ (utf8 = true -> utf8_valid c = true)
  /\ exists b o T,
       trace w' = T ++ [EvSpawn (decrypt_command b home extra p) None (Some o)]
       /\ stdout_of o = c.
Proof.
  intros H. apply decrypt_ret_inv in H as (b & w1 & _ & H).
  unfold decrypt_outcome in H.
  destruct (spawn _ None (fs w1) (gpg_state w1)) as [[o|] st]; [|discriminate].
  inversion H as [[Hr Hw]]. clear H. unfold decrypt_result in Hr.
  destruct (stdout_of o) as [|x s] eqn:Hout.
  - simpl in Hr. repeat (break_match_hyp; try discriminate).
  - cbn [is_empty negb] in Hr.
    assert (Hc : c = String x s /\ (utf8 = true -> utf8_valid c = true)).
    { destruct utf8.
      - destruct (utf8_valid (String x s)) eqn:Hv; [|discriminate].
        inversion Hr; subst c. now split.
      - inversion Hr. split; [reflexivity | discriminate]. }
    destruct Hc as (-> & Hv). split; [discriminate|]. split; [assumption|].
    exists b, o, (trace w1). split; [reflexivity | assumption].
Qed.

(** X13.  [encrypt] touches no file but its destination: every other file holds
    what it held, and without a destination the file system is as
    before. *)
Theorem encrypt_writes_destination_only text rcpts dest home (w : world) :
  let w' := snd (encrypt text rcpts dest home w) in
  (forall x content,
     lookup (fs w) x = Some (File content) -> dest <> Some x ->
     lookup (fs w') x = Some (File content))
  /\ (dest = None -> fs w' = fs w).
Proof.
  cbv zeta.
  destruct (emits_encrypt text rcpts dest home w) as (T1 & Ht1 & HT1).
  destruct (replays_encrypt text rcpts dest home w) as (T2 & Ht2 & Hfs).
  assert (T1 = T2) by (rewrite Ht1 in Ht2; now apply app_inv_head in Ht2).
  subst T2. rewrite Hfs. rewrite Forall_forall in HT1. split.
  - intros x content Hx Hdest. apply apply_writes_other_file; [|assumption].
    intros q data Hin ->. apply Hdest. exact (HT1 _ Hin).
  - intros ->. apply apply_writes_no_write.
    clear - HT1. induction T1 as [|e T IH]; [reflexivity|].
    simpl. assert (He := HT1 e (or_introl eq_refl)).
    destruct e; simpl in *; try discriminate; try contradiction;
      apply IH; intros; apply HT1; now right.
Qed.

(** X14.  The diagnostics of [list_packets] come first: a phrase on the first
    line of the diagnostic stream decides the exception, whatever the
    standard output holds. *)
Theorem list_packets_errors_first path_to_file (w w1 : world) b o st :
  get_binary w = (Ret b, w1) ->
  spawn (list_packets_command b path_to_file) None (fs w1) (gpg_state w1)
  = (Some o, st) ->
  let stderr := stderr_of o in
  let w2 := spawned w1 (list_packets_command b path_to_file) None (Some o) st in
  let raises e := list_packets path_to_file w = (Raise e, w2) in
  let cant_open := on_first_line "can't open" stderr in
  let is_a_directory := on_first_line "read error: Is a directory" stderr in
  let no_valid_data := on_first_line "no valid OpenPGP data found" stderr in
  (cant_open -> raises (FileNotFoundError (Some "can't open file")))
  /\ (~ cant_open -> is_a_directory -> raises (ValueError "file is a directory"))
  /\ (~ cant_open -> ~ is_a_directory -> no_valid_data ->
      raises (ValueError "no valid openpgp data found")).
Proof.
  intros Hb Hs. cbv zeta.
  rewrite (list_packets_resolved _ _ _ _ Hb). cbv zeta. rewrite Hs.
  unfold list_packets_result.
  pose proof (re_match_phrase "can't open" (stderr_of o)) as H1.
  pose proof (re_match_phrase "read error: Is a directory" (stderr_of o)) as H2.
  pose proof (re_match_phrase "no valid OpenPGP data found" (stderr_of o)) as H3.
  fold re_cant_open in H1. fold re_is_a_directory in H2. fold re_no_valid_data in H3.
  destruct (re_match re_cant_open (stderr_of o)).
  { repeat split; try reflexivity; intros Hn; exfalso; apply Hn; now apply H1. }
  destruct (re_match re_is_a_directory (stderr_of o)).
  { repeat split; try reflexivity.
    - intros Hy. apply H1 in Hy. discriminate.
    - intros _ Hn. exfalso. apply Hn. now apply H2. }
  destruct (re_match re_no_valid_data (stderr_of o)).
  { repeat split; try reflexivity.
    - intros Hy. apply H1 in Hy. discriminate.
    - intros _ Hy. apply H2 in Hy. discriminate. }
  repeat split.
  - intros Hy. apply H1 in Hy. discriminate.
  - intros _ Hy. apply H2 in Hy. discriminate.
  - intros _ _ Hy. apply H3 in Hy. discriminate.
Qed.

(** The greedy [.*] takes the longest prefix after which the rest of the
    pattern still matches. *)
Lemma rmatch_star_greedy (p : regex) (s : string) :
  forall a ps a' rest',
    rmatch (DotStar :: p) s = Some (a :: ps) ->
    s = (a' ++ rest')%string -> nl_free a' = true -> rmatch p rest' <> None ->
    String.length a' <= String.length a.
Proof.
  induction s as [|c s IH]; intros a ps a' rest' H Hs Hnl Hrest.
  - destruct a'; [simpl; lia | discriminate].
  - destruct a' as [|c' a'']; [simpl; lia|].
    simpl in Hs. inversion Hs; subst c' s. clear Hs.
    simpl in Hnl. apply andb_true_iff in Hnl as (Hc & Hnl).
    rewrite rmatch_star_eq in H. cbv zeta in H.
    destruct (is_nl c); [discriminate|].
    pose proof (rmatch_star_complete p a'' rest' Hnl Hrest) as Hsome.
    destruct (rmatch (DotStar :: p) (a'' ++ rest')) as [[|t ts]|] eqn:E.
    + apply rmatch_star_sound in E as (? & ? & ? & ? & _). discriminate.
    + inversion H; subst a ps. simpl.
      apply le_n_S. eapply IH; eauto.
    + congruence.
Qed.

(** The rest of the pattern of [list_packets] matches at every key token. *)
Lemma rmatch_keyid_at_token (t b : string) :
  keyid_token t ->
  rmatch [GOpen; Lit "keyid "; Class is_hex 16; GClose; DotStar] (t ++ b) <> None.
Proof.
  intros (h & -> & Hlen & Hhex).
  enough (Hm : re_match [GOpen; Lit "keyid "; Class is_hex 16; GClose; DotStar]
                 (("keyid " ++ h) ++ b) = true)
    by (unfold re_match in Hm; destruct (rmatch _ _); congruence).
  rewrite (proj1 (re_match_group _ _)). apply re_match_lit.
  exists (h ++ b)%string. split; [now rewrite sapp_assoc|].
  apply re_match_class. exists h, b. repeat split; try assumption.
  rewrite (proj2 (re_match_group _ _)). apply re_match_star.
  exists EmptyString, b. repeat split.
Qed.

(** X15.  Of a line with several key tokens [list_packets] returns one, the last:
    no token of the line starts further right. *)
Theorem list_packets_last_keyid path_to_file (w w' : world) (ids : list string) :
  list_packets path_to_file w = (Ret ids, w') ->
  exists b o T,
    trace w' = T ++ [EvSpawn (list_packets_command b path_to_file) None (Some o)]
    /\ ids = flat_map keyids_of_line (split_nl (stdout_of o))
    /\ forall line, In line (split_nl (stdout_of o)) ->
         keyids_of_line line = []
         \/ exists t a r,
              keyids_of_line line = [t] /\ keyid_token t
              /\ line = (a ++ t ++ r)%string
              /\ forall a' t' r',
                   line = (a' ++ t' ++ r')%string -> keyid_token t' ->
                   String.length a' <= String.length a.
Proof.
  intros H.
  destruct (get_binary w) as [[b| | |] w1] eqn:Hb;
    try (unfold list_packets, bind in H; rewrite Hb in H; discriminate).
  rewrite (list_packets_resolved _ _ _ _ Hb) in H. cbv zeta in H.
  destruct (spawn _ None (fs w1) (gpg_state w1)) as [[o|] st]; [|discriminate].
  inversion H as [[Hr Hw]]. clear H. unfold list_packets_result in Hr.
  repeat (break_match_hyp; try discriminate). inversion Hr; subst ids. clear Hr.
  exists b, o, (trace w1). split; [reflexivity|]. split; [reflexivity|].
  intros line Hin. apply split_nl_nl_free in Hin.
  unfold keyids_of_line. unfold re_match, re_group.
  destruct (rmatch re_keyid line) as [parts|] eqn:E; [|now left].
  right.
  pose proof (rmatch_keyid_parts _ _ E) as (a & h & r & c & -> & -> & Hl & Hall).
  exists ("keyid " ++ h)%string, a, r. split; [reflexivity|].
  split; [exists h; now repeat split|]. split; [now rewrite !sapp_assoc|].
  intros a' t' r' Hline Ht'.
  eapply (rmatch_star_greedy _ _ _ _ a' (t' ++ r')%string E Hline).
  - rewrite Hline, nl_free_app in Hin. now apply andb_true_iff in Hin as (? & _).
  - now apply rmatch_keyid_at_token.
Qed.

(** ** The [.gpg-id] file *)

Lemma universal_newlines_is_cr_free (s : string) :
  cr_free (universal_newlines s) = true.
Proof.
  enough (H : cr_free (universal_newlines s) = true
              /\ forall c, cr_free (universal_newlines (String c s)) = true)
    by apply H.
  induction s as [|c s [IH1 IH2]].
  - split; [reflexivity|]. intros c. simpl.
    destruct (Ascii.eqb c cr) eqn:E; simpl; [reflexivity|]. now rewrite E.
  - split; [apply IH2|]. intros c'.
    cbn [universal_newlines].
    destruct (Ascii.eqb c' cr) eqn:E.
    + change (cr_free (String nl ?x)) with (cr_free x).
      destruct (is_nl c); [exact IH1 | apply IH2].
    + cbn [cr_free]. rewrite E. simpl. apply IH2.
Qed.

Lemma readlines_cr_free (s : string) :
  cr_free s = true -> Forall (fun l => cr_free l = true) (readlines s).
Proof.
  induction s as [|c s IH]; simpl; [constructor|].
  intros H. apply andb_true_iff in H as (Hc & Hs). specialize (IH Hs).
  destruct (is_nl c).
  - constructor; [|assumption]. simpl. now rewrite Hc.
  - destruct (readlines s) as [|l ls].
    + constructor; [|constructor]. simpl. now rewrite Hc.
    + inversion IH; subst. constructor; [|assumption]. simpl. now rewrite Hc.
Qed.

Lemma remove_nl_no_line_terminator (l : string) :
  cr_free l = true -> no_line_terminator (remove_char nl l) = true.
Proof.
  unfold no_line_terminator. induction l as [|c l IH]; simpl; [reflexivity|].
  intros H. apply andb_true_iff in H as (Hc & Hl). specialize (IH Hl).
  destruct (Ascii.eqb c nl) eqn:E; [assumption|].
  simpl. unfold is_nl. rewrite E, Hc. exact IH.
Qed.

(** Whatever the file holds, the identifiers read from it contain no line
    terminator. *)
Lemma recipients_no_line_terminator (data : string) :
  Forall (fun id => no_line_terminator id = true)
         (map (remove_char nl) (readlines (universal_newlines data))).
Proof.
  pose proof (readlines_cr_free _ (universal_newlines_is_cr_free data)) as H.
  induction H as [|l ls Hl _ IH]; simpl; constructor; [|assumption].
  now apply remove_nl_no_line_terminator.
Qed.

Lemma get_recipients_inv (p : path) (w w' : world) (ids : list string) :
  get_recipients_from_gpg_id p w = (Ret ids, w') ->
  w' = w
  /\ exists data, read_file (fs w) p = inl data
       /\ ids = map (remove_char nl) (readlines (universal_newlines data)).
Proof.
  unfold get_recipients_from_gpg_id, bind, get_fs.
  destruct (read_file (fs w) p) as [data|e]; [|discriminate].
  unfold ret. intros [= <- <-]. split; [reflexivity|]. now exists data.
Qed.

Lemma get_recipients_written (p : path) (ids : list string) (w w' : world) :
  Forall (fun id => no_line_terminator id = true) ids ->
  write_gpg_id_file p ids w = (Ret tt, w') ->
  get_recipients_from_gpg_id p w' = (Ret ids, w')
  /\ read_file (fs w') p = inl (gpg_id_text ids).
Proof.
  intros Hids Hw. unfold write_gpg_id_file, open_write in Hw.
  fold (gpg_id_text ids) in Hw.
  destruct (write_file (fs w) p (gpg_id_text ids)) as [fs'|e] eqn:E; [|discriminate].
  inversion Hw; subst; clear Hw.
  unfold get_recipients_from_gpg_id, bind, get_fs. simpl.
  rewrite (write_file_read_file _ _ _ _ E). unfold ret.
  rewrite (universal_newlines_cr_free _ (cr_free_gpg_id_text _ Hids)).
  now rewrite (readlines_gpg_id_text _ Hids).
Qed.

(** X16.  The identifiers read from a [.gpg-id] file of UTF-8 text never contain
    a line terminator, the read changes nothing, and writing them to a file
    and reading that file gives the same identifiers. *)
Theorem gpg_id_reread (p q : path) (data : string) (ids : list string)
    (w w1 w2 : world) :
  read_file (fs w) p = inl data -> utf8_valid data = true ->
  get_recipients_from_gpg_id p w = (Ret ids, w1) ->
  write_gpg_id_file q ids w1 = (Ret tt, w2) ->
  w1 = w
  /\ Forall (fun id => no_line_terminator id = true) ids
  /\ get_recipients_from_gpg_id q w2 = (Ret ids, w2).
Proof.
  intros _ _ Hr Hw. clear data.
  apply get_recipients_inv in Hr as (-> & data & _ & ->).
  split; [reflexivity|].
  pose proof (recipients_no_line_terminator data) as Hids.
  split; [assumption|]. now apply (get_recipients_written q _ w w2).
Qed.

Lemma universal_newlines_crlf_line (id rest : string) :
  cr_free id = true ->
  universal_newlines (id ++ String cr (String nl rest))
  = (id ++ String nl (universal_newlines rest))%string.
Proof.
  induction id as [|c id IH]; intros H.
  - reflexivity.
  - simpl in H. apply andb_true_iff in H as (Hc & Hid).
    apply negb_true_iff in Hc. simpl. rewrite Hc. now rewrite IH.
Qed.

Lemma universal_newlines_crlf (ids : list string) :
  Forall (fun id => no_line_terminator id = true) ids ->
  universal_newlines (gpg_id_text_crlf ids) = gpg_id_text ids.
Proof.
  unfold gpg_id_text_crlf, gpg_id_text.
  induction 1 as [|id ids Hid _ IH]; [reflexivity|].
  apply andb_prop in Hid as [_ Hcr]. cbn [map sconcat].
  rewrite !sapp_assoc. cbn [append].
  now rewrite (universal_newlines_crlf_line id _ Hcr), IH.
Qed.

(** X17.  A [.gpg-id] file of UTF-8 text with CR LF line ends reads as the
    same identifiers as one with LF line ends. *)
Theorem gpg_id_crlf (p : path) (ids : list string) (w : world) :
  Forall (fun id => no_line_terminator id = true) ids ->
  utf8_valid (gpg_id_text_crlf ids) = true ->
  read_file (fs w) p = inl (gpg_id_text_crlf ids) ->
  get_recipients_from_gpg_id p w = (Ret ids, w).
Proof.
  intros Hids _ Hr. unfold get_recipients_from_gpg_id, bind, get_fs.
  rewrite Hr. unfold ret.
  now rewrite (universal_newlines_crlf _ Hids), (readlines_gpg_id_text _ Hids).
Qed.

Lemma readlines_nil (s : string) : readlines s = [] -> s = EmptyString.
Proof.
  destruct s as [|c s]; [reflexivity|]. simpl.
  destruct (is_nl c); [discriminate|]. destruct (readlines s); discriminate.
Qed.

Lemma gpg_id_text_readlines (t : string) :
  gpg_id_text (map (remove_char nl) (readlines t)) = with_final_nl t.
Proof.
  unfold gpg_id_text. induction t as [|c t IH]; [reflexivity|].
  cbn [readlines with_final_nl]. destruct (is_nl c) eqn:Hc.
  - unfold is_nl in Hc. apply Ascii.eqb_eq in Hc. subst c.
    cbn [map sconcat]. change (remove_char nl (String nl EmptyString)) with EmptyString.
    cbn [append]. rewrite IH.
    destruct t; reflexivity.
  - destruct (readlines t) as [|l ls] eqn:Hl.
    + apply readlines_nil in Hl. subst t.
      cbn [map sconcat remove_char]. unfold is_nl in Hc. rewrite Hc. reflexivity.
    + cbn [map sconcat remove_char] in IH |- *. unfold is_nl in Hc. rewrite Hc.
      cbn [append]. rewrite IH.
      destruct t; [discriminate | reflexivity].
Qed.

(** X18.  Writing back what was read from a [.gpg-id] file of UTF-8 text only
    normalises its line ends: CR LF and CR become LF, and a last line
    without line feed gets one. *)
Theorem gpg_id_rewrite_normalises (p : path) (data : string) (ids : list string)
    (w w1 w2 : world) :
  read_file (fs w) p = inl data -> utf8_valid data = true ->
  get_recipients_from_gpg_id p w = (Ret ids, w1) ->
  write_gpg_id_file p ids w1 = (Ret tt, w2) ->
  read_file (fs w2) p = inl (with_final_nl (universal_newlines data)).
Proof.
  intros Hd _ Hr Hw. apply get_recipients_inv in Hr as (-> & data' & Hd' & ->).
  rewrite Hd in Hd'. inversion Hd'; subst data'. clear Hd'.
  pose proof (recipients_no_line_terminator data) as Hids.
  destruct (get_recipients_written p _ w w2 Hids Hw) as (_ & Hread).
  rewrite Hread. now rewrite gpg_id_text_readlines.
Qed.

(** ** The pattern of [list_available_keys] *)

Lemma xmatch_star_eq (f : ascii -> bool) (p : list xitem) (s : string) :
  xmatch (XStar f :: p) s =
  let stop := option_map (cons EmptyString) (xmatch p s) in
  match s with
  | EmptyString => stop
  | String c s' =>
      if f c then
        match xmatch (XStar f :: p) s' with
        | Some (t :: ts) => Some (String c t :: ts)
        | _ => stop
        end
      else stop
  end.
Proof. destruct s; reflexivity. Qed.

Lemma xmatch_plus_eq (f : ascii -> bool) (p : list xitem) (s : string) :
  xmatch (XPlus f :: p) s =
  match s with
  | EmptyString => None
  | String c0 s0 =>
      if f c0 then
        match xmatch (XStar f :: p) s0 with
        | Some (t :: ts) => Some (String c0 t :: ts)
        | _ => None
        end
      else None
  end.
Proof. destruct s; reflexivity. Qed.

Lemma option_map_cons_inv {A} (x : A) (o : option (list A)) (l : list A) :
  option_map (cons x) o = Some l -> exists l', l = x :: l' /\ o = Some l'.
Proof. destruct o as [l'|]; [|discriminate]. intros [= <-]. now exists l'. Qed.

Lemma xmatch_star_sound f p s parts :
  xmatch (XStar f :: p) s = Some parts ->
  exists a rest ps,
    parts = a :: ps /\ s = (a ++ rest)%string /\ all_of f a = true
    /\ xmatch p rest = Some ps.
Proof.
  revert parts. induction s as [|c s IH]; intros parts; rewrite xmatch_star_eq;
    cbv zeta.
  - intros H. apply option_map_cons_inv in H as (ps & -> & H).
    now exists EmptyString, EmptyString, ps.
  - destruct (f c) eqn:Hc.
    + destruct (xmatch (XStar f :: p) s) as [[|t ts]|] eqn:E.
      * intros H. apply option_map_cons_inv in H as (ps & -> & H).
        now exists EmptyString, (String c s), ps.
      * intros [= <-]. destruct (IH _ eq_refl) as (a & rest & ps & Hp & -> & Ha & Hr).
        inversion Hp; subst. exists (String c a), rest, ps.
        repeat split; try assumption. simpl. now rewrite Hc.
      * intros H. apply option_map_cons_inv in H as (ps & -> & H).
        now exists EmptyString, (String c s), ps.
    + intros H. apply option_map_cons_inv in H as (ps & -> & H).
      now exists EmptyString, (String c s), ps.
Qed.

Lemma xmatch_star_complete f p (a rest : string) :
  all_of f a = true -> xmatch p rest <> None ->
  xmatch (XStar f :: p) (a ++ rest) <> None.
Proof.
  intros Ha Hrest. induction a as [|c a IH].
  - simpl append. rewrite xmatch_star_eq. cbv zeta.
    destruct (xmatch p rest) as [ps|] eqn:E; [|congruence].
    destruct rest as [|c r]; [simpl; discriminate|].
    destruct (f c); [|simpl; discriminate].
    destruct (xmatch (XStar f :: p) r) as [[|t ts]|]; simpl; discriminate.
  - simpl in Ha. apply andb_true_iff in Ha as (Hc & Ha). specialize (IH Ha).
    simpl append. rewrite xmatch_star_eq. cbv zeta. rewrite Hc.
    destruct (xmatch (XStar f :: p) (a ++ rest)) as [[|t ts]|] eqn:E.
    + apply xmatch_star_sound in E as (? & ? & ? & ? & _). discriminate.
    + discriminate.
    + congruence.
Qed.

Lemma xmatch_star_greedy f p (s : string) :
  forall a ps a' rest',
    xmatch (XStar f :: p) s = Some (a :: ps) ->
    s = (a' ++ rest')%string -> all_of f a' = true -> xmatch p rest' <> None ->
    String.length a' <= String.length a.
Proof.
  induction s as [|c s IH]; intros a ps a' rest' H Hs Ha Hrest.
  - destruct a'; [simpl; lia | discriminate].
  - destruct a' as [|c' a'']; [simpl; lia|].
    simpl in Hs. inversion Hs; subst c' s. clear Hs.
    simpl in Ha. apply andb_true_iff in Ha as (Hc & Ha).
    rewrite xmatch_star_eq in H. cbv zeta in H. rewrite Hc in H.
    pose proof (xmatch_star_complete f p a'' rest' Ha Hrest) as Hsome.
    destruct (xmatch (XStar f :: p) (a'' ++ rest')) as [[|t ts]|] eqn:E.
    + apply xmatch_star_sound in E as (? & ? & ? & ? & _). discriminate.
    + inversion H; subst a ps. simpl.
      apply le_n_S. eapply IH; eauto.
    + congruence.
Qed.

Lemma xmatch_plus_sound f p s parts :
  xmatch (XPlus f :: p) s = Some parts ->
  exists a rest ps,
    parts = a :: ps /\ s = (a ++ rest)%string /\ a <> EmptyString
    /\ all_of f a = true /\ xmatch p rest = Some ps.
Proof.
  rewrite xmatch_plus_eq. destruct s as [|c s]; [discriminate|].
  destruct (f c) eqn:Hc; [|discriminate].
  destruct (xmatch (XStar f :: p) s) as [[|t ts]|] eqn:E; try discriminate.
  intros [= <-]. apply xmatch_star_sound in E as (a & rest & ps & Hp & -> & Ha & Hr).
  inversion Hp; subst. exists (String c a), rest, ps.
  repeat split; try assumption; try discriminate. simpl. now rewrite Hc.
Qed.

Lemma xmatch_plus_complete f p (a rest : string) :
  a <> EmptyString -> all_of f a = true -> xmatch p rest <> None ->
  xmatch (XPlus f :: p) (a ++ rest) <> None.
Proof.
  intros Hne Ha Hrest. destruct a as [|c a]; [congruence|].
  simpl in Ha. apply andb_true_iff in Ha as (Hc & Ha).
  simpl append. rewrite xmatch_plus_eq, Hc.
  pose proof (xmatch_star_complete f p a rest Ha Hrest) as Hsome.
  destruct (xmatch (XStar f :: p) (a ++ rest)) as [[|t ts]|] eqn:E.
  - apply xmatch_star_sound in E as (? & ? & ? & ? & _). discriminate.
  - discriminate.
  - congruence.
Qed.

Lemma xmatch_plus_greedy f p (s : string) :
  forall a ps a' rest',
    xmatch (XPlus f :: p) s = Some (a :: ps) ->
    s = (a' ++ rest')%string -> a' <> EmptyString -> all_of f a' = true ->
    xmatch p rest' <> None ->
    String.length a' <= String.length a.
Proof.
  intros a ps a' rest' H Hs Hne Ha Hrest.
  rewrite xmatch_plus_eq in H. destruct s as [|c s]; [discriminate|].
  destruct (f c) eqn:Hc; [|discriminate].
  destruct (xmatch (XStar f :: p) s) as [[|t ts]|] eqn:E; try discriminate.
  inversion H; subst a ps. clear H.
  destruct a' as [|c' a'']; [congruence|].
  simpl in Hs. inversion Hs; subst c' s. clear Hs.
  simpl in Ha. apply andb_true_iff in Ha as (_ & Ha).
  simpl. apply le_n_S. eapply xmatch_star_greedy; eauto.
Qed.

Lemma xmatch_lit_sound l p s parts :
  xmatch (XLit l :: p) s = Some parts ->
  exists rest ps, parts = l :: ps /\ s = (l ++ rest)%string /\ xmatch p rest = Some ps.
Proof.
  cbn [xmatch]. destruct (strip_prefix l s) as [r|] eqn:E; [|discriminate].
  intros H. apply option_map_cons_inv in H as (ps & -> & H).
  exists r, ps. repeat split; [|assumption]. now apply strip_prefix_some.
Qed.

Lemma xmatch_lit_complete l p rest :
  xmatch p rest <> None -> xmatch (XLit l :: p) (l ++ rest) <> None.
Proof.
  intros H. cbn [xmatch]. rewrite strip_prefix_app.
  destruct (xmatch p rest); [discriminate | congruence].
Qed.

Lemma xmatch_one_sound f p s parts :
  xmatch (XOne f :: p) s = Some parts ->
  exists c rest ps,
    parts = String c EmptyString :: ps /\ s = String c rest /\ f c = true
    /\ xmatch p rest = Some ps.
Proof.
  cbn [xmatch]. destruct s as [|c s]; [discriminate|].
  destruct (f c) eqn:Hc; [|discriminate].
  intros H. apply option_map_cons_inv in H as (ps & -> & H).
  now exists c, s, ps.
Qed.

Lemma xmatch_one_complete f p c rest :
  f c = true -> xmatch p rest <> None -> xmatch (XOne f :: p) (String c rest) <> None.
Proof.
  intros Hc H. cbn [xmatch]. rewrite Hc.
  destruct (xmatch p rest); [discriminate | congruence].
Qed.

Lemma all_of_not_nl (s : string) : all_of not_nl s = nl_free s.
Proof. induction s as [|c s IH]; simpl; [reflexivity|]. now rewrite IH. Qed.

Lemma all_of_app f (a b : string) : all_of f (a ++ b) = all_of f a && all_of f b.
Proof.
  induction a as [|c a IH]; simpl; [reflexivity|]. now rewrite IH, andb_assoc.
Qed.

Lemma nl_free_app_inv (a b : string) :
  nl_free (a ++ b) = true -> nl_free a = true /\ nl_free b = true.
Proof. rewrite nl_free_app. apply andb_true_iff. Qed.

(** The end of the pattern, from the bracket on, matches a closing bracket,
    one white-space character and a rest of the line. *)
Lemma xmatch_uid_tail_complete (s : ascii) (name : string) :
  is_space s = true -> nl_free name = true ->
  xmatch [XLit "]"; XOne is_space; XOpen; XStar not_nl; XClose; XEnd]
         ("]" ++ String s name) <> None.
Proof.
  intros Hs Hname. apply xmatch_lit_complete. apply xmatch_one_complete; [assumption|].
  change (xmatch (XOpen :: ?p) ?x) with (option_map (cons EmptyString) (xmatch p x)).
  enough (xmatch [XStar not_nl; XClose; XEnd] name <> None)
    by (destruct (xmatch [XStar not_nl; XClose; XEnd] name); [discriminate|congruence]).
  rewrite <- (sapp_nil_r name). apply xmatch_star_complete.
  - now rewrite all_of_not_nl.
  - discriminate.
Qed.

(** What a match of the pattern says about the line. *)
Lemma xmatch_uid_parts (line : string) (parts : list string) :
  nl_free line = true ->
  xmatch re_uid line = Some parts ->
  exists sp v s name,
    line = ("uid" ++ sp ++ "[" ++ v ++ "]" ++ String s name)%string
    /\ sp <> EmptyString /\ all_of is_space sp = true
    /\ v <> EmptyString /\ is_space s = true /\ nl_free name = true
    /\ xgroup1 re_uid parts None = Some name
    /\ forall v' rest',
         (v ++ "]" ++ String s name)%string = (v' ++ rest')%string ->
         v' <> EmptyString ->
         xmatch [XLit "]"; XOne is_space; XOpen; XStar not_nl; XClose; XEnd] rest'
         <> None ->
         String.length v' <= String.length v.
Proof.
  intros Hnl H. unfold re_uid in H.
  apply xmatch_lit_sound in H as (r1 & ps1 & -> & -> & H).
  apply xmatch_plus_sound in H as (sp & r2 & ps2 & -> & -> & Hsp & Hsps & H).
  apply xmatch_lit_sound in H as (r3 & ps3 & -> & -> & H).
  pose proof H as Hgreedy.
  apply xmatch_plus_sound in H as (v & r4 & ps4 & Hps & -> & Hv & Hvs & H).
  subst ps3.
  apply xmatch_lit_sound in H as (r5 & ps5 & -> & -> & H).
  apply xmatch_one_sound in H as (s & r6 & ps6 & -> & -> & Hs & H).
  change (xmatch (XOpen :: ?p) ?x) with (option_map (cons EmptyString) (xmatch p x)) in H.
  apply option_map_cons_inv in H as (ps7 & -> & H).
  apply xmatch_star_sound in H as (name & r7 & ps8 & -> & -> & Hname & H).
  change (xmatch (XClose :: ?p) ?x) with (option_map (cons EmptyString) (xmatch p x)) in H.
  apply option_map_cons_inv in H as (ps9 & -> & H).
  cbn [xmatch] in H. destruct (at_end r7) eqn:Hend; [|discriminate].
  apply option_map_cons_inv in H as (ps10 & -> & H). inversion H; subst ps10. clear H.
  apply nl_free_app_inv in Hnl as (_ & Hnl).
  apply nl_free_app_inv in Hnl as (_ & Hnl).
  apply nl_free_app_inv in Hnl as (_ & Hnl).
  pose proof Hnl as Hvrest.
  apply nl_free_app_inv in Hnl as (_ & Hnl).
  apply nl_free_app_inv in Hnl as (_ & Hnl).
  change (nl_free (String s ?x)) with (negb (is_nl s) && nl_free x) in Hnl.
  apply andb_true_iff in Hnl as (_ & Hnl).
  apply nl_free_app_inv in Hnl as (_ & Hnl).
  assert (r7 = EmptyString).
  { destruct r7 as [|c [|c' r]]; try reflexivity; try discriminate.
    simpl in Hend, Hnl. rewrite Hend in Hnl. discriminate. }
  subst r7. rewrite sapp_nil_r in *.
  exists sp, v, s, name. repeat split; try assumption;
    try (rewrite <- all_of_not_nl; assumption).
  intros v' rest' Hsplit Hv' Hrest.
  eapply (xmatch_plus_greedy _ _ _ _ _ v' rest' Hgreedy Hsplit Hv'); [|assumption].
    rewrite all_of_not_nl. rewrite Hsplit in Hvrest.
    now apply nl_free_app_inv in Hvrest as (? & _).
Qed.

(** ** [list_available_keys] *)

Lemma sapp_split (a b a' b' : string) :
  (a ++ b)%string = (a' ++ b')%string -> String.length a <= String.length a' ->
  exists y, a' = (a ++ y)%string /\ b = (y ++ b')%string.
Proof.
  revert a'. induction a as [|c a IH]; intros a' H Hlen.
  - exists a'. now split.
  - destruct a' as [|c' a']; [simpl in Hlen; lia|].
    simpl in H. inversion H; subst c'.
    destruct (IH a' H2 ltac:(simpl in Hlen; lia)) as (y & -> & ->).
    now exists y.
Qed.

(** What [list_available_keys] takes from a line: nothing, or the text
    after the last closing bracket that is followed by white space. *)
Lemma uid_of_line_spec (line : string) :
  nl_free line = true ->
  uid_of_line line = []
  \/ exists name sp v s,
       uid_of_line line = [name]
       /\ line = ("uid" ++ sp ++ "[" ++ v ++ "]" ++ String s name)%string
       /\ sp <> EmptyString /\ all_of is_space sp = true
       /\ v <> EmptyString /\ is_space s = true
       /\ nl_free name = true /\ ~ has_bracket_space name
       /\ forall v' rest',
            (v ++ "]" ++ String s name)%string = (v' ++ rest')%string ->
            v' <> EmptyString ->
            xmatch [XLit "]"; XOne is_space; XOpen; XStar not_nl; XClose; XEnd] rest'
            <> None ->
            String.length v' <= String.length v.
Proof.
  intros Hnl. unfold uid_of_line, x_match, x_group.
  destruct (xmatch re_uid line) as [parts|] eqn:E; [|now left].
  destruct (xmatch_uid_parts line parts Hnl E)
    as (sp & v & s & name & Hline & Hsp & Hsps & Hv & Hs & Hname & Hg & Hgreedy).
  rewrite Hg. right. exists name, sp, v, s. repeat split; try assumption.
  intros (a & s2 & r & Ha & Hs2).
  assert (Hr : nl_free r = true).
  { rewrite Ha in Hname. apply nl_free_app_inv in Hname as (_ & Hname).
    apply nl_free_app_inv in Hname as (_ & Hname). simpl in Hname.
    now apply andb_true_iff in Hname as (_ & ?). }
  specialize (Hgreedy (v ++ "]" ++ String s a)%string ("]" ++ String s2 r)%string).
  rewrite !slength_app in Hgreedy. simpl in Hgreedy.
  enough (String.length v + S (S (String.length a)) <= String.length v) by lia.
  apply Hgreedy.
  - rewrite Ha. rewrite !sapp_assoc. reflexivity.
  - destruct v; [congruence | discriminate].
  - now apply xmatch_uid_tail_complete.
Qed.

(** The loop of [list_available_keys] in closed form: the names of all
    lines, unless one of them is not UTF-8. *)
Lemma uid_names_spec (lines : list string) (w : world) :
  uid_names lines w
  = (if forallb utf8_valid (flat_map uid_of_line lines)
     then Ret (flat_map uid_of_line lines) else Raise UnicodeDecodeError, w).
Proof.
  induction lines as [|line rest IH]; [reflexivity|].
  cbn [uid_names flat_map]. unfold uid_of_line at 1 3 4.
  destruct (x_match re_uid line); [|exact IH].
  destruct (x_group re_uid line) as [g|]; [|exact IH].
  cbn [app forallb]. unfold bind at 1. unfold decode_utf8.
  destruct (utf8_valid g); [|reflexivity].
  unfold ret at 1. unfold bind. rewrite IH.
  now destruct (forallb utf8_valid (flat_map uid_of_line rest)).
Qed.

Lemma list_available_keys_resolved extra secret (w w1 : world) (b : string) :
  get_binary w = (Ret b, w1) ->
  list_available_keys extra secret w
  = let argv := list_keys_command b extra secret in
    let '(res, st) := spawn argv None (fs w1) (gpg_state w1) in
    let w2 := spawned w1 argv None res st in
    match res with
    | None => (Raise (FileNotFoundError None), w2)
    | Some o =>
        (if forallb utf8_valid (uids (stdout_of o))
         then Ret (uids (stdout_of o)) else Raise UnicodeDecodeError, w2)
    end.
Proof.
  intros Hb. unfold list_available_keys. cbv zeta. unfold bind at 1. rewrite Hb.
  unfold bind at 1. unfold popen, list_keys_command, spawned.
  destruct secret; cbn [negb];
    (destruct (spawn _ None (fs w1) (gpg_state w1)) as [[o|] st];
     [apply uid_names_spec | reflexivity]).
Qed.

(** X19.  The outcome of [list_available_keys] is decided by the standard output
    of the listing alone: the diagnostic stream is not looked at, and the
    only exception after the process has run is [UnicodeDecodeError], which
    one name that is not UTF-8 raises for the whole listing. *)
Theorem list_available_keys_outcome extra secret (w w1 : world) b o st :
  get_binary w = (Ret b, w1) ->
  spawn (list_keys_command b extra secret) None (fs w1) (gpg_state w1)
  = (Some o, st) ->
  let names := uids (stdout_of o) in
  let w2 := spawned w1 (list_keys_command b extra secret) None (Some o) st in
  (Forall (fun name => utf8_valid name = true) names ->
   list_available_keys extra secret w = (Ret names, w2))
  /\ (Exists (fun name => utf8_valid name = false) names ->
      list_available_keys extra secret w = (Raise UnicodeDecodeError, w2))
  /\ (stdout_of o = EmptyString -> list_available_keys extra secret w = (Ret [], w2)).
Proof.
  intros Hb Hs. cbv zeta.
  rewrite (list_available_keys_resolved _ _ _ _ _ Hb). cbv zeta. rewrite Hs.
  split; [|split].
  - intros H. apply forallb_forall in H || (rewrite Forall_forall in H).
    assert (E : forallb utf8_valid (uids (stdout_of o)) = true)
      by (apply forallb_forall; exact H).
    now rewrite E.
  - intros H. apply Exists_exists in H as (name & Hin & Hbad).
    destruct (forallb utf8_valid (uids (stdout_of o))) eqn:E; [|reflexivity].
    rewrite forallb_forall in E. rewrite (E _ Hin) in Hbad. discriminate.
  - intros ->. reflexivity.
Qed.

Lemma list_available_keys_ret_inv extra secret (w w' : world) names :
  list_available_keys extra secret w = (Ret names, w') ->
  exists b o T,
    trace w' = T ++ [EvSpawn (list_keys_command b extra secret) None (Some o)]
    /\ names = uids (stdout_of o)
    /\ forallb utf8_valid names = true.
Proof.
  intros H.
  destruct (get_binary w) as [[b| | |] w1] eqn:Hb;
    try (unfold list_available_keys, bind in H; rewrite Hb in H; discriminate).
  rewrite (list_available_keys_resolved _ _ _ _ _ Hb) in H. cbv zeta in H.
  destruct (spawn _ None (fs w1) (gpg_state w1)) as [[o|] st]; [|discriminate].
  destruct (forallb utf8_valid (uids (stdout_of o))) eqn:E; [|discriminate].
  inversion H; subst. exists b, o, (trace w1). now repeat split.
Qed.

(** X20.  Every name that [list_available_keys] returns is UTF-8, stands at the
    end of a line of the listing that starts with [uid], and holds no
    closing bracket followed by white space: of a user id with such a
    bracket only the text after the last one is returned. *)
Theorem list_available_keys_names extra secret (w w' : world) names :
  list_available_keys extra secret w = (Ret names, w') ->
  exists b o T,
    trace w' = T ++ [EvSpawn (list_keys_command b extra secret) None (Some o)]
    /\ Forall (fun name =>
                 utf8_valid name = true
                 /\ ~ has_bracket_space name
                 /\ exists line sp v s,
                      In line (split_nl (stdout_of o))
                      /\ line = ("uid" ++ sp ++ "[" ++ v ++ "]" ++ String s name)%string
                      /\ sp <> EmptyString /\ all_of is_space sp = true
                      /\ v <> EmptyString /\ is_space s = true) names.
Proof.
  intros H. apply list_available_keys_ret_inv in H as (b & o & T & HT & -> & Hv).
  exists b, o, T. split; [assumption|].
  rewrite forallb_forall in Hv. apply Forall_forall. intros name Hin.
  split; [now apply Hv|].
  unfold uids in Hin. apply in_flat_map in Hin as (line & Hline & Hin).
  destruct (uid_of_line_spec line (split_nl_nl_free _ _ Hline))
    as [E | (name' & sp & v & s & E & Hl & Hsp & Hsps & Hv' & Hs & _ & Hno & _)];
    rewrite E in Hin; [destruct Hin|].
  destruct Hin as [<- | []]. split; [assumption|].
  exists line, sp, v, s. now repeat split.
Qed.

Lemma all_of_space_prefix (a a' x x' : string) :
  all_of is_space a = true -> all_of is_space a' = true ->
  (a ++ "[" ++ x)%string = (a' ++ "[" ++ x')%string -> a = a' /\ x = x'.
Proof.
  revert a'. induction a as [|c a IH]; intros a' Ha Ha' H.
  - destruct a' as [|c' a']; [simpl in H; inversion H; now split|].
    simpl in H. inversion H; subst c'. simpl in Ha'. discriminate.
  - destruct a' as [|c' a'].
    + simpl in H. inversion H; subst c. simpl in Ha. discriminate.
    + simpl in H. inversion H; subst c'.
      simpl in Ha, Ha'. apply andb_true_iff in Ha as (_ & Ha).
      apply andb_true_iff in Ha' as (_ & Ha').
      destruct (IH a' Ha Ha' H2) as (-> & ->). now split.
Qed.

(** A line of the listing with the word [uid], white space, a validity in
    brackets, one white-space character and a name without a closing
    bracket followed by white space yields that name. *)
Lemma uid_of_line_complete (sp v : string) (s : ascii) (name : string) :
  let line := ("uid" ++ sp ++ "[" ++ v ++ "]" ++ String s name)%string in
  nl_free line = true ->
  sp <> EmptyString -> all_of is_space sp = true ->
  v <> EmptyString -> is_space s = true ->
  ~ has_bracket_space name ->
  uid_of_line line = [name].
Proof.
  cbv zeta. intros Hnl Hsp Hsps Hv Hs Hno.
  pose proof Hnl as Hparts.
  apply nl_free_app_inv in Hparts as (_ & Hparts).
  apply nl_free_app_inv in Hparts as (_ & Hparts).
  apply nl_free_app_inv in Hparts as (_ & Hparts).
  apply nl_free_app_inv in Hparts as (Hvnl & Hparts).
  apply nl_free_app_inv in Hparts as (_ & Hparts).
  change (nl_free (String s ?x)) with (negb (is_nl s) && nl_free x) in Hparts.
  apply andb_true_iff in Hparts as (_ & Hname).
  assert (Hm : xmatch re_uid ("uid" ++ sp ++ "[" ++ v ++ "]" ++ String s name) <> None).
  { unfold re_uid. apply xmatch_lit_complete.
    apply xmatch_plus_complete; [assumption..|].
    apply xmatch_lit_complete.
    apply xmatch_plus_complete; [assumption | now rewrite all_of_not_nl |].
    now apply xmatch_uid_tail_complete. }
  destruct (uid_of_line_spec _ Hnl)
    as [E | (name1 & sp1 & v1 & s1 & E & Hl & Hsp1 & Hsps1 & Hv1 & Hs1 & Hname1 & _ & Hgreedy)].
  { exfalso. unfold uid_of_line, x_match, x_group in E.
    destruct (xmatch re_uid _) as [parts|] eqn:Ep; [|congruence].
    destruct (xmatch_uid_parts _ parts Hnl Ep) as (? & ? & ? & ? & _ & _ & _ & _ & _ & _ & Hg & _).
    rewrite Hg in E. discriminate. }
  rewrite E. f_equal.
  cbn [append] in Hl. injection Hl as Hl.
  apply all_of_space_prefix in Hl as (<- & Hrest); [|assumption..].
  assert (Hlen : String.length v <= String.length v1).
  { apply (Hgreedy v ("]" ++ String s name)%string);
      [now symmetry | assumption | now apply xmatch_uid_tail_complete]. }
  destruct (sapp_split _ _ _ _ Hrest Hlen) as (y & -> & Hy).
  destruct y as [|c [|c2 y]].
  - simpl in Hy. now inversion Hy.
  - simpl in Hy. inversion Hy; subst. discriminate.
  - simpl in Hy. inversion Hy; subst. exfalso. apply Hno.
    now exists y, s1, name1.
Qed.

(** X21.  A well-formed line of the listing is not lost: when the call returns,
    the name of every such line is among the names. *)
Theorem list_available_keys_finds_uid_line extra secret (w w' : world) names
    (b : string) (o : output) (T : list event) (sp v : string) (s : ascii)
    (name : string) :
  list_available_keys extra secret w = (Ret names, w') ->
  trace w' = T ++ [EvSpawn (list_keys_command b extra secret) None (Some o)] ->
  In ("uid" ++ sp ++ "[" ++ v ++ "]" ++ String s name)%string
     (split_nl (stdout_of o)) ->
  sp <> EmptyString -> all_of is_space sp = true ->
  v <> EmptyString -> is_space s = true ->
  ~ has_bracket_space name ->
  In name names.
Proof.
  intros H HT Hin Hsp Hsps Hv Hs Hno.
  apply list_available_keys_ret_inv in H as (b' & o' & T' & HT' & -> & _).
  rewrite HT in HT'. apply app_inj_tail in HT' as (_ & E).
  inversion E; subst o'. unfold uids. apply in_flat_map.
  eexists; split; [exact Hin|].
  rewrite (uid_of_line_complete sp v s name); [now left | | assumption..].
  exact (split_nl_nl_free _ _ Hin).
Qed.

(** ** [import_gpg_keys] *)

(** X22.  Without key files nothing happens: when [.available-keys] is missing,
    is a file or is an empty directory, no process is started, not even
    the version query. *)
Theorem import_gpg_keys_without_keys (root_path : path) (w : world) :
  (forall es, lookup (fs w) (path_join root_path ".available-keys") = Some (Dir es) ->
              es = []) ->
  import_gpg_keys root_path w = (Ret tt, w).
Proof.
  intros H. unfold import_gpg_keys. cbv zeta. unfold bind at 1, get_fs.
  destruct (lookup (fs w) (path_join root_path ".available-keys")) as [[data|es]|];
    try reflexivity.
  now rewrite (H es eq_refl).
Qed.

(** X23.  With entries in [.available-keys] one process imports them all: every
    entry of the directory, sub-directories included, in the order of the
    listing.  What the process prints is not looked at: the call returns
    normally whenever the process could be started. *)
Theorem import_gpg_keys_one_process (root_path : path) (w w1 : world)
    (es : list (string * node)) (b : string) res st :
  let key_directory := path_join root_path ".available-keys" in
  let argv := [Str b; Str "--import"]
              ++ map (fun e => Pth (path_join key_directory (fst e))) es in
  lookup (fs w) key_directory = Some (Dir es) -> es <> [] ->
  get_binary w = (Ret b, w1) ->
  spawn argv None (fs w1) (gpg_state w1) = (res, st) ->
  import_gpg_keys root_path w
  = (match res with
     | Some _ => Ret tt
     | None => Raise (FileNotFoundError None)
     end, spawned w1 argv None res st).
Proof.
  cbv zeta. intros Hdir Hes Hb Hs. unfold import_gpg_keys. cbv zeta.
  unfold bind at 1, get_fs. rewrite Hdir. unfold listdir.
  destruct es as [|e es]; [congruence|].
  cbn [map]. unfold bind at 1. rewrite Hb. unfold bind at 1, popen.
  rewrite !map_map in *. cbn [map] in Hs.
  rewrite Hs. destruct res; reflexivity.
Qed.

Lemma emits_list_available_keys (P : event -> Prop) extra secret :
  (forall argv input res, P (EvSpawn argv input res)) ->
  emits P (list_available_keys extra secret).
Proof.
  intros H. unfold list_available_keys. cbv zeta.
  apply emits_bind; [now apply emits_get_binary|]. intros b.
  apply emits_bind; [apply emits_popen; intros; apply H|]. intros o.
  intros w. rewrite uid_names_spec. exists []. simpl. rewrite app_nil_r.
  split; [reflexivity | constructor].
Qed.

Lemma replays_list_available_keys extra secret :
  replays (list_available_keys extra secret).
Proof.
  unfold list_available_keys. cbv zeta.
  apply replays_bind; [apply replays_get_binary|]. intros b.
  apply replays_bind; [apply replays_popen|]. intros o.
  intros w. rewrite uid_names_spec. exists []. simpl. rewrite app_nil_r.
  split; reflexivity.
Qed.

Lemma emits_import_gpg_keys (P : event -> Prop) root_path :
  (forall argv input res, P (EvSpawn argv input res)) ->
  emits P (import_gpg_keys root_path).
Proof.
  intros H. unfold import_gpg_keys. cbv zeta.
  apply emits_bind; [apply emits_get_fs|]. intros cur.
  destruct (lookup cur _) as [[data|es]|]; try apply emits_ret.
  destruct (map _ _); [apply emits_ret|].
  apply emits_bind; [now apply emits_get_binary|]. intros b.
  apply emits_bind; [apply emits_popen; intros; apply H|]. intros o.
  apply emits_ret.
Qed.

Lemma replays_import_gpg_keys root_path : replays (import_gpg_keys root_path).
Proof.
  unfold import_gpg_keys. cbv zeta.
  apply replays_bind; [apply replays_get_fs|]. intros cur.
  destruct (lookup cur _) as [[data|es]|]; try apply replays_ret.
  destruct (map _ _); [apply replays_ret|].
  apply replays_bind; [apply replays_get_binary|]. intros b.
  apply replays_bind; [apply replays_popen|]. intros o.
  apply replays_ret.
Qed.

(** X24.  [list_available_keys] and [import_gpg_keys] write no file: whatever
    they return or raise, the file system is as before. *)
Theorem keys_listing_and_import_read_only extra secret root_path (w : world) :
  (fs (snd (list_available_keys extra secret w)) = fs w
   /\ filter is_write (trace (snd (list_available_keys extra secret w)))
      = filter is_write (trace w))
  /\ (fs (snd (import_gpg_keys root_path w)) = fs w
      /\ filter is_write (trace (snd (import_gpg_keys root_path w)))
         = filter is_write (trace w)).
Proof.
  split; apply read_only.
  - now apply emits_list_available_keys.
  - apply replays_list_available_keys.
  - now apply emits_import_gpg_keys.
  - apply replays_import_gpg_keys.
Qed.

(** ** The recipient list *)

Lemma mem_In (key : string) (l : list string) : mem key l = true <-> In key l.
Proof.
  unfold mem. rewrite existsb_exists. split.
  - intros (x & Hin & E). apply String.eqb_eq in E. now subst.
  - intros H. exists key. split; [assumption | apply String.eqb_refl].
Qed.

Lemma refresh_recipients_ret widget rcpts (w w' : world) widget' :
  refresh_recipients widget rcpts w = (Ret tt, widget', w') ->
  exists keys,
    list_available_keys None false w = (Ret keys, w')
    /\ widget'
       = map (fun key => Recipient key (mem key rcpts) true) keys
         ++ map (fun key => Recipient key true false)
                (filter (fun key => negb (mem key keys)) rcpts).
Proof.
  unfold refresh_recipients. cbv zeta.
  destruct (list_available_keys None false w) as [[keys| | |] w1]; try discriminate.
  intros [= <- <-]. exists keys. split; [reflexivity|]. cbn [app]. f_equal.
  - apply map_ext. intros key. now destruct (mem key rcpts).
  - clear. induction rcpts as [|r rcpts IH]; [reflexivity|].
    cbn [flat_map filter]. destruct (negb (mem r keys)); simpl; now rewrite IH.
Qed.

Lemma checked_names_eq (keys rcpts : list string) :
  get_checked_item_names
    (map (fun key => Recipient key (mem key rcpts) true) keys
     ++ map (fun key => Recipient key true false)
            (filter (fun key => negb (mem key keys)) rcpts))
  = filter (fun key => mem key rcpts) keys
    ++ filter (fun key => negb (mem key keys)) rcpts.
Proof.
  unfold get_checked_item_names. rewrite filter_app, map_app. f_equal.
  - induction keys as [|k keys IH]; [reflexivity|].
    cbn [map filter item_checked Recipient].
    destruct (mem k rcpts); simpl; now rewrite IH.
  - induction (filter (fun key => negb (mem key keys)) rcpts) as [|k l IH];
      [reflexivity|]. simpl. now rewrite IH.
Qed.

Lemma checked_names_spec (keys rcpts : list string) (key : string) :
  In key (filter (fun key => mem key rcpts) keys
          ++ filter (fun key => negb (mem key keys)) rcpts)
  <-> In key rcpts.
Proof.
  rewrite in_app_iff, !filter_In. split.
  - intros [(_ & H) | (H & _)]; [now apply mem_In | assumption].
  - intros Hin. destruct (mem key keys) eqn:Hk.
    + left. split; [now apply mem_In | now apply mem_In].
    + right. split; [assumption | reflexivity].
Qed.

(** X25.  After a refresh the checked names are the given recipients, each of
    them and no other; when the listing of the keys fails, the list is left
    empty, whatever it held before. *)
Theorem refresh_checks_recipients widget rcpts (w w' : world) r widget' :
  refresh_recipients widget rcpts w = (r, widget', w') ->
  (r = Ret tt ->
   forall key, In key (get_checked_item_names widget') <-> In key rcpts)
  /\ ((forall v, r <> Ret v) -> widget' = []).
Proof.
  intros H. split.
  - intros ->. apply refresh_recipients_ret in H as (keys & _ & ->).
    intros key. rewrite checked_names_eq. apply checked_names_spec.
  - intros Hr. unfold refresh_recipients in H. cbv zeta in H.
    destruct (list_available_keys None false w) as [[keys| | |] w1];
      inversion H; subst; try reflexivity.
    now destruct (Hr tt).
Qed.

(** X26.  After a refresh the list holds the available keys in the order of the
    listing, followed by the recipients that are not available.  An item is
    enabled exactly when its key is available and checked exactly when it
    is a recipient, so that every disabled item is checked. *)
Theorem refresh_lists_available_first widget rcpts (w w' : world) widget' :
  refresh_recipients widget rcpts w = (Ret tt, widget', w') ->
  exists keys,
    list_available_keys None false w = (Ret keys, w')
    /\ map item_text widget' = keys ++ filter (fun key => negb (mem key keys)) rcpts
    /\ Forall (fun it => item_enabled it = mem (item_text it) keys
                         /\ item_checked it = mem (item_text it) rcpts) widget'.
Proof.
  intros H. apply refresh_recipients_ret in H as (keys & Hk & ->).
  exists keys. split; [assumption|]. split.
  - rewrite map_app, !map_map. cbn [item_text Recipient]. now rewrite !map_id.
  - apply Forall_app. split; apply Forall_forall; intros it Hin;
      apply in_map_iff in Hin as (k & <- & Hin); simpl.
    + split; [symmetry; now apply mem_In | reflexivity].
    + apply filter_In in Hin as (Hin & Hno). apply negb_true_iff in Hno.
      split; [now rewrite Hno | symmetry; now apply mem_In].
Qed.

Lemma filter_none {A} (P : A -> bool) (l : list A) :
  (forall x, In x l -> P x = false) -> filter P l = [].
Proof.
  induction l as [|x l IH]; intros H; [reflexivity|].
  simpl. rewrite (H x (or_introl eq_refl)). apply IH. intros; apply H; now right.
Qed.

Lemma filter_idem {A} (P : A -> bool) (l : list A) :
  filter P (filter P l) = filter P l.
Proof.
  induction l as [|x l IH]; [reflexivity|].
  simpl. destruct (P x) eqn:E; [|exact IH]. simpl. now rewrite E, IH.
Qed.

(** X27.  Reading the checked names and refreshing with them gives the same list
    again, as long as the listing of the keys is the same. *)
Theorem refresh_checked_roundtrip widget rcpts (w w1 w2 : world) widget1 widget2 keys :
  refresh_recipients widget rcpts w = (Ret tt, widget1, w1) ->
  list_available_keys None false w = (Ret keys, w1) ->
  list_available_keys None false w1 = (Ret keys, w2) ->
  refresh_recipients widget1 (get_checked_item_names widget1) w1 = (Ret tt, widget2, w2) ->
  widget2 = widget1.
Proof.
  intros H1 Hk1 Hk2 H2.
  apply refresh_recipients_ret in H1 as (keys1 & Hk1' & E1).
  rewrite Hk1 in Hk1'. inversion Hk1'; subst keys1. clear Hk1'.
  apply refresh_recipients_ret in H2 as (keys2 & Hk2' & E2).
  rewrite Hk2 in Hk2'. inversion Hk2'; subst keys2. clear Hk2'.
  rewrite E2, E1. rewrite checked_names_eq. f_equal.
  - apply map_ext_in. intros key Hin. f_equal.
    apply eq_true_iff_eq. rewrite !mem_In. apply checked_names_spec.
  - f_equal. rewrite filter_app.
    assert (Hnone : filter (fun key => negb (mem key keys))
                      (filter (fun key => mem key rcpts) keys) = []).
    { apply filter_none. intros k Hin. apply filter_In in Hin as (Hin & _).
      apply mem_In in Hin. now rewrite Hin. }
    rewrite Hnone. cbn [app]. apply filter_idem.
Qed.

End FurtherProperties.

(* ================================================================== *)
(** * The further properties on concrete stores *)

Lemma reencrypt_ignores_missing_folder_witness :
  recursive_reencrypt 1 ["R"; "a.gpg"] ["K3"] None None (test_world boundary_store)
  = (Ret tt, emit (EvCall ["R"; "a.gpg"] ["K3"] None None) (test_world boundary_store)).
Proof.
  apply (reencrypt_ignores_missing_folder (BK := test_backend) 0 ["R"; "a.gpg"] ["K3"]
           None None (test_world boundary_store)).
  intros es. vm_compute. discriminate.
Defined.

Lemma reencrypt_spares_other_files_witness :
  lookup (fs (snd (recursive_reencrypt 4 ["R"] ["me"; "K3"] None None
                     (test_world boundary_store))))
         ["R"; "notes.txt"]
  = Some (File "plain").
Proof.
  apply (reencrypt_spares_other_files (BK := test_backend) 4 ["R"] ["me"; "K3"] None None
           (test_world boundary_store) ["R"; "notes.txt"] "plain").
  - vm_compute. reflexivity.
  - intros s f H. simpl in H. injection H as H.
    destruct s as [|a [|b s]]; simpl in H; try discriminate.
    injection H as <-. reflexivity.
Defined.

Lemma reencrypt_spares_boundary_files_witness :
  lookup (fs (snd (recursive_reencrypt 4 ["R"] ["me"; "K3"] None None
                     (test_world boundary_store))))
         (path_join ["R"; "T"] "d.gpg")
  = Some (File "K2,me|delta").
Proof.
  apply (reencrypt_spares_boundary_files (BK := test_backend) 4 ["R"] ["me"; "K3"]
           None None (test_world boundary_store) ["R"; "T"] "d.gpg" "K2,me|delta").
  - discriminate.
  - vm_compute. reflexivity.
  - vm_compute. reflexivity.
Defined.

Lemma reencrypt_stops_at_first_failure_witness :
  let w := test_world failing_store in
  let wa := snd (for_each ["a.gpg"] (reencrypt_file ["R"] ["K3"] None None)
                          (emit (EvCall ["R"] ["K3"] None None) w)) in
  let wb := snd (reencrypt_file ["R"] ["K3"] None None "b.gpg" wa) in
  recursive_reencrypt 2 ["R"] ["K3"] None None w
  = (Raise (ValueError "no secret key"), wb)
  /\ fs wb = fs wa.
Proof.
  intros w wa wb.
  apply (reencrypt_stops_at_first_failure (BK := test_backend) 1 ["R"] ["K3"] None None
           w wa wb
           [("a.gpg", File "me|alpha"); ("b.gpg", File "K2|beta");
            ("c.gpg", File "me|gamma")]
           ["a.gpg"] ["c.gpg"] "b.gpg" (ValueError "no secret key")).
  - reflexivity.
  - reflexivity.
  - vm_compute. reflexivity.
  - vm_compute. reflexivity.
Defined.

Lemma get_binary_prefers_gpg_witness :
  let o := [(Out, line "gpg (GnuPG) 2.2.27")] in
  get_binary (canned_world [] (Dir []))
  = (Ret "gpg",
     @Build_world (canned_backend []) (Dir []) tt (Some "gpg")
                  [EvSpawn gpg_version None (Some o)]).
Proof.
  intros o.
  apply (get_binary_prefers_gpg (BK := canned_backend []) (canned_world [] (Dir [])) o tt).
  - reflexivity.
  - vm_compute. reflexivity.
  - split; [vm_compute; reflexivity|]. exists (line "2.27"). reflexivity.
Defined.

Lemma get_binary_falls_back_to_gpg2_witness :
  let o := [(Out, line "gpg (GnuPG) 1.4.23")] in
  let o2 := [(Out, line "gpg (GnuPG) 2.2.27"); (Out, line "libgcrypt 1.8.8")] in
  get_binary (test_world (Dir []))
  = (Ret "gpg2",
     @Build_world test_backend (Dir []) tt (Some "gpg2")
                  [EvSpawn gpg_version None (Some o);
                   EvSpawn gpg2_version None (Some o2)]).
Proof.
  intros o o2.
  apply (get_binary_falls_back_to_gpg2 (BK := test_backend) (test_world (Dir []))
           o o2 tt tt).
  - reflexivity.
  - vm_compute. reflexivity.
  - split; [vm_compute; reflexivity|]. exists (line "4.23"). reflexivity.
  - vm_compute. reflexivity.
  - split; [vm_compute; reflexivity|].
    exists (line "2.27" ++ line "libgcrypt 1.8.8")%string. reflexivity.
Defined.

Lemma get_binary_exits_without_version_2_witness :
  exists w', get_binary (old_world (Dir [])) = (Exit 1, w')
             /\ binary_cache w' = None /\ fs w' = Dir [].
Proof.
  pose (o := [(Out, line "gpg (GnuPG) 1.4.23")]).
  apply (get_binary_exits_without_version_2 (BK := old_backend) (old_world (Dir []))
           o tt).
  - reflexivity.
  - vm_compute. reflexivity.
  - vm_compute. reflexivity.
  - vm_compute. discriminate.
  - intros (_ & rest & H). vm_compute in H. discriminate.
  - intros _. exists o, tt.
    split; [vm_compute; reflexivity|]. split; [vm_compute; reflexivity|].
    split; [vm_compute; discriminate|].
    intros (_ & rest & H). vm_compute in H. discriminate.
Defined.

Lemma get_binary_without_output_witness :
  get_binary (mute_world (Dir []))
  = (Raise IndexError,
     @Build_world mute_backend (Dir []) tt None [EvSpawn gpg_version None (Some [])]).
Proof.
  apply (get_binary_without_output (BK := mute_backend) (mute_world (Dir []))
           (Some []) tt).
  - reflexivity.
  - reflexivity.
  - intros o [= <-]. reflexivity.
Defined.

Lemma get_binary_failure_not_cached_witness :
  let w' := snd (get_binary (mute_world (Dir []))) in
  binary_cache w' = None
  /\ exists res T,
       trace (snd (get_binary w')) = trace w' ++ EvSpawn gpg_version None res :: T.
Proof.
  intros w'.
  apply (get_binary_failure_not_cached (BK := mute_backend) (mute_world (Dir [])) w'
           (Raise IndexError)).
  - vm_compute. reflexivity.
  - discriminate.
Defined.

Lemma decrypt_returns_payload_witness :
  let w' := snd (decrypt ["R"; "a.gpg"] None None true (test_world boundary_store)) in
  "alpha"%string <> EmptyString
  /\ (true = true -> utf8_valid "alpha" = true)
  /\ exists b o T,
       trace w' = T ++ [EvSpawn (decrypt_command b None None ["R"; "a.gpg"]) None (Some o)]
       /\ stdout_of o = "alpha"%string.
Proof.
  intros w'.
  apply (decrypt_returns_payload (BK := test_backend) ["R"; "a.gpg"] None None true
           (test_world boundary_store) w' "alpha").
  vm_compute. reflexivity.
Defined.

Lemma list_packets_errors_first_witness :
  let answer := [(Out, line ":pubkey enc packet: version 3, algo 1, keyid 0123456789ABCDEF");
                 (Err, line "gpg: can't open 'f.gpg'")] in
  exists w',
    list_packets ["f.gpg"] (canned_world answer packet_store)
    = (Raise (FileNotFoundError (Some "can't open file")), w').
Proof.
  intros answer.
  pose (w := canned_world answer packet_store).
  pose (w1 := snd (get_binary w)).
  destruct (list_packets_errors_first (BK := canned_backend answer) ["f.gpg"] w w1
              "gpg" answer tt) as (H & _).
  - vm_compute. reflexivity.
  - vm_compute. reflexivity.
  - eexists. apply H. apply re_match_phrase. vm_compute. reflexivity.
Defined.

Lemma list_packets_last_keyid_witness :
  let answer := [(Out, line "keyid 0123456789ABCDEF, keyid FEDCBA9876543210")] in
  let w := canned_world answer packet_store in
  let w' := snd (list_packets ["f.gpg"] w) in
  exists b o T,
    trace w' = T ++ [EvSpawn (list_packets_command b ["f.gpg"]) None (Some o)]
    /\ ["keyid FEDCBA9876543210"] = flat_map keyids_of_line (split_nl (stdout_of o))
    /\ forall line, In line (split_nl (stdout_of o)) ->
         keyids_of_line line = []
         \/ exists t a r,
              keyids_of_line line = [t] /\ keyid_token t
              /\ line = (a ++ t ++ r)%string
              /\ forall a' t' r',
                   line = (a' ++ t' ++ r')%string -> keyid_token t' ->
                   String.length a' <= String.length a.
Proof.
  intros answer w w'.
  apply (list_packets_last_keyid (BK := canned_backend answer) ["f.gpg"] w w'
           ["keyid FEDCBA9876543210"]).
  vm_compute. reflexivity.
Defined.

Lemma gpg_id_reread_witness :
  let w := test_world boundary_store in
  let w2 := snd (write_gpg_id_file ["R"; "S"; ".gpg-id"] ["K2"] w) in
  w = w
  /\ Forall (fun id => no_line_terminator id = true) ["K2"]
  /\ get_recipients_from_gpg_id ["R"; "S"; ".gpg-id"] w2 = (Ret ["K2"], w2).
Proof.
  intros w w2.
  apply (gpg_id_reread (BK := test_backend) ["R"; "T"; ".gpg-id"] ["R"; "S"; ".gpg-id"]
           (line "K2") ["K2"] w w w2).
  - vm_compute. reflexivity.
  - vm_compute. reflexivity.
  - vm_compute. reflexivity.
  - vm_compute. reflexivity.
Defined.

Lemma gpg_id_crlf_witness :
  get_recipients_from_gpg_id [".gpg-id"] (test_world crlf_store)
  = (Ret ["K1"; "K2"], test_world crlf_store).
Proof.
  apply (gpg_id_crlf (BK := test_backend) [".gpg-id"] ["K1"; "K2"] (test_world crlf_store)).
  - repeat constructor.
  - vm_compute. reflexivity.
  - vm_compute. reflexivity.
Defined.

Lemma gpg_id_rewrite_normalises_witness :
  let p := ["sub"; ".gpg-id"] in
  let w := test_world crlf_store in
  let w2 := snd (write_gpg_id_file p ["K1"; "K2"] w) in
  read_file (fs w2) p
  = inl (with_final_nl (universal_newlines ("K1" ++ String cr (String nl "K2")))).
Proof.
  intros p w w2.
  apply (gpg_id_rewrite_normalises (BK := test_backend) p
           ("K1" ++ String cr (String nl "K2"))%string ["K1"; "K2"] w w w2).
  - vm_compute. reflexivity.
  - vm_compute. reflexivity.
  - vm_compute. reflexivity.
  - vm_compute. reflexivity.
Defined.

Lemma list_available_keys_outcome_witness :
  let w := canned_world key_listing (Dir []) in
  let w1 := snd (get_binary w) in
  list_available_keys None false w
  = (Ret ["Alice <alice@example.org>"; "<bob@example.org>"],
     spawned w1 (list_keys_command "gpg" None false) None (Some key_listing) tt).
Proof.
  intros w w1.
  destruct (list_available_keys_outcome (BK := canned_backend key_listing) None false
              w w1 "gpg" key_listing tt) as (H & _).
  - vm_compute. reflexivity.
  - vm_compute. reflexivity.
  - replace ["Alice <alice@example.org>"; "<bob@example.org>"]
      with (uids (stdout_of key_listing)) by (vm_compute; reflexivity).
    apply H. apply Forall_forall. intros name Hin. vm_compute in Hin.
    destruct Hin as [<- | [<- | []]]; vm_compute; reflexivity.
Defined.

Lemma list_available_keys_names_witness :
  let w := canned_world key_listing (Dir []) in
  let w' := snd (list_available_keys None true w) in
  exists b o T,
    trace w' = T ++ [EvSpawn (list_keys_command b None true) None (Some o)]
    /\ Forall (fun name =>
                 utf8_valid name = true
                 /\ ~ has_bracket_space name
                 /\ exists line sp v s,
                      In line (split_nl (stdout_of o))
                      /\ line = ("uid" ++ sp ++ "[" ++ v ++ "]" ++ String s name)%string
                      /\ sp <> EmptyString /\ all_of is_space sp = true
                      /\ v <> EmptyString /\ is_space s = true)
              ["Alice <alice@example.org>"; "<bob@example.org>"].
Proof.
  intros w w'.
  apply (list_available_keys_names (BK := canned_backend key_listing) None true w w'
           ["Alice <alice@example.org>"; "<bob@example.org>"]).
  vm_compute. reflexivity.
Defined.

Lemma has_bracket_space_test (name : string) :
  has_bracket_space name -> bracket_space name = true.
Proof.
  intros (a & s & r & -> & Hs). induction a as [|c a IH].
  - simpl. now rewrite Hs.
  - change ((String c a ++ "]" ++ String s r)%string)
      with (String c (a ++ "]" ++ String s r)).
    cbn [bracket_space]. destruct (a ++ "]" ++ String s r)%string eqn:E.
    + destruct a; discriminate.
    + rewrite IH. apply orb_true_r.
Qed.

Lemma list_available_keys_finds_uid_line_witness :
  let w := canned_world key_listing (Dir []) in
  In "Alice <alice@example.org>"%string
     ["Alice <alice@example.org>"; "<bob@example.org>"]%string.
Proof.
  intros w.
  pose (w' := snd (list_available_keys None false w)).
  apply (list_available_keys_finds_uid_line (BK := canned_backend key_listing)
           None false w w' ["Alice <alice@example.org>"; "<bob@example.org>"]
           "gpg" key_listing
           [EvSpawn gpg_version None (Some [(Out, line "gpg (GnuPG) 2.2.27")])]
           "           " "ultimate" " "%char "Alice <alice@example.org>").
  - vm_compute. reflexivity.
  - vm_compute. reflexivity.
  - vm_compute. right. left. reflexivity.
  - discriminate.
  - vm_compute. reflexivity.
  - discriminate.
  - vm_compute. reflexivity.
  - intros H. apply has_bracket_space_test in H. vm_compute in H. discriminate.
Defined.

Lemma import_gpg_keys_without_keys_witness :
  import_gpg_keys ["R"] (test_world boundary_store)
  = (Ret tt, test_world boundary_store).
Proof.
  apply (import_gpg_keys_without_keys (BK := test_backend) ["R"]
           (test_world boundary_store)).
  intros es H. vm_compute in H. discriminate.
Defined.

Lemma import_gpg_keys_one_process_witness :
  let answer := [(Err, line "gpg: no valid OpenPGP data found.")] in
  let w := canned_world answer keys_store in
  let argv := [Str "gpg"; Str "--import";
               Pth [".available-keys"; "alice.asc"];
               Pth [".available-keys"; "old"];
               Pth [".available-keys"; "bob.asc"]] in
  import_gpg_keys [] w
  = (Ret tt, spawned (snd (get_binary w)) argv None (Some answer) tt).
Proof.
  intros answer w argv.
  apply (import_gpg_keys_one_process (BK := canned_backend answer) [] w
           (snd (get_binary w))
           [("alice.asc", File "key of alice");
            ("old", Dir [("carol.asc", File "key of carol")]);
            ("bob.asc", File "key of bob")]
           "gpg" (Some answer) tt).
  - reflexivity.
  - discriminate.
  - vm_compute. reflexivity.
  - vm_compute. reflexivity.
Defined.

Lemma refresh_checks_recipients_witness :
  let w := canned_world key_listing (Dir []) in
  let rcpts := ["<bob@example.org>"; "Carol"] in
  let widget' := snd (fst (refresh_recipients [Recipient "stale" true true] rcpts w)) in
  (Ret tt = Ret tt ->
   forall key, In key (get_checked_item_names widget') <-> In key rcpts)
  /\ ((forall v, Ret tt <> Ret v) -> widget' = []).
Proof.
  intros w rcpts widget'.
  apply (refresh_checks_recipients (BK := canned_backend key_listing)
           [Recipient "stale" true true] rcpts w
           (snd (refresh_recipients [Recipient "stale" true true] rcpts w))
           (Ret tt) widget').
  vm_compute. reflexivity.
Defined.

Lemma refresh_lists_available_first_witness :
  let w := canned_world key_listing (Dir []) in
  let rcpts := ["<bob@example.org>"; "Carol"] in
  let res := refresh_recipients [] rcpts w in
  exists keys,
    list_available_keys None false w = (Ret keys, snd res)
    /\ map item_text (snd (fst res))
       = keys ++ filter (fun key => negb (mem key keys)) rcpts
    /\ Forall (fun it => item_enabled it = mem (item_text it) keys
                         /\ item_checked it = mem (item_text it) rcpts)
              (snd (fst res)).
Proof.
  intros w rcpts res.
  apply (refresh_lists_available_first (BK := canned_backend key_listing)
           [] rcpts w (snd res) (snd (fst res))).
  vm_compute. reflexivity.
Defined.

Lemma refresh_checked_roundtrip_witness :
  let w := canned_world key_listing (Dir []) in
  let rcpts := ["<bob@example.org>"; "Carol"] in
  let res1 := refresh_recipients [] rcpts w in
  let widget1 := snd (fst res1) in
  let res2 := refresh_recipients widget1 (get_checked_item_names widget1) (snd res1) in
  snd (fst res2) = widget1.
Proof.
  intros w rcpts res1 widget1 res2.
  apply (refresh_checked_roundtrip (BK := canned_backend key_listing)
           [] rcpts w (snd res1) (snd res2) widget1 (snd (fst res2))
           ["Alice <alice@example.org>"; "<bob@example.org>"]).
  - vm_compute. reflexivity.
  - vm_compute. reflexivity.
  - vm_compute. reflexivity.
  - vm_compute. reflexivity.
Defined.
